(** * CDFSManager: a shallow embedding of the CDFS archive tool

    The development follows [CDFSManager.py].  Python integers are
    unbounded, so every number is a [Z]; [bytes] and [bytearray] values are
    lists of integers in [0, 256); a Python [str] is the list of its code
    points.  Exceptions are carried by the [result] type.  Indices and slice
    bounds in this program are never negative (they come from lengths and
    from unsigned fields), and the slice helpers below are written for that
    case.

    The file has four parts: the program, function by function; the
    vocabulary in which its properties are stated; the proofs of the claims
    of the specification; further properties of the program. *)

From stdpp Require Import gmap list strings.
From Stdlib Require Import ZArith Lia.

Local Open Scope Z_scope.

(** [lia] for goals with division and remainder. *)
Ltac dlia := Z.div_mod_to_equations; lia.

(** ** Exceptions *)

Inductive exn : Type :=
  | StructError
  | UnicodeDecodeError
  | UnicodeEncodeError
  | ZeroDivisionError
  | OSError (msg : string).

Inductive result (A : Type) : Type :=
  | Return (a : A)
  | Raise (e : exn).
Arguments Return {A} a.
Arguments Raise {A} e.

Definition bind {A B : Type} (m : result A) (k : A → result B) : result B :=
  match m with
  | Return a => k a
  | Raise e => Raise e
  end.

Notation "x ←! m ; k" := (bind m (λ x, k))
  (at level 20, m at level 100, k at level 200, right associativity,
   format "x  ←!  m ;  '/' k").
Notation "' p ←! m ; k" := (bind m (λ p, k))
  (at level 20, p pattern, m at level 100, k at level 200,
   right associativity, format "' p  ←!  m ;  '/' k").

(** ** Python sequences *)

Abbreviation bytes := (list Z).
Abbreviation str := (list Z).

(** [len(l)] *)
Definition len {A : Type} (l : list A) : Z := Z.of_nat (length l).

(** [l[a:b]] for [0 <= a] *)
Definition slice {A : Type} (l : list A) (a b : Z) : list A :=
  take (Z.to_nat (b - a)) (drop (Z.to_nat a) l).

(** [l[a:]] for [0 <= a] *)
Definition slice_from {A : Type} (l : list A) (a : Z) : list A :=
  drop (Z.to_nat a) l.

(** [b'\0' * n] *)
Definition zeros (n : Z) : bytes := replicate (Z.to_nat n) 0.

Definition is_byte (b : Z) : Prop := 0 ≤ b < 256.

(** The code points of an ASCII literal, to write examples legibly. *)
Fixpoint py (s : string) : str :=
  match s with
  | EmptyString => []
  | String a s' => Z.of_N (Ascii.N_of_ascii a) :: py s'
  end.

(** ** The UTF-8 codec: [str.encode('utf-8')] and [bytes.decode('utf-8')] *)

Definition is_surrogate (c : Z) : bool :=
  bool_decide (0xD800 ≤ c ≤ 0xDFFF).

Definition encode_cp (c : Z) : option bytes :=
  if bool_decide (c < 0) then None
  else if bool_decide (c < 0x80) then Some [c]
  else if bool_decide (c < 0x800) then
    Some [0xC0 + c / 64; 0x80 + c mod 64]
  else if bool_decide (c < 0x10000) then
    if is_surrogate c then None
    else Some [0xE0 + c / 4096; 0x80 + (c / 64) mod 64; 0x80 + c mod 64]
  else if bool_decide (c < 0x110000) then
    Some [0xF0 + c / 262144; 0x80 + (c / 4096) mod 64;
          0x80 + (c / 64) mod 64; 0x80 + c mod 64]
  else None.

Fixpoint utf8_encode (s : str) : option bytes :=
  match s with
  | [] => Some []
  | c :: s' =>
      match encode_cp c, utf8_encode s' with
      | Some bs, Some bs' => Some (bs ++ bs')
      | _, _ => None
      end
  end.

Definition is_cont (b : Z) : bool := bool_decide (0x80 ≤ b < 0xC0).

(** Strict decoding: overlong forms, surrogates and values above
    U+10FFFF are rejected, as CPython does. *)
Fixpoint utf8_decode (bs : bytes) : option str :=
  match bs with
  | [] => Some []
  | b0 :: r0 =>
      if bool_decide (0 ≤ b0 < 0x80) then cons b0 <$> utf8_decode r0
      else if bool_decide (0xC2 ≤ b0 < 0xE0) then
        match r0 with
        | b1 :: r1 =>
            if is_cont b1
            then cons ((b0 - 0xC0) * 64 + (b1 - 0x80)) <$> utf8_decode r1
            else None
        | _ => None
        end
      else if bool_decide (0xE0 ≤ b0 < 0xF0) then
        match r0 with
        | b1 :: b2 :: r2 =>
            let c := (b0 - 0xE0) * 4096 + (b1 - 0x80) * 64 + (b2 - 0x80) in
            if is_cont b1 && is_cont b2 && bool_decide (0x800 ≤ c)
               && negb (is_surrogate c)
            then cons c <$> utf8_decode r2
            else None
        | _ => None
        end
      else if bool_decide (0xF0 ≤ b0 < 0xF5) then
        match r0 with
        | b1 :: b2 :: b3 :: r3 =>
            let c := (b0 - 0xF0) * 262144 + (b1 - 0x80) * 4096
                     + (b2 - 0x80) * 64 + (b3 - 0x80) in
            if is_cont b1 && is_cont b2 && is_cont b3
               && bool_decide (0x10000 ≤ c < 0x110000)
            then cons c <$> utf8_decode r3
            else None
        | _ => None
        end
      else None
  end.

(** [bytes.decode('ascii')] *)
Definition ascii_decode (bs : bytes) : result str :=
  if forallb (λ b, bool_decide (0 ≤ b < 0x80)) bs then Return bs
  else Raise UnicodeDecodeError.

(** A string [add_string_to_table] can store and [unpack_string_from_table]
    can read back: Unicode scalar values, none of them NUL. *)
Definition storable (s : str) : Prop :=
  Forall (λ c, 0 < c < 0x110000 ∧ ¬ (0xD800 ≤ c ≤ 0xDFFF)) s.

#[global] Instance storable_dec s : Decision (storable s).
Proof. unfold storable. apply _. Defined.

(** ** The string table *)

(** The loop of [unpack_string_from_table]: [rest] is
    [string_table[end:]]; the result is the final value of [end]. *)
Fixpoint scan_to_nul (rest : bytes) (end_ : Z) : Z :=
  match rest with
  | b :: rest' =>
      if bool_decide (b ≠ 0) then scan_to_nul rest' (end_ + 1) else end_
  | [] => end_
  end.

Definition unpack_string_from_table (string_table : bytes) (offset : Z)
  : result str :=
  let end_ := scan_to_nul (slice_from string_table offset) offset in
  match utf8_decode (slice string_table offset end_) with
  | Some s => Return s
  | None => Raise UnicodeDecodeError
  end.

(** [rest.split(b'\0', 1)[0]] *)
Fixpoint first_field (rest : bytes) : bytes :=
  match rest with
  | b :: rest' => if bool_decide (b = 0) then [] else b :: first_field rest'
  | [] => []
  end.

(** The [while] loop of [add_string_to_table], started at [index].  The
    first component lists the values of [index] at which the comparison of
    the loop body was evaluated; the second is the offset the loop returned,
    or [None] when the loop ran to its end.  [encoded] is
    [string_value.encode('utf-8')]. *)
Fixpoint scan_table (fuel : nat) (string_table : bytes) (string_value : str)
    (encoded : bytes) (index : Z) : list Z * option Z :=
  match fuel with
  | O => ([], None)
  | S fuel' =>
      if bool_decide (index < len string_table - len string_value) then
        if bool_decide (slice string_table index (index + len string_value)
                        = encoded)
           && bool_decide (string_table !! Z.to_nat (index + len string_value)
                           = Some 0)
        then ([index], Some index)
        else
          let r := scan_table fuel' string_table string_value encoded
                     (index + len (first_field (slice_from string_table index))
                      + 1) in
          (index :: r.1, r.2)
      else ([], None)
  end.

Section with_upper.

(** [str.upper()].  The case mapping is Python's; nothing here depends on
    which mapping it is. *)
Variable upper : str → str.

(** [string_table] and [string_cache] are mutated in place by the source;
    here the updated values are returned with the offset.  When the string is
    not cached, [encode] is evaluated by the first comparison of the loop or,
    if the loop body never runs, by the append: either way before anything
    is changed. *)
Definition add_string_to_table (string_table : bytes)
    (string_cache : gmap str Z) (string_value : str)
  : result (bytes * gmap str Z * Z) :=
  let string_value := upper string_value in
  match string_cache !! string_value with
  | Some index => Return (string_table, string_cache, index)
  | None =>
      match utf8_encode string_value with
      | None => Raise UnicodeEncodeError
      | Some encoded =>
          match (scan_table (length string_table) string_table string_value
                   encoded 0).2 with
          | Some index =>
              Return (string_table, <[string_value := index]> string_cache,
                      index)
          | None =>
              let index := len string_table in
              Return (string_table ++ encoded ++ [0],
                      <[string_value := index]> string_cache, index)
          end
      end
  end.

(** The offsets the dedup scan tests during one call. *)
Definition tested_offsets (string_table : bytes) (string_cache : gmap str Z)
    (string_value : str) : list Z :=
  let string_value := upper string_value in
  match string_cache !! string_value, utf8_encode string_value with
  | None, Some encoded =>
      (scan_table (length string_table) string_table string_value
         encoded 0).1
  | _, _ => []
  end.

(** A sequence of interns, threading the table and the cache. *)
Fixpoint intern_all (values : list str) (string_table : bytes)
    (string_cache : gmap str Z) : result (bytes * gmap str Z * list Z) :=
  match values with
  | [] => Return (string_table, string_cache, [])
  | v :: values' =>
      '(st, sc, index) ←! add_string_to_table string_table string_cache v;
      '(st', sc', indices) ←! intern_all values' st sc;
      Return (st', sc', index :: indices)
  end.

End with_upper.

(** The ASCII part of [str.upper()], used to run the model on examples. *)
Definition ascii_upper (s : str) : str :=
  (λ c, if bool_decide (0x61 ≤ c ≤ 0x7A) then c - 32 else c) <$> s.

(** ** [struct.pack] and [struct.unpack] for little-endian unsigned words *)

Definition CDFS_MAGIC : Z := 0x43444653.
Definition CDFS_VERSION : Z := 1.

(** [struct.pack('<I', v)]; a value outside [0, 2^32) raises [struct.error]. *)
Definition pack_I (v : Z) : result bytes :=
  if bool_decide (0 ≤ v < 2 ^ 32) then
    Return [v mod 256; (v / 256) mod 256; (v / 65536) mod 256;
            (v / 16777216) mod 256]
  else Raise StructError.

(** [struct.pack('<I...I', v1, ..., vn)] *)
Fixpoint struct_pack (values : list Z) : result bytes :=
  match values with
  | [] => Return []
  | v :: values' =>
      b ←! pack_I v;
      bs ←! struct_pack values';
      Return (b ++ bs)
  end.

(** [struct.pack('>I', v)] *)
Definition pack_I_be (v : Z) : result bytes :=
  b ←! pack_I v; Return (reverse b).

Definition unpack_I (b : bytes) : Z := foldr (λ x acc, x + 256 * acc) 0 b.

Fixpoint unpack_words (count : nat) (data : bytes) : list Z :=
  match count with
  | O => []
  | S count' => unpack_I (take 4 data) :: unpack_words count' (drop 4 data)
  end.

(** [struct.unpack('<I...I', data)] with [count] fields; a buffer of the
    wrong size raises [struct.error]. *)
Definition struct_unpack (count : nat) (data : bytes) : result (list Z) :=
  if bool_decide (length data = (4 * count)%nat)
  then Return (unpack_words count data)
  else Raise StructError.

(** ** Files

    A file opened for reading is its contents; [f.read(n)] at position [pos]
    returns [slice f pos (pos + n)] and advances by its length.  A file
    opened for writing is changed by [f.seek(pos); f.write(data)]: the bytes
    are overwritten in place, and a write that starts beyond the end first
    fills the gap with zeros.  Writing no bytes changes nothing. *)
Definition write_at (f : bytes) (pos : Z) (data : bytes) : bytes :=
  match data with
  | [] => f
  | _ =>
      take (Z.to_nat pos) (f ++ zeros (pos - len f)) ++ data
      ++ drop (Z.to_nat (pos + len data)) f
  end.

Definition write_op : Type := Z * bytes.

Definition apply_writes (ops : list write_op) (f : bytes) : bytes :=
  foldl (λ f op, write_at f op.1 op.2) f ops.

(** ** Paths *)

(** [s.replace(a, b)] for single characters *)
Definition replace_char (a b : Z) (s : str) : str :=
  (λ c, if bool_decide (c = a) then b else c) <$> s.

Definition backslash : Z := 0x5C.
Definition slash : Z := 0x2F.

(** The host: [os.path] is [posixpath] or [ntpath]. *)
Inductive platform : Type := Posix | Windows.

(** The separators [os.path.split] looks for: the slash for [posixpath],
    the slash and the backslash for [ntpath]. *)
Definition is_sep (os : platform) (c : Z) : bool :=
  match os with
  | Posix => bool_decide (c = slash)
  | Windows => bool_decide (c = slash) || bool_decide (c = backslash)
  end.

(** [(p[:i], p[i:])] where [i] is the index that follows the last separator
    of [p], or 0 when [p] holds none. *)
Fixpoint split_after_last_sep (is_sep : Z → bool) (p : str) : str * str :=
  match p with
  | [] => ([], [])
  | c :: p' =>
      let '(head, tail) := split_after_last_sep is_sep p' in
      match head with
      | [] => if is_sep c then ([c], tail) else ([], c :: tail)
      | _ => (c :: head, tail)
      end
  end.

(** [head.rstrip(seps)] *)
Fixpoint rstrip (is_sep : Z → bool) (head : str) : str :=
  match head with
  | [] => []
  | c :: head' =>
      match rstrip is_sep head' with
      | [] => if is_sep c then [] else [c]
      | stripped => c :: stripped
      end
  end.

(** [os.path.split(p)].  [posixpath.split] cuts [p] after its last slash
    and strips the slashes that end the head, unless the head holds slashes
    only.  [ntpath.split] cuts [p] after its last slash or backslash and
    strips the separators that end the head; it first sets apart the drive
    and the root of [p], which is left out here: the path that [pack_cdfs]
    splits is relative to [input_dir] and has neither. *)
Definition os_path_split (os : platform) (p : str) : str * str :=
  let '(head, tail) := split_after_last_sep (is_sep os) p in
  match os with
  | Posix =>
      if forallb (is_sep Posix) head then (head, tail)
      else (rstrip (is_sep Posix) head, tail)
  | Windows => (rstrip (is_sep Windows) head, tail)
  end.

(** ** The archive header and the file table *)

Record header := {
  h_magic : Z;
  h_version : Z;
  h_sector_size : Z;
  h_recommended_cache_size : Z;
  h_first_sector_offset : Z;
  h_total_sectors : Z;
  h_file_table_length : Z;
  h_file_table_entries : Z;
  h_string_table_length : Z;
  h_string_table_entries : Z
}.

Definition header_fields (h : header) : list Z :=
  [h_magic h; h_version h; h_sector_size h; h_recommended_cache_size h;
   h_first_sector_offset h; h_total_sectors h; h_file_table_length h;
   h_file_table_entries h; h_string_table_length h;
   h_string_table_entries h].

(** [struct.unpack('<IIIIIIIIII', header_data)] *)
Definition unpack_header (header_data : bytes) : result header :=
  fields ←! struct_unpack 10 header_data;
  match fields with
  | [a; b; c; d; e; f; g; h; i; j] => Return (Build_header a b c d e f g h i j)
  | _ => Raise StructError
  end.

(** A file-table entry as [unpack_cdfs] and [verify_cdfs] read it. *)
Record entry := {
  entry_file_name_offset : Z;
  entry_dir_name_offset : Z;
  entry_start_sector : Z;
  entry_length : Z
}.

(** [struct.unpack('<IIII', entry_data)] *)
Definition unpack_entry (entry_data : bytes) : result entry :=
  fields ←! struct_unpack 4 entry_data;
  match fields with
  | [a; b; c; d] => Return (Build_entry a b c d)
  | _ => Raise StructError
  end.

(** ** What the tool prints *)

(** A destination of [unpack_cdfs]: the directory and the file name given to
    [os.path.join] after [output_dir]; the directory is empty when
    [os.path.join] is given the name alone.  Which file of the host the
    joined path names is not part of the model: where a statement needs two
    destinations to be two files, it says so of a function that sends a
    destination to the file it names. *)
Definition dest_path : Type := str * str.

(** The lines whose presence or text depends on what the command finds:
    the diagnostics, the warning, the line of success and the lines of the
    completion loops.  The lines a command prints on every run that gets to
    them (the announcements of [verify_cdfs] before each group of checks
    and its count of files and sectors, the counts and the closing lines of
    [pack_cdfs] and [unpack_cdfs], the header dump of debug mode) are not
    recorded. *)
Inductive report : Type :=
  | InvalidFormat (magic : Z)
  | VersionMismatch (found : Z)
  | TooSmall
  | FirstSectorOffsetExceeds (first_sector_offset file_size : Z)
  | FileTableLengthMismatch (expected found : Z)
  | TruncatedFileTable (i : Z)
  | TruncatedStringTable
  | EntryBeyondEnd (idx : Z)
  | InvalidFilenameOffset (idx : Z)
  | InvalidDirectoryOffset (idx : Z)
  | InvalidStringReferences (idx : Z)
  | VerificationSuccessful
  | Packing (completed : Z) (path : string) (file_size : Z)
  | Progress (processed_size total_size : Z)
  | ErrorPacking (idx : Z) (message : string)
  | Unpacking (completed : Z) (file_path : dest_path) (file_length : Z)
  | ErrorUnpacking (file_path : dest_path) (message : string).

(** ** Packing *)

(** One file of [file_paths] in the loop that interns the names, with the
    two names the loop binds for it first: [dir_name] and [file_name] are
    what [os.path.split] returned for the relative path once its slashes
    have been replaced by backslashes ([split_rel_path] below); [data] is
    the file's contents, whose length is what [os.path.getsize] reported. *)
Record file_info := {
  path : string;
  dir_name : str;
  file_name : str;
  data : bytes
}.

Definition size (fi : file_info) : Z := len (data fi).

(** An element of [file_paths] as the walk of [input_dir] builds it:
    ['path'], ['rel_path'] (the path relative to [input_dir], with the
    separators of the host) and the contents of the file, whose length is
    ['size']. *)
Record found_file := {
  found_path : string;
  rel_path : str;
  found_data : bytes
}.

(** The first two statements of the loop over [file_paths]: the slashes of
    ['rel_path'] are replaced by backslashes, then [os.path.split] gives
    [dir_name] and [file_name]. *)
Definition split_rel_path (os : platform) (found : found_file)
  : file_info :=
  let rel_path := replace_char slash backslash (rel_path found) in
  let '(dir_name, file_name) := os_path_split os rel_path in
  {| path := found_path found;
     dir_name := dir_name;
     file_name := file_name;
     data := found_data found |}.

(** An entry of [file_table] in [pack_cdfs].  ['start_sector'] is set by the
    layout loop; until then the field holds 0 and is not read. *)
Record pack_entry := {
  pe_file_name_offset : Z;
  pe_dir_name_offset : Z;
  pe_file : file_info;
  pe_start_sector : Z
}.

Definition header_size : Z := 40.

(** The rounding of [first_sector_offset]; returns it with [padding]. *)
Definition align_first_sector (first_sector_offset sector_size : Z)
  : result (Z * Z) :=
  if bool_decide (sector_size = 0) then Raise ZeroDivisionError
  else if bool_decide (first_sector_offset mod sector_size ≠ 0) then
    let padding := sector_size - first_sector_offset mod sector_size in
    Return (first_sector_offset + padding, padding)
  else Return (first_sector_offset, 0).

(** The loop that assigns ['start_sector']; returns the table with the
    final [current_sector]. *)
Fixpoint assign_sectors (file_table : list pack_entry)
    (sector_size current_sector : Z) : list pack_entry * Z :=
  match file_table with
  | [] => ([], current_sector)
  | entry :: file_table' =>
      let sectors_needed :=
        (size (pe_file entry) + sector_size - 1) / sector_size in
      let r := assign_sectors file_table' sector_size
                 (current_sector + sectors_needed) in
      ({| pe_file_name_offset := pe_file_name_offset entry;
          pe_dir_name_offset := pe_dir_name_offset entry;
          pe_file := pe_file entry;
          pe_start_sector := current_sector |} :: r.1, r.2)
  end.

(** The file table as written after the header. *)
Fixpoint pack_file_table (file_table : list pack_entry) : result bytes :=
  match file_table with
  | [] => Return []
  | entry :: file_table' =>
      entry_data ←! struct_pack [pe_file_name_offset entry;
                                 pe_dir_name_offset entry;
                                 pe_start_sector entry;
                                 size (pe_file entry)];
      rest ←! pack_file_table file_table';
      Return (entry_data ++ rest)
  end.

(** The result of a packing task: [idx], the size, and the path of the file
    ([inl]) or the text of the exception ([inr]).  The source tells the two
    apart with [os.path.exists]: the path of a file that was read exists,
    the text of an exception does not name a file. *)
Definition task_result : Type := Z * Z * (string + string).

(** The writes of a task, in the order the task issues them, and what it
    returns.  [read_error] gives, for the path of a source file, the text
    of the exception that opening or reading it raises, if it raises one. *)
Definition process_file_task (read_error : string → option string)
    (idx : Z) (file_info : pack_entry)
    (sector_size first_sector_offset : Z) : list write_op * task_result :=
  match read_error (path (pe_file file_info)) with
  | Some e => ([], (idx, 0, inr e))
  | None =>
      let file_data := data (pe_file file_info) in
      let file_offset :=
        first_sector_offset + pe_start_sector file_info * sector_size in
      let sector_padding :=
        (sector_size - len file_data mod sector_size) mod sector_size in
      ((file_offset, file_data)
       :: (if bool_decide (sector_padding > 0)
           then [(file_offset + len file_data, zeros sector_padding)]
           else []),
       (idx, len file_data, inl (path (pe_file file_info))))
  end.

Fixpoint process_file_tasks (read_error : string → option string)
    (idx : Z) (file_table : list pack_entry)
    (sector_size first_sector_offset : Z)
  : list (list write_op * task_result) :=
  match file_table with
  | [] => []
  | entry :: file_table' =>
      process_file_task read_error idx entry sector_size first_sector_offset
      :: process_file_tasks read_error (idx + 1) file_table' sector_size
           first_sector_offset
  end.

(** The loop over the completed futures of [pack_cdfs]. *)
Fixpoint report_results (debug_mode : bool) (total_size : Z)
    (results : list task_result) (processed_size completed : Z)
  : result (list report) :=
  match results with
  | [] => Return []
  | (idx, file_size, file_path) :: results' =>
      let completed := completed + 1 in
      match file_path with
      | inl p =>
          let processed_size := processed_size + file_size in
          if debug_mode then
            if bool_decide (total_size = 0) then Raise ZeroDivisionError
            else
              log ←! report_results debug_mode total_size results'
                       processed_size completed;
              Return (Packing completed p file_size
                      :: Progress processed_size total_size :: log)
          else report_results debug_mode total_size results'
                 processed_size completed
      | inr e =>
          log ←! report_results debug_mode total_size results'
                   processed_size completed;
          Return (ErrorPacking idx e :: log)
      end
  end.

Section with_upper_pack.

Variable upper : str → str.

(** The loop that interns the names and builds [file_table], from the
    names that [split_rel_path] gave; returns the table with the final
    [string_table] and [string_table_entries]. *)
Fixpoint intern_files (file_paths : list file_info) (string_table : bytes)
    (string_cache : gmap str Z) (string_table_entries : Z)
  : result (list pack_entry * bytes * Z) :=
  match file_paths with
  | [] => Return ([], string_table, string_table_entries)
  | file_info :: file_paths' =>
      '(st1, sc1, dir_name_offset) ←!
        add_string_to_table upper string_table string_cache
          (dir_name file_info);
      '(st2, sc2, file_name_offset) ←!
        add_string_to_table upper st1 sc1 (file_name file_info);
      let n1 :=
        if bool_decide (dir_name file_info ≠ [])
           && bool_decide (dir_name_offset
                           = len st2 - len (dir_name file_info) - 1)
        then string_table_entries + 1 else string_table_entries in
      let n2 :=
        if bool_decide (file_name_offset
                        = len st2 - len (file_name file_info) - 1)
        then n1 + 1 else n1 in
      '(file_table, st, n) ←! intern_files file_paths' st2 sc2 n2;
      Return ({| pe_file_name_offset := file_name_offset;
                 pe_dir_name_offset := dir_name_offset;
                 pe_file := file_info;
                 pe_start_sector := 0 |} :: file_table, st, n)
  end.

(** [pack_cdfs] once the names are split.  [file_paths] is the list the
    walk produced, in discovery order, each file with the names that
    [split_rel_path] gave.  The worker pool is modelled by two schedulers:
    [write_order] arranges the writes of all tasks in the order they reach
    the output file, [completion_order] arranges the task results in the
    order the futures complete.  The result is the output file, what was
    printed by the completion loop, and the returned value. *)
Definition pack_cdfs (file_paths : list file_info)
    (sector_size cache_size : Z) (debug_mode : bool)
    (read_error : string → option string)
    (write_order : list write_op → list write_op)
    (completion_order : list task_result → list task_result)
  : result (bytes * list report * bool) :=
  '(file_table, string_table, string_table_entries) ←!
    intern_files file_paths [0] ∅ 1;
  let file_table_size := len file_table * 16 in
  let string_table_size := len string_table in
  '(first_sector_offset, padding) ←!
    align_first_sector (header_size + file_table_size + string_table_size)
      sector_size;
  let '(file_table, current_sector) :=
    assign_sectors file_table sector_size 0 in
  header ←! struct_pack [CDFS_MAGIC; CDFS_VERSION; sector_size; cache_size;
                         first_sector_offset; current_sector;
                         file_table_size; len file_table;
                         string_table_size; string_table_entries];
  entries ←! pack_file_table file_table;
  let f := header ++ entries ++ string_table
           ++ (if bool_decide (padding > 0) then zeros padding else []) in
  let total_size := foldr Z.add 0 ((λ e, size (pe_file e)) <$> file_table) in
  let f := write_at f (first_sector_offset + current_sector * sector_size - 1)
             [0] in
  let tasks :=
    process_file_tasks read_error 0 file_table sector_size
      first_sector_offset in
  let f := apply_writes (write_order (concat (fst <$> tasks))) f in
  log ←! report_results debug_mode total_size
           (completion_order (snd <$> tasks)) 0 0;
  Return (f, log, true).

End with_upper_pack.


(** ** Unpacking *)

(** The loop that reads the file table, starting at position [pos]. *)
Fixpoint read_file_table (count : nat) (f : bytes) (pos : Z)
  : result (list entry) :=
  match count with
  | O => Return []
  | S count' =>
      entry ←! unpack_entry (slice f pos (pos + 16));
      file_table ←! read_file_table count' f (pos + 16);
      Return (entry :: file_table)
  end.

(** An element of [file_tasks] (without the entry, which the task ignores,
    and the index, which is not used). *)
Record file_task := {
  ft_file_path : dest_path;
  ft_file_offset : Z;
  ft_file_length : Z
}.

Fixpoint make_file_tasks (file_table : list entry) (string_table_data : bytes)
    (first_sector_offset sector_size : Z) : result (list file_task) :=
  match file_table with
  | [] => Return []
  | entry :: file_table' =>
      file_name ←! unpack_string_from_table string_table_data
                     (entry_file_name_offset entry);
      dir_name ←! unpack_string_from_table string_table_data
                    (entry_dir_name_offset entry);
      let file_offset :=
        first_sector_offset + entry_start_sector entry * sector_size in
      let file_length := entry_length entry in
      let file_path :=
        match dir_name with
        | [] => ([], file_name)
        | _ => (replace_char backslash slash dir_name, file_name)
        end in
      file_tasks ←! make_file_tasks file_table' string_table_data
                      first_sector_offset sector_size;
      Return ({| ft_file_path := file_path;
                 ft_file_offset := file_offset;
                 ft_file_length := file_length |} :: file_tasks)
  end.

Definition buffer_size : Z := 16 * 1024 * 1024.

(** The copy loop of [unpack_file_task]: the bytes written to [out_file].
    [pos] is the position of [f]. *)
Fixpoint copy_chunks (fuel : nat) (f : bytes) (pos remaining : Z) : bytes :=
  match fuel with
  | O => []
  | S fuel' =>
      if bool_decide (remaining > 0) then
        let chunk_size := Z.min remaining buffer_size in
        let chunk := slice f pos (pos + chunk_size) in
        chunk ++ copy_chunks fuel' f (pos + len chunk)
                   (remaining - chunk_size)
      else []
  end.

(** [unpack_file_task]: the contents of the file it creates.  [dest_error]
    gives the message of the exception that creating the directories or
    the file raises, if any. *)
Definition unpack_file_task (input_file : bytes)
    (dest_error : dest_path → option string) (task : file_task)
  : result bytes :=
  match dest_error (ft_file_path task) with
  | Some e => Raise (OSError e)
  | None =>
      Return (copy_chunks (Z.to_nat (ft_file_length task)) input_file
                (ft_file_offset task) (ft_file_length task))
  end.

(** The loop over the completed futures of [unpack_cdfs]: the destination
    files and what was printed.  The tasks are taken one after another, in
    the order of their completion, which is what the workers make of them
    when no two tasks write the same file. *)
Fixpoint collect_unpacked (input_file : bytes)
    (dest_error : dest_path → option string) (debug_mode : bool)
    (tasks : list file_task) (completed : Z) (out : gmap dest_path bytes)
  : gmap dest_path bytes * list report :=
  match tasks with
  | [] => (out, [])
  | task :: tasks' =>
      match unpack_file_task input_file dest_error task with
      | Return contents =>
          let completed := completed + 1 in
          let r := collect_unpacked input_file dest_error debug_mode tasks'
                     completed (<[ft_file_path task := contents]> out) in
          (r.1, if debug_mode
                then Unpacking completed (ft_file_path task)
                       (ft_file_length task) :: r.2
                else r.2)
      | Raise e =>
          let r := collect_unpacked input_file dest_error debug_mode tasks'
                     completed out in
          (r.1, ErrorUnpacking (ft_file_path task)
                  (match e with OSError m => m | _ => EmptyString end) :: r.2)
      end
  end.

(** [unpack_cdfs].  [completion_order] arranges the tasks in the order the
    workers run them.  The result is the files created under [output_dir],
    what was printed, and the returned value. *)
Definition unpack_cdfs (input_file : bytes)
    (dest_error : dest_path → option string) (debug_mode : bool)
    (completion_order : list file_task → list file_task)
  : result (gmap dest_path bytes * list report * bool) :=
  let header_data := slice input_file 0 40 in
  h ←! unpack_header header_data;
  magic_bytes ←! pack_I_be (h_magic h);
  magic_text ←! ascii_decode magic_bytes;
  if bool_decide (h_magic h ≠ CDFS_MAGIC) then
    Return (∅, [InvalidFormat (h_magic h)], false)
  else
    file_table ←! read_file_table (Z.to_nat (h_file_table_entries h))
                    input_file 40;
    let pos := 40 + 16 * h_file_table_entries h in
    let string_table_data :=
      slice input_file pos (pos + h_string_table_length h) in
    file_tasks ←! make_file_tasks file_table string_table_data
                    (h_first_sector_offset h) (h_sector_size h);
    let r := collect_unpacked input_file dest_error debug_mode
               (completion_order file_tasks) 0 ∅ in
    Return (r.1, r.2, true).

(** ** Verifying *)

(** The loop that reads the file table in [verify_cdfs]: the entries, or
    the index of the first truncated one. *)
Fixpoint verify_read_file_table (count : nat) (f : bytes) (pos i : Z)
  : list entry + Z :=
  match count with
  | O => inl []
  | S count' =>
      let entry_data := slice f pos (pos + 16) in
      if bool_decide (len entry_data < 16) then inr i
      else
        match unpack_entry entry_data,
              verify_read_file_table count' f (pos + 16) (i + 1) with
        | Return entry, inl file_table => inl (entry :: file_table)
        | Return _, inr j => inr j
        | Raise _, _ => inr i
        end
  end.

(** The loop over the entries in [verify_cdfs]: the first diagnostic, if
    any. *)
Fixpoint verify_entries (file_table : list entry) (idx : Z)
    (string_table_data : bytes)
    (first_sector_offset sector_size string_table_length file_size : Z)
  : option report :=
  match file_table with
  | [] => None
  | entry :: file_table' =>
      let file_offset :=
        first_sector_offset + entry_start_sector entry * sector_size in
      let file_end := file_offset + entry_length entry in
      if bool_decide (file_end > file_size) then Some (EntryBeyondEnd idx)
      else if bool_decide (entry_file_name_offset entry
                           >= string_table_length)
      then Some (InvalidFilenameOffset idx)
      else if bool_decide (entry_dir_name_offset entry >= string_table_length)
      then Some (InvalidDirectoryOffset idx)
      else
        match unpack_string_from_table string_table_data
                (entry_file_name_offset entry),
              unpack_string_from_table string_table_data
                (entry_dir_name_offset entry) with
        | Return _, Return _ =>
            verify_entries file_table' (idx + 1) string_table_data
              first_sector_offset sector_size string_table_length file_size
        | _, _ => Some (InvalidStringReferences idx)
        end
  end.

(** [verify_cdfs]: what was printed and the returned value. *)
Definition verify_cdfs (input_file : bytes) : list report * bool :=
  let header_data := slice input_file 0 40 in
  if bool_decide (len header_data < 40) then ([TooSmall], false)
  else
    match unpack_header header_data with
    | Raise _ => ([], false)
    | Return h =>
        if bool_decide (h_magic h ≠ CDFS_MAGIC)
        then ([InvalidFormat (h_magic h)], false)
        else
          let warning :=
            if bool_decide (h_version h ≠ CDFS_VERSION)
            then [VersionMismatch (h_version h)] else [] in
          let file_size := len input_file in
          if bool_decide (h_first_sector_offset h > file_size) then
            (warning ++ [FirstSectorOffsetExceeds (h_first_sector_offset h)
                           file_size], false)
          else if bool_decide (h_file_table_entries h * 16
                               ≠ h_file_table_length h) then
            (warning ++ [FileTableLengthMismatch
                           (h_file_table_entries h * 16)
                           (h_file_table_length h)], false)
          else
            match verify_read_file_table
                    (Z.to_nat (h_file_table_entries h)) input_file 40 0 with
            | inr i => (warning ++ [TruncatedFileTable i], false)
            | inl file_table =>
                let pos := 40 + 16 * h_file_table_entries h in
                let string_table_data :=
                  slice input_file pos (pos + h_string_table_length h) in
                if bool_decide (len string_table_data
                                < h_string_table_length h) then
                  (warning ++ [TruncatedStringTable], false)
                else
                  match verify_entries file_table 0 string_table_data
                          (h_first_sector_offset h) (h_sector_size h)
                          (h_string_table_length h) file_size with
                  | Some diagnostic => (warning ++ [diagnostic], false)
                  | None => (warning ++ [VerificationSuccessful], true)
                  end
            end
    end.

(** ** Listing *)

(** What [list_cdfs] prints: the error line; the lines above the table
    (version, file count, sector size, archive size, total sectors, and
    the headings); one row of the table. *)
Inductive listing : Type :=
  | ListInvalidFormat (magic : Z)
  | ListSummary (version file_count sector_size archive_size
                   total_sectors : Z)
  | ListRow (idx length : Z) (full_path : str).

(** The loop that prints the table: the rows printed, and the exception
    that ended the loop, if one did. *)
Fixpoint list_rows (file_table : list entry) (idx : Z)
    (string_table_data : bytes) : list listing * option exn :=
  match file_table with
  | [] => ([], None)
  | entry :: file_table' =>
      match unpack_string_from_table string_table_data
              (entry_file_name_offset entry) with
      | Raise e => ([], Some e)
      | Return file_name =>
          match unpack_string_from_table string_table_data
                  (entry_dir_name_offset entry) with
          | Raise e => ([], Some e)
          | Return dir_name =>
              let full_path :=
                match dir_name with
                | [] => file_name
                | _ => dir_name ++ [backslash] ++ file_name
                end in
              let r := list_rows file_table' (idx + 1) string_table_data in
              (ListRow idx (entry_length entry) full_path :: r.1, r.2)
          end
      end
  end.

(** [list_cdfs]: what was printed, and the returned value or the
    exception raised. *)
Definition list_cdfs (input_file : bytes) : list listing * result bool :=
  let header_data := slice input_file 0 40 in
  match unpack_header header_data with
  | Raise e => ([], Raise e)
  | Return h =>
      if bool_decide (h_magic h ≠ CDFS_MAGIC) then
        ([ListInvalidFormat (h_magic h)], Return false)
      else
        let summary :=
          ListSummary (h_version h) (h_file_table_entries h)
            (h_sector_size h) (len input_file) (h_total_sectors h) in
        match read_file_table (Z.to_nat (h_file_table_entries h))
                input_file 40 with
        | Raise e => ([summary], Raise e)
        | Return file_table =>
            let pos := 40 + 16 * h_file_table_entries h in
            let string_table_data :=
              slice input_file pos (pos + h_string_table_length h) in
            let r := list_rows file_table 0 string_table_data in
            (summary :: r.1,
             match r.2 with Some e => Raise e | None => Return true end)
        end
  end.

(** ** The command line *)

(** The help texts: [print_help] prints the general one,
    [print_command_help] the one of a command. *)
Inductive help_text : Type :=
  | GeneralHelp
  | PackHelp
  | UnpackHelp
  | ListHelp
  | VerifyHelp.

(** [print_command_help]: the text it prints; for anything but the four
    commands it calls [print_help]. *)
Definition print_command_help (command : string) : help_text :=
  if decide (command = "pack"%string) then PackHelp
  else if decide (command = "unpack"%string) then UnpackHelp
  else if decide (command = "list"%string) then ListHelp
  else if decide (command = "verify"%string) then VerifyHelp
  else GeneralHelp.

(** What [main] does, in order: the texts it prints, the directory it
    creates, and the call it makes. *)
Inductive action : Type :=
  | PrintHelp (text : help_text)
  | PrintMissingDirectory (input_dir : string)
  | PrintMissingFile (input_file : string)
  | PrintUnknownOption (option : string)
  | PrintUnknownCommand (command : string)
  | PrintTimeTaken
  | MakeDirs (output_dir : string)
  | CallPack (input_dir output_file : string) (sector_size cache_size : Z)
      (debug_mode : bool)
  | CallUnpack (input_file output_dir : string) (debug_mode : bool)
  | CallList (input_file : string)
  | CallVerify (input_file : string).

(** How [main] ends: it returns [None] or [False], [int] raises
    [ValueError] on the text of an option value, or a call raises. *)
Inductive main_outcome : Type :=
  | ReturnNone
  | ReturnFalse
  | ValueError (text : string)
  | Raised (e : exn).

Section with_platform.

(** [str.lower()], [int()] on a string ([None] for [ValueError]),
    [os.path.isdir], [os.path.isfile] and [os.path.exists]. *)
Variable lower : string → string.
Variable int : string → option Z.
Variable isdir isfile exists_ : string → bool.

(** The exception an action raises, if it raises one: [os.makedirs] and
    the four functions of the archive can fail. *)
Variable raises : action → option exn.

(** An action that can raise, followed by the rest of the run. *)
Definition run (a : action) (rest : list action * main_outcome)
  : list action * main_outcome :=
  match raises a with
  | Some e => ([a], Raised e)
  | None => (a :: rest.1, rest.2)
  end.

(** The option loop of the [pack] command, on [sys.argv[i:]]: the final
    [sector_size], [cache_size] and [dbg], or how the loop left [main].
    A value follows the option when [i+1 < len(sys.argv)]. *)
Fixpoint pack_options (args : list string) (sector_size cache_size : Z)
    (dbg : bool) : Z * Z * bool + list action * main_outcome :=
  match args with
  | [] => inl (sector_size, cache_size, dbg)
  | arg :: args' =>
      match args' with
      | value :: args'' =>
          if decide (arg = "--sector-size"%string) then
            match int value with
            | Some n => pack_options args'' n cache_size dbg
            | None => inr ([], ValueError value)
            end
          else if decide (arg = "--cache-size"%string) then
            match int value with
            | Some n => pack_options args'' sector_size n dbg
            | None => inr ([], ValueError value)
            end
          else if decide (arg = "--debug"%string) then
            pack_options args' sector_size cache_size true
          else inr ([PrintUnknownOption arg], ReturnNone)
      | [] =>
          if decide (arg = "--debug"%string) then
            pack_options args' sector_size cache_size true
          else inr ([PrintUnknownOption arg], ReturnNone)
      end
  end.

(** The option loop of the [unpack] command. *)
Fixpoint unpack_options (args : list string) (dbg : bool)
  : bool + list action * main_outcome :=
  match args with
  | [] => inl dbg
  | arg :: args' =>
      if decide (arg = "--debug"%string) then unpack_options args' true
      else inr ([PrintUnknownOption arg], ReturnNone)
  end.

(** [main] on [sys.argv]. *)
Definition main (argv : list string) : list action * main_outcome :=
  match argv with
  | [] | [_] => ([PrintHelp GeneralHelp], ReturnNone)
  | _ :: arg1 :: args =>
      let command := lower arg1 in
      if bool_decide (command = "help"%string ∨ command = "--help"%string
                      ∨ command = "-h"%string) then
        match args with
        | topic :: _ => ([PrintHelp (print_command_help topic)], ReturnNone)
        | [] => ([PrintHelp GeneralHelp], ReturnNone)
        end
      else if decide (command = "pack"%string) then
        match args with
        | input_dir :: output_file :: options =>
            if negb (isdir input_dir) then
              ([PrintMissingDirectory input_dir], ReturnFalse)
            else
              match pack_options options 2048 (128 * 1024) false with
              | inr left_ => left_
              | inl (sector_size, cache_size, dbg) =>
                  run (CallPack input_dir output_file sector_size cache_size
                         dbg)
                    (if dbg then [PrintTimeTaken] else [], ReturnNone)
              end
        | _ => ([PrintHelp (print_command_help "pack")], ReturnNone)
        end
      else if decide (command = "unpack"%string) then
        match args with
        | input_file :: output_dir :: options =>
            if negb (isfile input_file) then
              ([PrintMissingFile input_file], ReturnNone)
            else
              let rest :=
                match unpack_options options false with
                | inr left_ => left_
                | inl dbg =>
                    run (CallUnpack input_file output_dir dbg)
                      (if dbg then [PrintTimeTaken] else [], ReturnNone)
                end in
              if negb (exists_ output_dir) then run (MakeDirs output_dir) rest
              else rest
        | _ => ([PrintHelp (print_command_help "unpack")], ReturnNone)
        end
      else if decide (command = "list"%string) then
        match args with
        | input_file :: _ =>
            if negb (isfile input_file) then
              ([PrintMissingFile input_file], ReturnNone)
            else run (CallList input_file) ([], ReturnNone)
        | [] => ([PrintHelp (print_command_help "list")], ReturnNone)
        end
      else if decide (command = "verify"%string) then
        match args with
        | input_file :: _ =>
            if negb (isfile input_file) then
              ([PrintMissingFile input_file], ReturnNone)
            else run (CallVerify input_file) ([], ReturnNone)
        | [] => ([PrintHelp (print_command_help "verify")], ReturnNone)
        end
      else ([PrintUnknownCommand command; PrintHelp GeneralHelp], ReturnNone)
  end.

End with_platform.

(** * Vocabulary of the specification

    The predicates and observations in which the claims are stated, and the
    examples on which they are run. *)

(** ** The layout of the string table *)

(** The table that holds the entries [ents], each followed by its NUL. *)
Definition flat (ents : list bytes) : bytes :=
  concat ((λ e, e ++ [0]) <$> ents).

(** The offset of the [i]-th entry. *)
Definition offset_of (ents : list bytes) (i : nat) : Z :=
  len (flat (take i ents)).

(** The entries of a table: [string_table.split(b'\0')] without the empty
    piece that follows the last NUL. *)
Fixpoint table_entries_aux (cur : bytes) (st : bytes) : list bytes :=
  match st with
  | [] => []
  | b :: st' =>
      if bool_decide (b = 0) then reverse cur :: table_entries_aux [] st'
      else table_entries_aux (b :: cur) st'
  end.

Definition table_entries (st : bytes) : list bytes :=
  table_entries_aux [] st.

(** An offset that begins an entry. *)
Definition entry_start (st : bytes) (i : Z) : Prop :=
  0 ≤ i < len st ∧ (i = 0 ∨ st !! Z.to_nat (i - 1) = Some 0).

(** ** The invariant of the string table and its cache

    [ents] lists the entries appended so far; the table also holds the
    pre-seeded empty entry in front of them. *)
Record table_inv (st : bytes) (cache : gmap str Z) (ents : list bytes)
  : Prop := {
  inv_table : st = flat ([] :: ents);
  inv_nul : Forall (λ e, 0 ∉ e) ents;
  inv_nodup : NoDup ([] :: ents);
  inv_cache : ∀ k off, cache !! k = Some off →
    ∃ e i, utf8_encode k = Some e ∧ ([] :: ents) !! i = Some e ∧
           off = offset_of ([] :: ents) i;
  inv_cached : ∀ e, e ∈ ents →
    ∃ k, utf8_encode k = Some e ∧ is_Some (cache !! k)
}.

(** ** Sequences of interns *)

(** What the offset returned for a string whose upper-cased form is [s_up]
    must satisfy in the table [st]. *)
Definition good_offset (st : bytes) (s_up : str) (off : Z) : Prop :=
  0 ≤ off < len st ∧ entry_start st off ∧
  ∃ enc, utf8_encode s_up = Some enc ∧
         slice st off (off + len enc) = enc ∧
         st !! Z.to_nat (off + len enc) = Some 0 ∧
         unpack_string_from_table st off = Return s_up.

(** ** The layout planner *)

(** [q] is [a / b] rounded up. *)
Definition is_ceil_div (a b q : Z) : Prop := (q - 1) * b < a ≤ q * b.

(** The sum of a list of integers. *)
Definition Zsum (l : list Z) : Z := foldr Z.add 0 l.

(** The number of sectors the planner gives to each entry. *)
Definition sectors_needed (sector_size : Z) (file_table : list pack_entry)
  : list Z :=
  (λ e, (size (pe_file e) + sector_size - 1) / sector_size) <$> file_table.

(** ** Writes into a file *)

(** A write that stays within a file of [n] bytes. *)
Definition in_range (n : Z) (op : write_op) : Prop :=
  0 ≤ op.1 ∧ op.1 + len op.2 ≤ n.

(** Two writes that touch no common byte. *)
Definition disjoint_ops (a b : write_op) : Prop :=
  a.1 + len a.2 ≤ b.1 ∨ b.1 + len b.2 ≤ a.1.

(** No two writes of the list touch a common byte. *)
Fixpoint pairwise_disjoint (ops : list write_op) : Prop :=
  match ops with
  | [] => True
  | a :: ops' => Forall (disjoint_ops a) ops' ∧ pairwise_disjoint ops'
  end.

(** ** The interning loop of [pack_cdfs] *)

(** The table with appended entries [ents] holds the encoding of [s_up] as
    the entry at offset [off]. *)
Definition entry_at (ents : list bytes) (s_up : str) (off : Z) : Prop :=
  ∃ enc i, utf8_encode s_up = Some enc ∧ ([] :: ents) !! i = Some enc ∧
           off = offset_of ([] :: ents) i.

(** ** The archive [pack_cdfs] writes *)

(** The entry [unpack_cdfs] reads for an entry of [pack_cdfs]. *)
Definition stored_entry (e : pack_entry) : entry :=
  {| entry_file_name_offset := pe_file_name_offset e;
     entry_dir_name_offset := pe_dir_name_offset e;
     entry_start_sector := pe_start_sector e;
     entry_length := size (pe_file e) |}.

(** Everything written before the payloads: header, file table, string
    table and padding. *)
Definition preamble (hdr entries string_table : bytes) (padding : Z)
  : bytes :=
  hdr ++ entries ++ string_table
  ++ (if bool_decide (padding > 0) then zeros padding else []).

Section vocabulary.

Variable upper : str → str.

(** What [intern_files] records for a file. *)
Definition interned (ents : list bytes) (cache : gmap str Z)
    (f : file_info) (e : pack_entry) : Prop :=
  pe_file e = f ∧ pe_start_sector e = 0 ∧
  entry_at ents (upper (dir_name f)) (pe_dir_name_offset e) ∧
  cache !! upper (dir_name f) = Some (pe_dir_name_offset e) ∧
  entry_at ents (upper (file_name f)) (pe_file_name_offset e) ∧
  cache !! upper (file_name f) = Some (pe_file_name_offset e).

(** The upper-cased names of a file hold no NUL, as the names of files
    never do. *)
Definition names_nul_free (f : file_info) : Prop :=
  (0 ∉ upper (dir_name f)) ∧ (0 ∉ upper (file_name f)).

(** The upper-cased names of a file can be encoded: they hold no lone
    surrogate. *)
Definition names_encodable (f : file_info) : Prop :=
  is_Some (utf8_encode (upper (dir_name f))) ∧
  is_Some (utf8_encode (upper (file_name f))).

(** Where [unpack_cdfs] puts a file that [pack_cdfs] stored. *)
Definition dest_of (f : file_info) : dest_path :=
  (replace_char backslash slash (upper (dir_name f)), upper (file_name f)).

(** The task [unpack_cdfs] makes for an entry of [pack_cdfs]. *)
Definition task_of (fso ss : Z) (e : pack_entry) : file_task :=
  {| ft_file_path := dest_of (pe_file e);
     ft_file_offset := fso + pe_start_sector e * ss;
     ft_file_length := size (pe_file e) |}.


End vocabulary.

#[global] Instance names_nul_free_dec upper f :
  Decision (names_nul_free upper f).
Proof. unfold names_nul_free. apply _. Defined.

#[global] Instance names_encodable_dec upper f :
  Decision (names_encodable upper f).
Proof. unfold names_encodable. apply _. Defined.

(** ** The verifier and the contents of an archive *)

(** What [verify_cdfs] checks for an entry. *)
Definition entry_checked (string_table_data : bytes)
    (first_sector_offset sector_size string_table_length file_size : Z)
    (e : entry) : Prop :=
  first_sector_offset + entry_start_sector e * sector_size + entry_length e
  ≤ file_size ∧
  entry_file_name_offset e < string_table_length ∧
  entry_dir_name_offset e < string_table_length ∧
  (∃ s, unpack_string_from_table string_table_data
          (entry_file_name_offset e) = Return s) ∧
  (∃ s, unpack_string_from_table string_table_data
          (entry_dir_name_offset e) = Return s).

(** The payload an archive holds for its [i]-th entry: the bytes its header
    and file table designate. *)
Definition archive_payload (input_file : bytes) (i : nat) : option bytes :=
  match unpack_header (slice input_file 0 40) with
  | Return h =>
      match read_file_table (Z.to_nat (h_file_table_entries h))
              input_file 40 with
      | Return file_table =>
          e ← file_table !! i;
          let file_offset :=
            h_first_sector_offset h
            + entry_start_sector e * h_sector_size h in
          Some (slice input_file file_offset (file_offset + entry_length e))
      | Raise _ => None
      end
  | Raise _ => None
  end.

(** ** The archive as its readers see it *)

(** The sectors [pack_cdfs] reserves for a file, as the archive holds them
    once the tasks are done: the data of the file followed by zeros up to
    the sector boundary, or zeros only when the file could not be read. *)
Definition file_sectors (read_error : string → option string)
    (sector_size : Z) (f : file_info) : bytes :=
  let n := (size f + sector_size - 1) / sector_size in
  match read_error (path f) with
  | Some _ => zeros (n * sector_size)
  | None => data f ++ zeros (n * sector_size - size f)
  end.

(** The path [list_cdfs] shows for a file that [pack_cdfs] stored. *)
Definition listed_path (upper : str → str) (f : file_info) : str :=
  match upper (dir_name f) with
  | [] => upper (file_name f)
  | d => d ++ [backslash] ++ upper (file_name f)
  end.

(** What an archive holds as the contents of a file: its data, or as many
    zeros when the file could not be read. *)
Definition stored_payload (read_error : string → option string)
    (f : file_info) : bytes :=
  match read_error (path f) with
  | Some _ => zeros (size f)
  | None => data f
  end.

(** Where [unpack_cdfs] puts an entry: the directory named by the entry,
    with slashes for backslashes, and its file name. *)
Definition entry_dest (string_table_data : bytes) (e : entry)
  : option dest_path :=
  match unpack_string_from_table string_table_data
          (entry_file_name_offset e),
        unpack_string_from_table string_table_data
          (entry_dir_name_offset e) with
  | Return file_name, Return dir_name =>
      Some (replace_char backslash slash dir_name, file_name)
  | _, _ => None
  end.

(** ** The command line *)

(** An option of the [pack] command. *)
Inductive pack_option : Type :=
  | SectorSize (n : Z)
  | CacheSize (n : Z)
  | DebugFlag.

(** The arguments that spell an option; [show] writes a number. *)
Definition option_args (show : Z → string) (o : pack_option) : list string :=
  match o with
  | SectorSize n => ["--sector-size"; show n]
  | CacheSize n => ["--cache-size"; show n]
  | DebugFlag => ["--debug"]
  end%string.

Definition sector_size_of (o : pack_option) : option Z :=
  match o with SectorSize n => Some n | _ => None end.

Definition cache_size_of (o : pack_option) : option Z :=
  match o with CacheSize n => Some n | _ => None end.

Definition is_debug (o : pack_option) : bool :=
  match o with DebugFlag => true | _ => false end.

(** [int] reads back the number of an option as [show] wrote it. *)
Definition option_readable (int : string → option Z) (show : Z → string)
    (o : pack_option) : Prop :=
  match o with
  | SectorSize n | CacheSize n => int (show n) = Some n
  | DebugFlag => True
  end.

(** An action that calls one of the four functions of the archive. *)
Definition is_call (a : action) : bool :=
  match a with
  | CallPack _ _ _ _ _ | CallUnpack _ _ _ | CallList _ | CallVerify _ => true
  | _ => false
  end.

(** An action that prints an error or a help text. *)
Definition is_refusal (a : action) : bool :=
  match a with
  | PrintHelp _ | PrintMissingDirectory _ | PrintMissingFile _
  | PrintUnknownOption _ | PrintUnknownCommand _ => true
  | _ => false
  end.

(** The checks [main] makes before a call: the directory to pack and
    the archive to read exist. *)
Definition call_checked (isdir isfile : string → bool) (a : action) : Prop :=
  match a with
  | CallPack input_dir _ _ _ _ => isdir input_dir = true
  | CallUnpack input_file _ _ | CallList input_file
  | CallVerify input_file => isfile input_file = true
  | _ => True
  end.

(** ** Examples *)

(** Two files of a directory and one file beside it, with the names that
    [os.path.split] gives on Windows. *)
Definition example_files : list file_info :=
  [ {| path := "in/sub/a.txt"; dir_name := py "sub"; file_name := py "a.txt";
       data := [1; 2; 3; 4; 5] |};
    {| path := "in/sub/b.txt"; dir_name := py "sub"; file_name := py "b.txt";
       data := [9; 8; 7; 6; 5; 4; 3; 2; 1] |};
    {| path := "in/c"; dir_name := py ""; file_name := py "c";
       data := [] |} ].

(** The same tree as the walk finds it on a POSIX host, and on Windows. *)
Definition posix_walk : list found_file :=
  [ {| found_path := "in/sub/a.txt"; rel_path := py "sub/a.txt";
       found_data := [1; 2; 3; 4; 5] |};
    {| found_path := "in/sub/b.txt"; rel_path := py "sub/b.txt";
       found_data := [9; 8; 7; 6; 5; 4; 3; 2; 1] |};
    {| found_path := "in/c"; rel_path := py "c"; found_data := [] |} ].

Definition windows_walk : list found_file :=
  [ {| found_path := "in\sub\a.txt"; rel_path := py "sub\a.txt";
       found_data := [1; 2; 3; 4; 5] |};
    {| found_path := "in\sub\b.txt"; rel_path := py "sub\b.txt";
       found_data := [9; 8; 7; 6; 5; 4; 3; 2; 1] |};
    {| found_path := "in\c"; rel_path := py "c"; found_data := [] |} ].

(** The file table and the string table of the tree on each host. *)
Definition posix_table : list pack_entry :=
  Eval vm_compute in
    match intern_files ascii_upper (split_rel_path Posix <$> posix_walk)
            [0] ∅ 1 with
    | Return (file_table, _, _) => file_table
    | Raise _ => []
    end.

Definition posix_string_table : bytes :=
  Eval vm_compute in
    match intern_files ascii_upper (split_rel_path Posix <$> posix_walk)
            [0] ∅ 1 with
    | Return (_, string_table, _) => string_table
    | Raise _ => []
    end.

Definition windows_table : list pack_entry :=
  Eval vm_compute in
    match intern_files ascii_upper (split_rel_path Windows <$> windows_walk)
            [0] ∅ 1 with
    | Return (file_table, _, _) => file_table
    | Raise _ => []
    end.

Definition windows_string_table : bytes :=
  Eval vm_compute in
    match intern_files ascii_upper (split_rel_path Windows <$> windows_walk)
            [0] ∅ 1 with
    | Return (_, string_table, _) => string_table
    | Raise _ => []
    end.


(** The archive of [example_files] with 8-byte sectors. *)
Definition example_archive : bytes :=
  Eval vm_compute in
    match pack_cdfs ascii_upper example_files 8 131072 false (λ _, None)
            id id with
    | Return (archive, _, _) => archive
    | Raise _ => []
    end.

(** A bare header: good magic, 7-byte sectors, [first_sector_offset] 3,
    1000 sectors, no entries, no strings. *)
Definition loose_archive : bytes :=
  Eval vm_compute in
    match struct_pack [CDFS_MAGIC; CDFS_VERSION; 7; 0; 3; 1000; 0; 0; 0; 1]
    with
    | Return header => header
    | Raise _ => []
    end.

(** A 40-byte file of [0xFF] bytes. *)
Definition ff_archive : bytes := replicate 40 255.


(** The file table of [example_files] after interning. *)
Definition example_table : list pack_entry :=
  Eval vm_compute in
    match intern_files ascii_upper example_files [0] ∅ 1 with
    | Return (file_table, _, _) => file_table
    | Raise _ => []
    end.

(** The string table of [example_files]. *)
Definition example_string_table : bytes :=
  Eval vm_compute in
    match intern_files ascii_upper example_files [0] ∅ 1 with
    | Return (_, string_table, _) => string_table
    | Raise _ => []
    end.

(** What [unpack_cdfs] makes of [example_archive]. *)
Definition example_unpacked : gmap dest_path bytes * list report * bool :=
  match unpack_cdfs example_archive (λ _, None) false id with
  | Return r => r
  | Raise _ => (∅, [], false)
  end.

(** A reader that fails on one file. *)
Definition example_read_error (p : string) : option string :=
  if decide (p = "in/sub/a.txt"%string)
  then Some "[Errno 5] Input/output error"%string else None.

(** A writer that fails on one destination. *)
Definition example_dest_error (p : dest_path) : option string :=
  if decide (p = (py "SUB", py "B.TXT"))
  then Some "[Errno 28] No space left on device"%string else None.

(** The archive of [example_files] when the read of the first fails. *)
Definition example_failed_archive : bytes :=
  Eval vm_compute in
    match pack_cdfs ascii_upper example_files 8 131072 false
            example_read_error id id with
    | Return (archive, _, _) => archive
    | Raise _ => []
    end.

(** The header and the file table of [example_archive]. *)
Definition example_header : header :=
  Eval vm_compute in
    match unpack_header (slice example_archive 0 40) with
    | Return h => h
    | Raise _ => Build_header 0 0 0 0 0 0 0 0 0 0
    end.

Definition example_entries : list entry :=
  Eval vm_compute in
    match read_file_table 3 example_archive 40 with
    | Return file_table => file_table
    | Raise _ => []
    end.

(** [example_archive] with version 2 and other values in the fields that
    [unpack_cdfs] does not read. *)
Definition example_archive_v2 : bytes :=
  Eval vm_compute in
    match struct_pack [CDFS_MAGIC; 2; 8; 0; 112; 77; 5; 3; 19; 99] with
    | Return hdr => hdr ++ drop 40 example_archive
    | Raise _ => []
    end.

Definition example_header_v2 : header :=
  Eval vm_compute in
    match unpack_header (slice example_archive_v2 0 40) with
    | Return h => h
    | Raise _ => Build_header 0 0 0 0 0 0 0 0 0 0
    end.

(** What [unpack_cdfs] makes of [example_archive] when one destination
    cannot be written. *)
Definition example_unpacked_failing
  : gmap dest_path bytes * list report * bool :=
  match unpack_cdfs example_archive example_dest_error false id with
  | Return r => r
  | Raise _ => (∅, [], false)
  end.

(** The ASCII part of [str.lower()]. *)
Definition ascii_lower_char (a : Ascii.ascii) : Ascii.ascii :=
  let n := Ascii.N_of_ascii a in
  if (65 <=? n)%N && (n <=? 90)%N then Ascii.ascii_of_N (n + 32) else a.

Fixpoint ascii_lower (s : string) : string :=
  match s with
  | EmptyString => EmptyString
  | String a s' => String (ascii_lower_char a) (ascii_lower s')
  end.

(** The part of [int()] that reads a string of decimal digits. *)
Fixpoint decimal_digits (s : string) (acc : Z) : option Z :=
  match s with
  | EmptyString => Some acc
  | String a s' =>
      let n := Z.of_N (Ascii.N_of_ascii a) in
      if bool_decide (48 ≤ n ≤ 57) then decimal_digits s' (10 * acc + (n - 48))
      else None
  end.

Definition decimal_int (s : string) : option Z :=
  match s with
  | EmptyString => None
  | _ => decimal_digits s 0
  end.

(** A way to write the numbers of the examples. *)
Definition example_show (n : Z) : string :=
  if bool_decide (n = 512) then "512" else "65536".

(** A file system with the directory [in] and the archive [a.dat]. *)
Definition example_isdir (p : string) : bool := bool_decide (p = "in"%string).
Definition example_isfile (p : string) : bool :=
  bool_decide (p = "a.dat"%string).
Definition example_exists (p : string) : bool :=
  bool_decide (p = "in"%string ∨ p = "a.dat"%string).

(** * Proofs *)

(** ** UTF-8 facts *)

Lemma encode_cp_cases c bs :
  encode_cp c = Some bs →
  0 ≤ c < 0x110000 ∧ ¬ (0xD800 ≤ c ≤ 0xDFFF) ∧
  ((c < 0x80 ∧ bs = [c]) ∨
   (0x80 ≤ c < 0x800 ∧ bs = [0xC0 + c / 64; 0x80 + c mod 64]) ∨
   (0x800 ≤ c < 0x10000 ∧
    bs = [0xE0 + c / 4096; 0x80 + (c / 64) mod 64; 0x80 + c mod 64]) ∨
   (0x10000 ≤ c ∧
    bs = [0xF0 + c / 262144; 0x80 + (c / 4096) mod 64;
          0x80 + (c / 64) mod 64; 0x80 + c mod 64])).
Proof.
  unfold encode_cp, is_surrogate.
  repeat case_bool_decide; intros [= <-]; repeat split; try lia;
    first [ left; split; [lia | done]
          | right; left; split; [lia | done]
          | right; right; left; split; [lia | done]
          | right; right; right; split; [lia | done] ].
Qed.

Lemma encode_cp_storable c :
  0 ≤ c < 0x110000 → ¬ (0xD800 ≤ c ≤ 0xDFFF) → is_Some (encode_cp c).
Proof.
  intros ??. unfold encode_cp, is_surrogate.
  repeat case_bool_decide; eauto; dlia.
Qed.

Lemma utf8_encode_storable s : storable s → is_Some (utf8_encode s).
Proof.
  induction 1 as [|c s [? ?] _ [bs' IH]]; simpl; [eauto|].
  destruct (encode_cp_storable c) as [bs ->]; [dlia | done |].
  rewrite IH. eauto.
Qed.

Lemma utf8_decode_encode_cp c bs rest :
  encode_cp c = Some bs →
  utf8_decode (bs ++ rest) = cons c <$> utf8_decode rest.
Proof.
  intros (Hc & Hs & Hcase)%encode_cp_cases.
  destruct Hcase as [[? ->] | [[? ->] | [[? ->] | [? ->]]]];
    cbn [app utf8_decode]; unfold is_cont, is_surrogate.
  - rewrite bool_decide_true by dlia. done.
  - rewrite bool_decide_false by dlia.
    rewrite bool_decide_true by dlia.
    rewrite bool_decide_true by dlia.
    replace ((0xC0 + c / 64 - 0xC0) * 64 + (0x80 + c mod 64 - 0x80))
      with c by dlia.
    done.
  - rewrite bool_decide_false by dlia.
    rewrite bool_decide_false by dlia.
    rewrite bool_decide_true by dlia.
    replace ((0xE0 + c / 4096 - 0xE0) * 4096 + (0x80 + (c / 64) mod 64 - 0x80) * 64
             + (0x80 + c mod 64 - 0x80)) with c by dlia.
    rewrite !bool_decide_true by dlia.
    rewrite bool_decide_false by dlia. done.
  - rewrite bool_decide_false by dlia.
    rewrite bool_decide_false by dlia.
    rewrite bool_decide_false by dlia.
    rewrite bool_decide_true by dlia.
    replace ((0xF0 + c / 262144 - 0xF0) * 262144
             + (0x80 + (c / 4096) mod 64 - 0x80) * 4096
             + (0x80 + (c / 64) mod 64 - 0x80) * 64
             + (0x80 + c mod 64 - 0x80)) with c by dlia.
    rewrite !bool_decide_true by dlia. done.
Qed.

Lemma utf8_decode_encode s bs :
  utf8_encode s = Some bs → utf8_decode bs = Some s.
Proof.
  revert bs. induction s as [|c s IH]; intros bs; simpl.
  - by intros [= <-].
  - destruct (encode_cp c) as [b1|] eqn:Hc; [|done].
    destruct (utf8_encode s) as [b2|] eqn:Hs; [|done].
    intros [= <-]. rewrite (utf8_decode_encode_cp _ _ _ Hc).
    by rewrite (IH _ eq_refl).
Qed.

Lemma utf8_encode_inj s1 s2 bs :
  utf8_encode s1 = Some bs → utf8_encode s2 = Some bs → s1 = s2.
Proof.
  intros H1%utf8_decode_encode H2%utf8_decode_encode. congruence.
Qed.

(** ** Sequences: lengths and slices *)

Lemma len_nil {A} : len (@nil A) = 0.
Proof. done. Qed.

Lemma len_cons {A} (x : A) l : len (x :: l) = 1 + len l.
Proof. unfold len. simpl. lia. Qed.

Lemma len_app {A} (l1 l2 : list A) : len (l1 ++ l2) = len l1 + len l2.
Proof. unfold len. rewrite length_app. lia. Qed.

Lemma len_nonneg {A} (l : list A) : 0 ≤ len l.
Proof. unfold len. lia. Qed.

Lemma len_zeros n : 0 ≤ n → len (zeros n) = n.
Proof. intros. unfold len, zeros. rewrite length_replicate. lia. Qed.

Lemma to_nat_len {A} (l : list A) : Z.to_nat (len l) = length l.
Proof. unfold len. lia. Qed.

Lemma slice_app_mid {A} (pre x post : list A) :
  slice (pre ++ x ++ post) (len pre) (len pre + len x) = x.
Proof.
  unfold slice. rewrite to_nat_len, drop_app_length.
  replace (Z.to_nat (len pre + len x - len pre)) with (length x)
    by (unfold len; lia).
  by rewrite take_app_length.
Qed.

Lemma slice_app_mid_at {A} (pre x post : list A) a :
  len pre = a → slice (pre ++ x ++ post) a (a + len x) = x.
Proof. intros <-. apply slice_app_mid. Qed.

Lemma slice_from_app {A} (pre post : list A) :
  slice_from (pre ++ post) (len pre) = post.
Proof. unfold slice_from. by rewrite to_nat_len, drop_app_length. Qed.

Lemma slice_app_l {A} (l l' : list A) a b :
  0 ≤ a → b ≤ len l → slice (l ++ l') a b = slice l a b.
Proof.
  intros ??. unfold slice.
  destruct (decide (a ≤ b)) as [?|?].
  - rewrite drop_app_le by (unfold len in *; lia).
    rewrite take_app_le; [done|]. rewrite length_drop. unfold len in *. lia.
  - by replace (Z.to_nat (b - a)) with 0%nat by lia.
Qed.

Lemma slice_length {A} (l : list A) a b :
  0 ≤ a → a ≤ b → b ≤ len l → len (slice l a b) = b - a.
Proof.
  intros ???. unfold slice, len in *.
  rewrite length_take, length_drop. lia.
Qed.

(** ** The layout of the string table *)

Lemma flat_nil : flat [] = [].
Proof. done. Qed.

Lemma flat_cons e ents : flat (e :: ents) = e ++ 0 :: flat ents.
Proof. unfold flat. rewrite fmap_cons. cbn [concat]. by rewrite <- app_assoc. Qed.

Lemma flat_app e1 e2 : flat (e1 ++ e2) = flat e1 ++ flat e2.
Proof. unfold flat. by rewrite fmap_app, concat_app. Qed.

Lemma flat_snoc ents e : flat (ents ++ [e]) = flat ents ++ e ++ [0].
Proof. rewrite flat_app, flat_cons, flat_nil. done. Qed.

Lemma length_flat_ge ents : (length ents ≤ length (flat ents))%nat.
Proof.
  induction ents as [|e ents IH]; [done|].
  rewrite flat_cons, length_app. simpl. lia.
Qed.

Lemma offset_of_app ents ents' i :
  (i ≤ length ents)%nat → offset_of (ents ++ ents') i = offset_of ents i.
Proof. intros. unfold offset_of. by rewrite take_app_le. Qed.

Lemma flat_split ents i e :
  ents !! i = Some e →
  flat ents = flat (take i ents) ++ e ++ 0 :: flat (drop (S i) ents).
Proof.
  intros H. rewrite <- (take_drop_middle _ _ _ H) at 1.
  by rewrite flat_app, flat_cons.
Qed.

Lemma table_entries_aux_flat cur e rest :
  0 ∉ e →
  table_entries_aux cur (e ++ 0 :: rest)
  = (reverse cur ++ e) :: table_entries_aux [] rest.
Proof.
  revert cur. induction e as [|b e IH]; intros cur Hnul;
    cbn [app table_entries_aux].
  - by rewrite bool_decide_true, app_nil_r.
  - rewrite bool_decide_false by (intros ->; apply Hnul; left).
    rewrite IH by (intros ?; apply Hnul; by right).
    by rewrite reverse_cons, <- app_assoc.
Qed.

Lemma table_entries_flat ents :
  Forall (λ e, 0 ∉ e) ents → table_entries (flat ents) = ents.
Proof.
  unfold table_entries. induction 1 as [|e ents He _ IH]; [done|].
  rewrite flat_cons, table_entries_aux_flat by done.
  by rewrite IH.
Qed.

Lemma scan_to_nul_app e rest k :
  0 ∉ e → scan_to_nul (e ++ 0 :: rest) k = k + len e.
Proof.
  revert k. induction e as [|b e IH]; intros k Hnul; cbn [app scan_to_nul].
  - rewrite bool_decide_false by naive_solver. rewrite len_nil. lia.
  - rewrite bool_decide_true by (intros ->; apply Hnul; left).
    rewrite IH by (intros ?; apply Hnul; by right).
    rewrite len_cons. lia.
Qed.

Lemma first_field_app e rest :
  0 ∉ e → first_field (e ++ 0 :: rest) = e.
Proof.
  induction e as [|b e IH]; intros Hnul; cbn [app first_field].
  - by rewrite bool_decide_true.
  - rewrite bool_decide_false by (intros ->; apply Hnul; left).
    by rewrite IH by (intros ?; apply Hnul; by right).
Qed.

(** Reading the entry stored at an entry offset gives the entry back. *)
Lemma unpack_string_at_entry ents i e s :
  ents !! i = Some e → 0 ∉ e → utf8_encode s = Some e →
  unpack_string_from_table (flat ents) (offset_of ents i) = Return s.
Proof.
  intros Hi Hnul Henc. unfold unpack_string_from_table.
  rewrite (flat_split _ _ _ Hi). unfold offset_of.
  rewrite slice_from_app, scan_to_nul_app by done.
  replace (e ++ 0 :: flat (drop (S i) ents))
    with (e ++ [0] ++ flat (drop (S i) ents)) by done.
  rewrite slice_app_mid.
  by rewrite (utf8_decode_encode _ _ Henc).
Qed.

Lemma encode_cp_len c bs : encode_cp c = Some bs → 1 ≤ len bs.
Proof.
  intros (_ & _ & Hcase)%encode_cp_cases.
  destruct Hcase as [[? ->] | [[? ->] | [[? ->] | [? ->]]]];
    unfold len; simpl; lia.
Qed.

Lemma encode_cp_nul c bs : encode_cp c = Some bs → c ≠ 0 → 0 ∉ bs.
Proof.
  intros (? & _ & Hcase)%encode_cp_cases Hc.
  destruct Hcase as [[? ->] | [[? ->] | [[? ->] | [? ->]]]];
    rewrite !not_elem_of_cons; repeat split; try dlia; apply not_elem_of_nil.
Qed.

Lemma utf8_encode_len s bs : utf8_encode s = Some bs → len s ≤ len bs.
Proof.
  revert bs. induction s as [|c s IH]; intros bs; simpl.
  - intros [= <-]. done.
  - destruct (encode_cp c) as [b1|] eqn:Hc; [|done].
    destruct (utf8_encode s) as [b2|] eqn:Hs; [|done].
    intros [= <-]. apply encode_cp_len in Hc. specialize (IH _ eq_refl).
    rewrite len_cons, len_app. lia.
Qed.

Lemma utf8_encode_nul s bs : utf8_encode s = Some bs → 0 ∉ s → 0 ∉ bs.
Proof.
  revert bs. induction s as [|c s IH]; intros bs; simpl.
  - intros [= <-]. done.
  - destruct (encode_cp c) as [b1|] eqn:Hc; [|done].
    destruct (utf8_encode s) as [b2|] eqn:Hs; [|done].
    intros [= <-] [Hc0 Hs0]%not_elem_of_cons.
    rewrite elem_of_app. intros [?|?].
    + by eapply encode_cp_nul.
    + by eapply IH.
Qed.

Lemma utf8_encode_nil_inv s : utf8_encode s = Some [] → s = [].
Proof.
  intros H. apply utf8_encode_len in H. destruct s; [done|].
  rewrite len_cons, len_nil in H. pose proof (len_nonneg s). lia.
Qed.

(** The comparison of the scan, made at the start of an entry, succeeds
    only for that entry. *)
Lemma entry_match (pre e rest enc : bytes) n :
  0 ≤ n → n ≤ len enc → 0 ∉ e → 0 ∉ enc →
  slice (pre ++ e ++ 0 :: rest) (len pre) (len pre + n) = enc →
  (pre ++ e ++ 0 :: rest) !! Z.to_nat (len pre + n) = Some 0 →
  e = enc.
Proof.
  intros Hn Hlen He Henc Hs Hz. unfold slice in Hs.
  rewrite to_nat_len, drop_app_length in Hs.
  replace (Z.to_nat (len pre + n - len pre)) with (Z.to_nat n) in Hs by lia.
  replace (Z.to_nat (len pre + n)) with (length pre + Z.to_nat n)%nat in Hz
    by (unfold len; lia).
  rewrite lookup_app_r, Nat.add_comm, Nat.add_sub in Hz by lia.
  assert (length enc = Z.to_nat n) as Hm.
  { apply (f_equal length) in Hs. rewrite length_take in Hs.
    unfold len in Hlen. lia. }
  destruct (decide (Z.to_nat n < length e)%nat) as [Hlt|Hge].
  - rewrite lookup_app_l in Hz by done.
    exfalso. apply He. by eapply list_elem_of_lookup_2.
  - destruct (decide (Z.to_nat n = length e)) as [Heq|Hne].
    + rewrite Heq, take_app_length in Hs. done.
    + exfalso. apply Henc. rewrite <- Hs.
      apply (list_elem_of_lookup_2 _ (length e)).
      rewrite lookup_take_lt by lia.
      by rewrite lookup_app_r, Nat.sub_diag by lia.
Qed.

Lemma scan_table_spec s enc fuel :
  len s ≤ len enc → 0 ∉ enc →
  ∀ ents2 ents1,
    Forall (λ e, 0 ∉ e) ents2 →
    let r := scan_table fuel (flat (ents1 ++ ents2)) s enc
               (len (flat ents1)) in
    Forall (λ i, ∃ k, (k < length ents2)%nat ∧
                      i = offset_of (ents1 ++ ents2) (length ents1 + k)) r.1 ∧
    ∀ off, r.2 = Some off →
           ∃ k, ents2 !! k = Some enc ∧
                off = offset_of (ents1 ++ ents2) (length ents1 + k).
Proof.
  intros Hlen Henc. pose proof (len_nonneg s) as Hs0.
  induction fuel as [|fuel IH]; intros ents2 ents1 Hnul; cbn zeta.
  { simpl. split; [constructor | done]. }
  cbn [scan_table]. case_bool_decide as Hcond; [|split; [constructor | done]].
  destruct ents2 as [|e ents2].
  { rewrite app_nil_r in Hcond. lia. }
  apply Forall_cons in Hnul as [He Hnul].
  assert (offset_of (ents1 ++ e :: ents2) (length ents1 + 0) = len (flat ents1))
    as Hoff0.
  { unfold offset_of. by rewrite Nat.add_0_r, take_app_length. }
  destruct (bool_decide (slice _ _ _ = enc) && _) eqn:Htest.
  - apply andb_prop in Htest as [H1%bool_decide_eq_true H2%bool_decide_eq_true].
    rewrite flat_app, flat_cons in H1, H2.
    apply entry_match in H1; [|done..]. subst e. cbn [fst snd].
    split.
    + apply Forall_singleton. exists 0%nat. simpl. split; [lia | done].
    + intros off [= <-]. exists 0%nat. done.
  - cbn [fst snd].
    replace (len (flat ents1)
             + len (first_field (slice_from (flat (ents1 ++ e :: ents2))
                                   (len (flat ents1)))) + 1)
      with (len (flat (ents1 ++ [e]))).
    2:{ rewrite (flat_app ents1 (e :: ents2)), slice_from_app, flat_cons.
        rewrite first_field_app by done.
        rewrite flat_snoc, !len_app, len_cons, len_nil. lia. }
    specialize (IH ents2 (ents1 ++ [e]) Hnul). cbn zeta in IH.
    rewrite <- (app_assoc ents1 [e] ents2) in IH. cbn [app] in IH.
    destruct IH as [IH1 IH2]. split.
    + apply Forall_cons. split.
      * exists 0%nat. simpl. split; [lia | done].
      * eapply Forall_impl; [exact IH1|]. intros i (k & Hk & ->).
        exists (S k). simpl. split; [lia|].
        f_equal. rewrite length_app. simpl. lia.
    + intros off Hoff. destruct (IH2 off Hoff) as (k & Hk & ->).
      exists (S k). split; [done|].
      f_equal. rewrite length_app. simpl. lia.
Qed.

Lemma scan_table_S fuel st s enc index :
  scan_table (S fuel) st s enc index =
  if bool_decide (index < len st - len s) then
    if bool_decide (slice st index (index + len s) = enc)
       && bool_decide (st !! Z.to_nat (index + len s) = Some 0)
    then ([index], Some index)
    else
      let r := scan_table fuel st s enc
                 (index + len (first_field (slice_from st index)) + 1) in
      (index :: r.1, r.2)
  else ([], None).
Proof. done. Qed.

(** With the fuel [add_string_to_table] gives it, the loop is never cut
    short: more fuel changes nothing. *)
Lemma scan_table_fuel st s enc fuel index :
  0 ≤ index → (length st ≤ fuel + Z.to_nat index)%nat →
  scan_table (S fuel) st s enc index = scan_table fuel st s enc index.
Proof.
  pose proof (len_nonneg s) as Hs0.
  revert index. induction fuel as [|fuel IH]; intros index Hi Hfuel.
  - cbn [scan_table]. rewrite bool_decide_false; [done|]. unfold len in *. lia.
  - rewrite (scan_table_S (S fuel) st s enc index).
    rewrite (scan_table_S fuel st s enc index).
    case_bool_decide; [|done].
    destruct (_ && _); [done|].
    pose proof (len_nonneg (first_field (slice_from st index))).
    cbn zeta. rewrite IH by lia. done.
Qed.

Lemma table_inv_init : table_inv [0] ∅ [].
Proof.
  split.
  - done.
  - constructor.
  - apply NoDup_singleton.
  - intros k off. by rewrite lookup_empty.
  - intros e. by rewrite elem_of_nil.
Qed.

Lemma entry_offset_facts ents i e :
  ents !! i = Some e → 0 ∉ e →
  0 ≤ offset_of ents i < len (flat ents) ∧
  entry_start (flat ents) (offset_of ents i) ∧
  slice (flat ents) (offset_of ents i) (offset_of ents i + len e) = e ∧
  flat ents !! Z.to_nat (offset_of ents i + len e) = Some 0.
Proof.
  intros Hi Hnul. pose proof (flat_split _ _ _ Hi) as Hsplit.
  pose proof (len_nonneg e) as He0.
  assert (0 ≤ offset_of ents i < len (flat ents)) as Hrange.
  { unfold offset_of. rewrite Hsplit.
    rewrite !len_app, len_cons.
    pose proof (len_nonneg (flat (take i ents))).
    pose proof (len_nonneg (flat (drop (S i) ents))). lia. }
  split; [done|]. split; [|split].
  - split; [done|]. destruct i as [|j]; [by left|right].
    destruct (lookup_lt_is_Some_2 ents j) as [e' Hj].
    { apply lookup_lt_Some in Hi. lia. }
    unfold offset_of. rewrite (take_S_r _ _ _ Hj), flat_snoc.
    rewrite Hsplit, (take_S_r _ _ _ Hj), flat_snoc.
    rewrite !len_app, len_cons, len_nil.
    rewrite <- !app_assoc.
    rewrite lookup_app_r by (unfold len; lia).
    rewrite lookup_app_r by (unfold len; lia).
    replace (Z.to_nat (len (flat (take j ents)) + (len e' + (1 + 0)) - 1)
             - length (flat (take j ents)) - length e')%nat with 0%nat
      by (unfold len; lia).
    done.
  - unfold offset_of. rewrite Hsplit.
    replace (e ++ 0 :: flat (drop (S i) ents))
      with (e ++ [0] ++ flat (drop (S i) ents)) by done.
    apply slice_app_mid.
  - unfold offset_of. rewrite Hsplit.
    rewrite lookup_app_r by (unfold len; lia).
    rewrite lookup_app_r by (unfold len; lia).
    replace (Z.to_nat (len (flat (take i ents)) + len e)
             - length (flat (take i ents)) - length e)%nat with 0%nat
      by (unfold len; lia).
    done.
Qed.

Section string_table_facts.

Variable upper : str → str.

(** What one call of [add_string_to_table] establishes. *)
Lemma add_string_to_table_spec st cache ents s :
  table_inv st cache ents → 0 ∉ upper s →
  match add_string_to_table upper st cache s with
  | Return (st', cache', off) =>
      ∃ enc new i,
        utf8_encode (upper s) = Some enc ∧
        table_inv st' cache' (ents ++ new) ∧
        ([] :: ents ++ new) !! i = Some enc ∧
        off = offset_of ([] :: ents ++ new) i ∧
        cache' !! upper s = Some off ∧
        (∀ k, k ≠ upper s → cache' !! k = cache !! k) ∧
        (new = [] ∨ (new = [enc] ∧ enc ∉ [] :: ents))
  | Raise e => e = UnicodeEncodeError ∧ utf8_encode (upper s) = None
  end.
Proof.
  intros Hinv Hnul. unfold add_string_to_table.
  destruct (cache !! upper s) as [off|] eqn:Hc.
  { destruct (inv_cache _ _ _ Hinv _ _ Hc) as (e & i & He & Hi & ->).
    exists e, [], i. rewrite app_nil_r. auto 10. }
  destruct (utf8_encode (upper s)) as [enc|] eqn:Henc; [|done].
  pose proof (utf8_encode_len _ _ Henc) as Hlen.
  pose proof (utf8_encode_nul _ _ Henc Hnul) as Hencnul.
  assert (Forall (λ e, 0 ∉ e) ([] :: ents)) as Hnuls.
  { apply Forall_cons. split; [apply not_elem_of_nil | apply Hinv]. }
  pose proof (scan_table_spec (upper s) enc (length st) Hlen Hencnul
                ([] :: ents) [] Hnuls) as [_ Hscan].
  cbn [app] in Hscan. rewrite flat_nil, len_nil in Hscan.
  rewrite <- (inv_table _ _ _ Hinv) in Hscan.
  destruct (scan_table (length st) st (upper s) enc 0).2 as [index|] eqn:Hr.
  - destruct (Hscan index eq_refl) as (k & Hk & ->). cbn [length Nat.add].
    exists enc, [], k. rewrite app_nil_r.
    split; [done|]. split; [|split; [done|split; [done|split]]].
    + destruct Hinv as [H1 H2 H3 H4 H5]. split; [done..| |].
      * intros k' off'. destruct (decide (k' = upper s)) as [->|Hne].
        -- rewrite lookup_insert_eq. intros [= <-]. eauto.
        -- rewrite lookup_insert_ne by done. apply H4.
      * intros e He. destruct (H5 e He) as (k' & ? & ?). exists k'.
        split; [done|]. rewrite lookup_insert_is_Some.
        destruct (decide (upper s = k')); auto.
    + by rewrite lookup_insert_eq.
    + split; [|by left]. intros k' ?. by rewrite lookup_insert_ne.
  - assert (enc ∉ [] :: ents) as Hfresh.
    { rewrite not_elem_of_cons. split.
      - intros ->. apply utf8_encode_nil_inv in Henc.
        rewrite (inv_table _ _ _ Hinv), flat_cons in Hr.
        rewrite Henc in Hr. cbn in Hr. done.
      - intros Hin. destruct (inv_cached _ _ _ Hinv _ Hin) as (k' & Hk' & Hs).
        rewrite (utf8_encode_inj _ _ _ Hk' Henc), Hc in Hs.
        by destruct Hs. }
    exists enc, [enc], (S (length ents)).
    assert (offset_of ([] :: ents ++ [enc]) (S (length ents)) = len st) as Hoff.
    { unfold offset_of. rewrite (inv_table _ _ _ Hinv).
      cbn [take]. by rewrite take_app_length. }
    split; [done|]. split; [|split; [|split; [done|split]]].
    + destruct Hinv as [H1 H2 H3 H4 H5]. split.
      * rewrite H1, app_comm_cons, flat_snoc. done.
      * apply Forall_app. split; [done|]. by apply Forall_singleton.
      * rewrite app_comm_cons. apply NoDup_app. split; [done|].
        split; [|apply NoDup_singleton].
        intros e He ->%list_elem_of_singleton. done.
      * intros k' off'. destruct (decide (k' = upper s)) as [->|Hne].
        -- rewrite lookup_insert_eq. intros [= <-].
           exists enc, (S (length ents)). split; [done|]. split; [|done].
           cbn [lookup list_lookup]. apply list_lookup_middle. done.
        -- rewrite lookup_insert_ne by done. intros Hk'.
           destruct (H4 _ _ Hk') as (e & i & He & Hi & ->).
           exists e, i. split; [done|].
           pose proof (lookup_lt_Some _ _ _ Hi) as Hlt. split.
           ++ rewrite app_comm_cons. by apply lookup_app_l_Some.
           ++ rewrite app_comm_cons. symmetry. apply offset_of_app. lia.
      * intros e [He | ->%list_elem_of_singleton]%elem_of_app.
        -- destruct (H5 e He) as (k' & ? & ?). exists k'.
           split; [done|]. rewrite lookup_insert_is_Some.
           destruct (decide (upper s = k')); auto.
        -- exists (upper s). split; [done|]. by rewrite lookup_insert_eq.
    + cbn [lookup list_lookup]. apply list_lookup_middle. done.
    + by rewrite lookup_insert_eq.
    + split; [|by right]. intros k' ?. by rewrite lookup_insert_ne.
Qed.

End string_table_facts.

(** ** The lookup loop *)

Lemma scan_to_nul_spec rest k :
  k ≤ scan_to_nul rest k ≤ k + len rest ∧
  (∀ j, 0 ≤ j < scan_to_nul rest k - k → rest !! Z.to_nat j ≠ Some 0) ∧
  (scan_to_nul rest k < k + len rest →
   rest !! Z.to_nat (scan_to_nul rest k - k) = Some 0).
Proof.
  revert k. induction rest as [|b rest IH]; intros k; cbn [scan_to_nul].
  - rewrite len_nil. split; [lia|]. split; [|lia]. intros j ?. done.
  - rewrite len_cons. pose proof (len_nonneg rest). case_bool_decide as Hb.
    + destruct (IH (k + 1)) as (H1 & H2 & H3). split; [lia|]. split.
      * intros j Hj. destruct (decide (j = 0)) as [->|Hj0].
        -- simpl. congruence.
        -- replace (Z.to_nat j) with (S (Z.to_nat (j - 1))) by lia.
           cbn [lookup list_lookup]. apply H2. lia.
      * intros Hlt.
        replace (Z.to_nat (scan_to_nul rest (k + 1) - k))
          with (S (Z.to_nat (scan_to_nul rest (k + 1) - (k + 1)))) by lia.
        cbn [lookup list_lookup]. apply H3. lia.
    + split; [lia|]. split; [lia|]. intros _.
      rewrite Z.sub_diag. simpl. f_equal.
      destruct (decide (b = 0)); [done|]. by destruct Hb.
Qed.

(** ** Sequences of interns *)

Lemma entry_good_offset ents i enc s :
  Forall (λ e, 0 ∉ e) ents →
  ents !! i = Some enc → utf8_encode s = Some enc →
  good_offset (flat ents) s (offset_of ents i).
Proof.
  intros Hnul Hi Henc.
  assert (0 ∉ enc) as Hn.
  { rewrite Forall_forall in Hnul. apply Hnul.
    by eapply list_elem_of_lookup_2. }
  destruct (entry_offset_facts _ _ _ Hi Hn) as (H1 & H2 & H3 & H4).
  split; [done|]. split; [done|]. exists enc.
  split; [done|]. split; [done|]. split; [done|].
  by eapply unpack_string_at_entry.
Qed.

Lemma table_inv_nuls st cache ents :
  table_inv st cache ents → Forall (λ e, 0 ∉ e) ([] :: ents).
Proof.
  intros Hinv. apply Forall_cons. split; [apply not_elem_of_nil|].
  apply Hinv.
Qed.

Section intern_facts.

Variable upper : str → str.

Lemma intern_all_spec values :
  ∀ st cache ents,
    table_inv st cache ents → Forall (λ s, 0 ∉ upper s) values →
    match intern_all upper values st cache with
    | Return (st', cache', offs) =>
        ∃ new, table_inv st' cache' (ents ++ new) ∧
               Forall2 (λ s off, good_offset st' (upper s) off) values offs
    | Raise e =>
        e = UnicodeEncodeError ∧
        Exists (λ s, utf8_encode (upper s) = None) values
    end.
Proof.
  induction values as [|v values IH]; intros st cache ents Hinv Hnul.
  { simpl. exists []. rewrite app_nil_r. split; [done | constructor]. }
  apply Forall_cons in Hnul as [Hv Hnul]. cbn [intern_all].
  pose proof (add_string_to_table_spec upper st cache ents v Hinv Hv) as Hadd.
  destruct (add_string_to_table upper st cache v) as [[[st1 c1] off]|e];
    cbn [bind].
  2:{ destruct Hadd as [-> ?]. split; [done|]. by left. }
  destruct Hadd as (enc & new & i & Henc & Hinv1 & Hi & -> & _).
  specialize (IH st1 c1 (ents ++ new) Hinv1 Hnul).
  destruct (intern_all upper values st1 c1) as [[[st2 c2] offs]|e];
    cbn [bind].
  2:{ destruct IH as [-> ?]. split; [done|]. by right. }
  destruct IH as (new2 & Hinv2 & Hoffs). exists (new ++ new2).
  rewrite app_assoc. split; [done|]. constructor; [|done].
  rewrite (inv_table _ _ _ Hinv2).
  replace (offset_of ([] :: ents ++ new) i)
    with (offset_of ([] :: (ents ++ new) ++ new2) i).
  2:{ rewrite !app_comm_cons. apply offset_of_app.
      apply lookup_lt_Some in Hi. simpl in *. lia. }
  apply (entry_good_offset _ _ enc); [by eapply table_inv_nuls | | done].
  rewrite !app_comm_cons. apply lookup_app_l_Some.
  by rewrite <- !app_comm_cons.
Qed.

Lemma intern_all_total values :
  ∀ st cache ents,
    table_inv st cache ents → Forall (λ s, 0 ∉ upper s) values →
    Forall (λ s, is_Some (utf8_encode (upper s))) values →
    ∃ r, intern_all upper values st cache = Return r.
Proof.
  intros st cache ents Hinv Hnul Hall.
  pose proof (intern_all_spec values st cache ents Hinv Hnul) as H.
  destruct (intern_all upper values st cache) as [r|e]; [eauto|].
  destruct H as [_ Hex]. exfalso.
  rewrite Forall_forall in Hall. apply Exists_exists in Hex as (s & Hs & Hn).
  specialize (Hall s Hs). rewrite Hn in Hall. by destruct Hall.
Qed.

Lemma tested_offsets_entry_start st cache ents s :
  table_inv st cache ents → 0 ∉ upper s →
  Forall (entry_start st) (tested_offsets upper st cache s).
Proof.
  intros Hinv Hnul. unfold tested_offsets.
  destruct (cache !! upper s); [constructor|].
  destruct (utf8_encode (upper s)) as [enc|] eqn:Henc; [|constructor].
  pose proof (scan_table_spec (upper s) enc (length st)
                (utf8_encode_len _ _ Henc) (utf8_encode_nul _ _ Henc Hnul)
                ([] :: ents) [] (table_inv_nuls _ _ _ Hinv)) as [Htr _].
  cbn [app] in Htr. rewrite flat_nil, len_nil in Htr.
  rewrite <- (inv_table _ _ _ Hinv) in Htr.
  eapply Forall_impl; [exact Htr|]. intros i (k & Hk & ->).
  cbn [length Nat.add]. rewrite (inv_table _ _ _ Hinv).
  destruct (lookup_lt_is_Some_2 ([] :: ents) k Hk) as [e He].
  eapply entry_offset_facts; [exact He|].
  pose proof (table_inv_nuls _ _ _ Hinv) as Hn. rewrite Forall_forall in Hn.
  apply Hn. by eapply list_elem_of_lookup_2.
Qed.

End intern_facts.

(** ** Lookup in the string table *)

(** C5 (as amended).  For every string table and every non-negative offset,
    [unpack_string_from_table] scans forward from the offset to the next
    NUL byte, or to the end of the table when there is none, and returns the
    decoding of the bytes in between; it raises a decoding error exactly when
    those bytes are not valid UTF-8.  An offset at or beyond the end of the
    table is not an error: the result is the empty string. *)
Theorem unpack_string_from_table_scan (string_table : bytes) (offset : Z) :
  0 ≤ offset →
  ∃ end_ : Z,
    offset ≤ end_ ∧ (end_ ≤ len string_table ∨ end_ = offset) ∧
    (∀ i, offset ≤ i < end_ → string_table !! Z.to_nat i ≠ Some 0) ∧
    (end_ < len string_table → string_table !! Z.to_nat end_ = Some 0) ∧
    unpack_string_from_table string_table offset
    = match utf8_decode (slice string_table offset end_) with
      | Some s => Return s
      | None => Raise UnicodeDecodeError
      end ∧
    (len string_table ≤ offset →
     unpack_string_from_table string_table offset = Return []).
Proof.
  intros Hoff.
  destruct (scan_to_nul_spec (slice_from string_table offset) offset)
    as (H1 & H2 & H3).
  assert (len (slice_from string_table offset)
          = Z.max 0 (len string_table - offset)) as Hlen.
  { unfold slice_from, len. rewrite length_drop. lia. }
  assert (∀ j, 0 ≤ j →
            slice_from string_table offset !! Z.to_nat j
            = string_table !! Z.to_nat (offset + j)) as Hlook.
  { intros j Hj. unfold slice_from. rewrite lookup_drop. f_equal. lia. }
  exists (scan_to_nul (slice_from string_table offset) offset).
  split; [lia|]. split; [lia|]. split; [|split; [|split]].
  - intros i Hi. replace i with (offset + (i - offset)) by lia.
    rewrite <- Hlook by lia. apply H2. lia.
  - intros Hlt.
    replace (scan_to_nul (slice_from string_table offset) offset)
      with (offset + (scan_to_nul (slice_from string_table offset) offset
                      - offset)) at 1 by lia.
    rewrite <- Hlook by lia. apply H3. lia.
  - done.
  - intros Hge. unfold unpack_string_from_table.
    replace (slice_from string_table offset) with (@nil Z).
    2:{ unfold slice_from. rewrite drop_ge; [done|]. unfold len in *. lia. }
    cbn [scan_to_nul]. unfold slice. rewrite Z.sub_diag. done.
Qed.

Lemma unpack_string_from_table_scan_witness :
  0 ≤ 3 ∧
  ∃ end_ : Z,
    3 ≤ end_ ∧ (end_ ≤ len [0; 65; 0; 66; 67; 0] ∨ end_ = 3) ∧
    (∀ i, 3 ≤ i < end_ → [0; 65; 0; 66; 67; 0] !! Z.to_nat i ≠ Some 0) ∧
    (end_ < len [0; 65; 0; 66; 67; 0] →
     [0; 65; 0; 66; 67; 0] !! Z.to_nat end_ = Some 0) ∧
    unpack_string_from_table [0; 65; 0; 66; 67; 0] 3
    = match utf8_decode (slice [0; 65; 0; 66; 67; 0] 3 end_) with
      | Some s => Return s
      | None => Raise UnicodeDecodeError
      end ∧
    (len [0; 65; 0; 66; 67; 0] ≤ 3 →
     unpack_string_from_table [0; 65; 0; 66; 67; 0] 3 = Return []).
Proof.
  split; [lia|].
  apply (unpack_string_from_table_scan [0; 65; 0; 66; 67; 0] 3). lia.
Defined.

(** C5 as stated fails: an offset beyond the end of the table raises
    nothing, the lookup returns the empty string. *)
Lemma unpack_string_out_of_bounds :
  len [0; 65; 0] ≤ 30 ∧
  unpack_string_from_table [0; 65; 0] 30 = Return [].
Proof. split; [by vm_compute | reflexivity]. Qed.

(** ** Interning *)

Section intern_claims.

Variable upper : str → str.

(** C10.  Starting from the pre-seeded one-byte table and an empty cache,
    for any sequence of strings whose upper-cased forms hold no NUL: the run
    returns whenever every upper-cased string can be encoded; every offset
    it returns lies within the final table, begins an entry, is followed by
    exactly the encoded upper-cased string and a NUL, and is read back by
    [unpack_string_from_table] as the upper-cased string; and at every call
    the dedup scan tests only offsets that begin an entry of the table it
    scans. *)
Theorem intern_offsets_valid (values : list str) :
  Forall (λ s, 0 ∉ upper s) values →
  (Forall (λ s, is_Some (utf8_encode (upper s))) values →
   ∃ r, intern_all upper values [0] ∅ = Return r) ∧
  (∀ st cache offs,
     intern_all upper values [0] ∅ = Return (st, cache, offs) →
     Forall2 (λ s off, good_offset st (upper s) off) values offs) ∧
  (∀ before s after st cache offs,
     values = before ++ s :: after →
     intern_all upper before [0] ∅ = Return (st, cache, offs) →
     Forall (entry_start st) (tested_offsets upper st cache s)).
Proof.
  intros Hnul. split; [|split].
  - intros Henc. by eapply intern_all_total; [apply table_inv_init|..].
  - intros st cache offs Hrun.
    pose proof (intern_all_spec upper values _ _ _ table_inv_init Hnul) as H.
    rewrite Hrun in H. by destruct H as (_ & _ & ?).
  - intros before s after st cache offs -> Hrun.
    apply Forall_app in Hnul as [Hb Hs]. apply Forall_cons in Hs as [Hs _].
    pose proof (intern_all_spec upper before _ _ _ table_inv_init Hb) as H.
    rewrite Hrun in H. destruct H as (new & Hinv & _).
    by eapply tested_offsets_entry_start.
Qed.

End intern_claims.

Lemma intern_offsets_valid_witness :
  let values := [py "sub"; py "a.txt"; py "Sub"; py ""] in
  Forall (λ s, 0 ∉ ascii_upper s) values ∧
  (Forall (λ s, is_Some (utf8_encode (ascii_upper s))) values →
   ∃ r, intern_all ascii_upper values [0] ∅ = Return r) ∧
  (∀ st cache offs,
     intern_all ascii_upper values [0] ∅ = Return (st, cache, offs) →
     Forall2 (λ s off, good_offset st (ascii_upper s) off) values offs) ∧
  (∀ before s after st cache offs,
     values = before ++ s :: after →
     intern_all ascii_upper before [0] ∅ = Return (st, cache, offs) →
     Forall (entry_start st) (tested_offsets ascii_upper st cache s)).
Proof.
  intros values.
  assert (Forall (λ s, 0 ∉ ascii_upper s) values) as H.
  { subst values. apply (bool_decide_unpack _). vm_compute. exact I. }
  split; [exact H|].
  exact (intern_offsets_valid ascii_upper values H).
Defined.

(** ** The layout planner *)

Lemma ceil_div_formula a b : 0 < b → is_ceil_div a b ((a + b - 1) / b).
Proof.
  intros Hb. unfold is_ceil_div.
  pose proof (Z.div_mod (a + b - 1) b ltac:(lia)) as H.
  pose proof (Z.mod_pos_bound (a + b - 1) b Hb) as Hr.
  remember ((a + b - 1) / b) as q. remember ((a + b - 1) mod b) as r.
  nia.
Qed.

Lemma is_ceil_div_unique a b q1 q2 :
  0 < b → is_ceil_div a b q1 → is_ceil_div a b q2 → q1 = q2.
Proof.
  unfold is_ceil_div. intros Hb [H1 H2] [H3 H4].
  destruct (Z.lt_trichotomy q1 q2) as [Hlt | [Heq | Hgt]]; [|done|].
  - assert (q1 * b ≤ (q2 - 1) * b) by (apply Z.mul_le_mono_nonneg_r; lia).
    lia.
  - assert (q2 * b ≤ (q1 - 1) * b) by (apply Z.mul_le_mono_nonneg_r; lia).
    lia.
Qed.

Lemma is_ceil_div_nonneg a b q : 0 < b → 0 ≤ a → is_ceil_div a b q → 0 ≤ q.
Proof.
  unfold is_ceil_div. intros Hb Ha [H1 H2].
  destruct (decide (0 ≤ q)) as [?|Hq]; [done|].
  assert (q * b ≤ (-1) * b) by (apply Z.mul_le_mono_nonneg_r; lia).
  assert ((q - 1) * b ≤ (-1) * b) by (apply Z.mul_le_mono_nonneg_r; lia).
  lia.
Qed.

Lemma Zsum_cons x l : Zsum (x :: l) = x + Zsum l.
Proof. done. Qed.

Lemma Zsum_app l1 l2 : Zsum (l1 ++ l2) = Zsum l1 + Zsum l2.
Proof.
  induction l1 as [|x l1 IH]; [done|].
  cbn [app]. rewrite !Zsum_cons, IH. lia.
Qed.

Lemma Zsum_nonneg l : Forall (λ x, 0 ≤ x) l → 0 ≤ Zsum l.
Proof. induction 1; [done|]. rewrite Zsum_cons. lia. Qed.

Lemma sectors_needed_cons ss e ft :
  sectors_needed ss (e :: ft)
  = (size (pe_file e) + ss - 1) / ss :: sectors_needed ss ft.
Proof. done. Qed.

Lemma sectors_needed_nonneg ss ft :
  0 < ss → Forall (λ x, 0 ≤ x) (sectors_needed ss ft).
Proof.
  intros Hss. unfold sectors_needed. apply Forall_fmap, Forall_forall.
  intros e _. simpl. pose proof (len_nonneg (data (pe_file e))).
  unfold size. apply Z.div_pos; lia.
Qed.

Lemma sectors_needed_ceil ss ft :
  0 < ss →
  Forall2 (λ e n, is_ceil_div (size (pe_file e)) ss n) ft
    (sectors_needed ss ft).
Proof.
  intros Hss. unfold sectors_needed. apply Forall2_fmap_r, Forall_Forall2_diag.
  apply Forall_forall. intros e _. by apply ceil_div_formula.
Qed.

Lemma align_first_sector_spec p ss :
  0 < ss →
  ∃ fso padding,
    align_first_sector p ss = Return (fso, padding) ∧
    fso mod ss = 0 ∧ p ≤ fso < p + ss ∧ padding = fso - p.
Proof.
  intros Hss. unfold align_first_sector.
  rewrite bool_decide_false by dlia. case_bool_decide as Hm.
  - eexists _, _. split; [done|]. split; [|dlia].
    replace (p + (ss - p mod ss)) with ((p / ss + 1) * ss) by dlia.
    by rewrite Z.mod_mul by dlia.
  - eexists _, _. split; [done|]. dlia.
Qed.

Lemma assign_sectors_spec ss ft :
  ∀ c,
    length (assign_sectors ft ss c).1 = length ft ∧
    (assign_sectors ft ss c).2 = c + Zsum (sectors_needed ss ft) ∧
    ∀ i e, (assign_sectors ft ss c).1 !! i = Some e →
      ∃ e0, ft !! i = Some e0 ∧
            pe_file e = pe_file e0 ∧
            pe_file_name_offset e = pe_file_name_offset e0 ∧
            pe_dir_name_offset e = pe_dir_name_offset e0 ∧
            pe_start_sector e = c + Zsum (take i (sectors_needed ss ft)).
Proof.
  induction ft as [|e0 ft IH]; intros c; cbn [assign_sectors fst snd].
  - split; [done|]. split; [unfold Zsum; simpl; lia|]. intros i e. done.
  - destruct (IH (c + (size (pe_file e0) + ss - 1) / ss)) as (H1 & H2 & H3).
    rewrite sectors_needed_cons.
    split; [simpl; lia|]. split.
    + rewrite H2, Zsum_cons. lia.
    + intros [|i] e; cbn [lookup list_lookup].
      * intros [= <-]. exists e0. cbn [take]. rewrite Z.add_0_r. done.
      * intros He. destruct (H3 i e He) as (e1 & ? & ? & ? & ? & Hs).
        exists e1. repeat split; try done.
        rewrite Hs. cbn [take]. rewrite Zsum_cons. lia.
Qed.

Lemma Zsum_take_lt counts :
  Forall (λ x, 0 ≤ x) counts →
  ∀ i j x, (i < j)%nat → counts !! i = Some x →
           Zsum (take i counts) + x ≤ Zsum (take j counts).
Proof.
  induction 1 as [|y counts Hy Hall IH]; intros i j x Hij Hi; [done|].
  destruct j as [|j]; [lia|]. destruct i as [|i].
  - injection Hi as ->. cbn [take]. rewrite !Zsum_cons.
    pose proof (Zsum_nonneg (take j counts)
                  (Forall_take _ _ _ Hall)). unfold Zsum at 1. simpl. lia.
  - cbn [take]. rewrite !Zsum_cons. cbn [lookup list_lookup] in Hi.
    specialize (IH i j x ltac:(lia) Hi). lia.
Qed.

(** The bytes a packing task writes lie in the sectors planned for its
    entry. *)
Lemma process_file_task_within read_error idx e ss fso n op :
  0 < ss → is_ceil_div (size (pe_file e)) ss n →
  op ∈ (process_file_task read_error idx e ss fso).1 →
  fso + pe_start_sector e * ss ≤ op.1 ∧
  op.1 + len op.2 ≤ fso + pe_start_sector e * ss + n * ss.
Proof.
  intros Hss Hn. unfold process_file_task.
  pose proof (len_nonneg (data (pe_file e))) as Hd0.
  destruct (read_error (path (pe_file e))); cbn [fst]; [by rewrite elem_of_nil|].
  assert (len (data (pe_file e)) ≤ n * ss) as Hle by apply Hn.
  rewrite elem_of_cons. intros [->|Hop]; [simpl; lia|].
  case_bool_decide as Hpad; [|by rewrite elem_of_nil in Hop].
  apply list_elem_of_singleton in Hop as ->. cbn [fst snd].
  rewrite len_zeros by lia. split; [lia|].
  set (sz := len (data (pe_file e))) in *.
  assert (sz mod ss ≠ 0) as Hr.
  { intros Hr. rewrite Hr, Z.sub_0_r, Z.mod_same in Hpad by lia. lia. }
  pose proof (Z.mod_pos_bound sz ss Hss) as Hb.
  rewrite (Z.mod_small (ss - sz mod ss)) by lia.
  assert (is_ceil_div sz ss (sz / ss + 1)) as Hq.
  { unfold is_ceil_div. pose proof (Z.div_mod sz ss ltac:(lia)). nia. }
  rewrite (is_ceil_div_unique _ _ _ _ Hss Hn Hq).
  pose proof (Z.div_mod sz ss ltac:(lia)). nia.
Qed.

(** C3.  For every file table and every positive [sector_size], the byte
    ranges the planner assigns to two distinct entries, each starting at
    [first_sector_offset + start_sector * sector_size] and spanning the
    entry's size divided by [sector_size], rounded up, whole sectors, do
    not overlap; and every write of a packing task stays within the range
    of its entry. *)
Theorem planned_ranges_disjoint (file_table : list pack_entry)
    (sector_size first_sector_offset : Z)
    (read_error : string → option string)
    (i j : nat) (ei ej : pack_entry) (ni nj : Z) :
  0 < sector_size →
  i ≠ j →
  (assign_sectors file_table sector_size 0).1 !! i = Some ei →
  (assign_sectors file_table sector_size 0).1 !! j = Some ej →
  is_ceil_div (size (pe_file ei)) sector_size ni →
  is_ceil_div (size (pe_file ej)) sector_size nj →
  let bi := first_sector_offset + pe_start_sector ei * sector_size in
  let bj := first_sector_offset + pe_start_sector ej * sector_size in
  (bi + ni * sector_size ≤ bj ∨ bj + nj * sector_size ≤ bi) ∧
  (∀ idx op,
     op ∈ (process_file_task read_error idx ei sector_size
             first_sector_offset).1 →
     bi ≤ op.1 ∧ op.1 + len op.2 ≤ bi + ni * sector_size).
Proof.
  intros Hss Hij Hi Hj Hni Hnj bi bj.
  split; [|intros idx op; by apply process_file_task_within].
  destruct (assign_sectors_spec sector_size file_table 0) as (_ & _ & H3).
  destruct (H3 i ei Hi) as (ei0 & Hi0 & Hfi & _ & _ & Hsi).
  destruct (H3 j ej Hj) as (ej0 & Hj0 & Hfj & _ & _ & Hsj).
  pose proof (sectors_needed_nonneg sector_size file_table Hss) as Hnn.
  assert (sectors_needed sector_size file_table !! i = Some ni) as Hci.
  { unfold sectors_needed. rewrite list_lookup_fmap, Hi0. simpl. f_equal.
    eapply is_ceil_div_unique; [done| |done].
    rewrite <- Hfi. by apply ceil_div_formula. }
  assert (sectors_needed sector_size file_table !! j = Some nj) as Hcj.
  { unfold sectors_needed. rewrite list_lookup_fmap, Hj0. simpl. f_equal.
    eapply is_ceil_div_unique; [done| |done].
    rewrite <- Hfj. by apply ceil_div_formula. }
  subst bi bj. rewrite Hsi, Hsj, !Z.add_0_l.
  destruct (decide (i < j)%nat) as [Hlt|Hge].
  - left. pose proof (Zsum_take_lt _ Hnn i j ni Hlt Hci) as Hle.
    apply (Z.mul_le_mono_nonneg_r _ _ sector_size) in Hle; lia.
  - right. pose proof (Zsum_take_lt _ Hnn j i nj ltac:(lia) Hcj) as Hle.
    apply (Z.mul_le_mono_nonneg_r _ _ sector_size) in Hle; lia.
Qed.

(** ** Writes into a file *)

Lemma write_at_in_range f p d :
  0 ≤ p → p + len d ≤ len f →
  write_at f p d
  = take (Z.to_nat p) f ++ d ++ drop (Z.to_nat (p + len d)) f.
Proof.
  intros Hp Hle. unfold write_at. destruct d as [|b d].
  - rewrite len_nil, Z.add_0_r. cbn [app]. by rewrite take_drop.
  - pose proof (len_nonneg (b :: d)).
    replace (zeros (p - len f)) with (@nil Z).
    2:{ unfold zeros. by replace (Z.to_nat (p - len f)) with 0%nat by lia. }
    by rewrite app_nil_r.
Qed.

Lemma write_at_length f p d :
  0 ≤ p → p + len d ≤ len f → length (write_at f p d) = length f.
Proof.
  intros Hp Hle. rewrite write_at_in_range by done.
  rewrite !length_app, length_take, length_drop. unfold len in *. lia.
Qed.

Lemma write_at_len f p d :
  0 ≤ p → p + len d ≤ len f → len (write_at f p d) = len f.
Proof. intros. unfold len. by rewrite write_at_length. Qed.

Lemma write_at_lookup f p d k :
  0 ≤ p → p + len d ≤ len f →
  write_at f p d !! k
  = if decide (Z.to_nat p ≤ k < Z.to_nat p + length d)%nat
    then d !! (k - Z.to_nat p)%nat else f !! k.
Proof.
  intros Hp Hle. rewrite write_at_in_range by done.
  unfold len in *. case_decide as Hk.
  - rewrite lookup_app_r by (rewrite length_take; lia).
    rewrite length_take, lookup_app_l by lia. f_equal. lia.
  - destruct (decide (k < Z.to_nat p)%nat).
    + rewrite lookup_app_l by (rewrite length_take; lia).
      by rewrite lookup_take_lt.
    + rewrite lookup_app_r by (rewrite length_take; lia).
      rewrite length_take, lookup_app_r by lia.
      rewrite lookup_drop. f_equal. lia.
Qed.

Lemma write_at_comm f a b :
  in_range (len f) a → in_range (len f) b → disjoint_ops a b →
  write_at (write_at f a.1 a.2) b.1 b.2
  = write_at (write_at f b.1 b.2) a.1 a.2.
Proof.
  intros [Ha1 Ha2] [Hb1 Hb2] Hd. apply list_eq. intros k.
  rewrite !write_at_lookup by (rewrite ?write_at_len; done).
  unfold disjoint_ops, len in *. repeat case_decide; try done; lia.
Qed.

Lemma apply_writes_cons op ops f :
  apply_writes (op :: ops) f = apply_writes ops (write_at f op.1 op.2).
Proof. done. Qed.

Lemma apply_writes_app ops1 ops2 f :
  apply_writes (ops1 ++ ops2) f = apply_writes ops2 (apply_writes ops1 f).
Proof. unfold apply_writes. by rewrite foldl_app. Qed.

Lemma apply_writes_len ops :
  ∀ f, Forall (in_range (len f)) ops → len (apply_writes ops f) = len f.
Proof.
  induction ops as [|op ops IH]; intros f Hr; [done|].
  apply Forall_cons in Hr as [[H1 H2] Hr]. rewrite apply_writes_cons.
  rewrite IH; rewrite write_at_len by done; done.
Qed.

Lemma disjoint_ops_sym a b : disjoint_ops a b → disjoint_ops b a.
Proof. unfold disjoint_ops. tauto. Qed.

Lemma pairwise_disjoint_perm ops ops' :
  ops ≡ₚ ops' → pairwise_disjoint ops → pairwise_disjoint ops'.
Proof.
  induction 1 as [|x l l' Hp IH|x y l|l l' l'' H1 IH1 H2 IH2]; simpl.
  - done.
  - intros [H1 H2]. split; [by rewrite <- Hp | auto].
  - intros [[Hxy H1]%Forall_cons [H2 H3]]. repeat split; try done.
    apply Forall_cons. split; [by apply disjoint_ops_sym | done].
  - auto.
Qed.

(** Writes that stay in range and do not overlap can be made in any
    order. *)
Lemma apply_writes_perm ops ops' :
  ops ≡ₚ ops' →
  ∀ f, Forall (in_range (len f)) ops → pairwise_disjoint ops →
       apply_writes ops f = apply_writes ops' f.
Proof.
  induction 1 as [|x l l' Hp IH|x y l|l l' l'' H1 IH1 H2 IH2];
    intros f Hr Hd.
  - done.
  - apply Forall_cons in Hr as [[Hx1 Hx2] Hr]. destruct Hd as [_ Hd].
    rewrite !apply_writes_cons. apply IH; [|done].
    by rewrite write_at_len.
  - apply Forall_cons in Hr as [Hy Hr]. apply Forall_cons in Hr as [Hx Hr].
    destruct Hd as [[Hyx _]%Forall_cons _].
    rewrite !apply_writes_cons. by rewrite write_at_comm.
  - rewrite IH1 by done. apply IH2; [by rewrite <- H1|].
    by eapply pairwise_disjoint_perm.
Qed.

(** After such writes, the file holds at each write's position the bytes
    written there. *)
Lemma apply_writes_slice ops f op :
  Forall (in_range (len f)) ops → pairwise_disjoint ops → op ∈ ops →
  slice (apply_writes ops f) op.1 (op.1 + len op.2) = op.2.
Proof.
  intros Hr Hd Hop.
  apply list_elem_of_split in Hop as (l1 & l2 & ->).
  assert (l1 ++ op :: l2 ≡ₚ (l1 ++ l2) ++ [op]) as Hp.
  { rewrite <- app_assoc. apply Permutation_app_head.
    rewrite (Permutation_app_comm l2 [op]). done. }
  rewrite (apply_writes_perm _ _ Hp) by done.
  rewrite apply_writes_app. cbn [apply_writes foldl].
  assert (Forall (in_range (len f)) (l1 ++ l2)) as Hr'.
  { rewrite Forall_app in Hr |- *. destruct Hr as [? [_ ?]%Forall_cons]. done. }
  assert (in_range (len f) op) as [Ho1 Ho2].
  { rewrite Forall_app in Hr. by destruct Hr as [? [? ?]%Forall_cons]. }
  rewrite write_at_in_range by (rewrite ?apply_writes_len; done).
  set (g := apply_writes (l1 ++ l2) f).
  assert (len (take (Z.to_nat op.1) g) = op.1) as Hl.
  { unfold len. rewrite length_take. subst g.
    pose proof (apply_writes_len _ _ Hr'). pose proof (len_nonneg op.2).
    unfold len in *. lia. }
  by apply slice_app_mid_at.
Qed.

(** Bytes before every write are left as they were. *)
Lemma apply_writes_take ops lo :
  ∀ f, Forall (in_range (len f)) ops → Forall (λ op, lo ≤ op.1) ops →
       take (Z.to_nat lo) (apply_writes ops f) = take (Z.to_nat lo) f.
Proof.
  induction ops as [|op ops IH]; intros f Hr Hlo; [done|].
  apply Forall_cons in Hr as [[H1 H2] Hr].
  apply Forall_cons in Hlo as [Ho Hlo].
  rewrite apply_writes_cons, IH; [|by rewrite write_at_len|done].
  rewrite write_at_in_range by done.
  rewrite take_app_le by (rewrite length_take; unfold len in *; lia).
  rewrite take_take. f_equal. lia.
Qed.

(** ** [struct] round trips *)

Lemma pack_I_spec v b :
  pack_I v = Return b →
  0 ≤ v < 2 ^ 32 ∧ length b = 4%nat ∧ unpack_I b = v.
Proof.
  unfold pack_I. case_bool_decide as Hv; [|done]. intros [= <-].
  split; [done|]. split; [done|]. unfold unpack_I. cbn [foldr]. dlia.
Qed.

Lemma struct_pack_spec values :
  ∀ bs, struct_pack values = Return bs →
        Forall (λ v, 0 ≤ v < 2 ^ 32) values ∧
        length bs = (4 * length values)%nat ∧
        ∀ rest, unpack_words (length values) (bs ++ rest) = values.
Proof.
  induction values as [|v values IH]; intros bs; cbn [struct_pack bind].
  - intros [= <-]. split; [constructor|]. done.
  - destruct (pack_I v) as [b|] eqn:Hb; cbn [bind]; [|done].
    destruct (struct_pack values) as [bs'|] eqn:Hbs; cbn [bind]; [|done].
    intros [= <-]. apply pack_I_spec in Hb as (Hv & Hl & Hu).
    destruct (IH _ eq_refl) as (Hvs & Hls & Hus).
    split; [by constructor|]. split.
    + rewrite length_app. simpl. lia.
    + intros rest. cbn [length unpack_words]. rewrite <- app_assoc.
      rewrite take_app_length' by done. rewrite drop_app_length' by done.
      by rewrite Hu, Hus.
Qed.

Lemma struct_unpack_pack values bs :
  struct_pack values = Return bs →
  struct_unpack (length values) bs = Return values.
Proof.
  intros (_ & Hl & Hu)%struct_pack_spec. unfold struct_unpack.
  rewrite bool_decide_true by done. f_equal.
  specialize (Hu []). by rewrite app_nil_r in Hu.
Qed.


(** ** The copy loop of [unpack_file_task] *)

Lemma copy_chunks_slice fuel :
  ∀ f pos remaining,
    0 ≤ pos → (Z.to_nat remaining ≤ fuel)%nat →
    copy_chunks fuel f pos remaining = slice f pos (pos + remaining).
Proof.
  induction fuel as [|fuel IH]; intros f pos remaining Hpos Hfuel.
  - cbn [copy_chunks]. unfold slice.
    by replace (Z.to_nat (pos + remaining - pos)) with 0%nat by lia.
  - cbn [copy_chunks]. case_bool_decide as Hrem.
    2:{ unfold slice.
        by replace (Z.to_nat (pos + remaining - pos)) with 0%nat by lia. }
    assert (1 ≤ Z.min remaining buffer_size ≤ remaining) as Hcs.
    { unfold buffer_size. lia. }
    set (chunk_size := Z.min remaining buffer_size) in *.
    pose proof (len_nonneg (slice f pos (pos + chunk_size))) as Hc0.
    rewrite IH by lia. unfold slice.
    replace (Z.to_nat (pos + chunk_size - pos)) with (Z.to_nat chunk_size)
      by lia.
    replace (Z.to_nat (pos + remaining - pos))
      with (Z.to_nat chunk_size + Z.to_nat (remaining - chunk_size))%nat
      by lia.
    set (chunk := take (Z.to_nat chunk_size) (drop (Z.to_nat pos) f)).
    replace (Z.to_nat (pos + len chunk + (remaining - chunk_size)
                       - (pos + len chunk)))
      with (Z.to_nat (remaining - chunk_size)) by lia.
    replace (Z.to_nat (pos + len chunk))
      with (Z.to_nat pos + length chunk)%nat by (unfold len; lia).
    rewrite <- drop_drop.
    destruct (decide (Z.to_nat chunk_size ≤ length (drop (Z.to_nat pos) f))%nat)
      as [Hle|Hgt].
    + replace (length chunk) with (Z.to_nat chunk_size)
        by (subst chunk; rewrite length_take; lia).
      subst chunk. by rewrite <- take_take_drop.
    + subst chunk. rewrite (take_ge (drop _ f) (Z.to_nat chunk_size)) by lia.
      rewrite drop_all, take_nil, app_nil_r.
      rewrite take_ge by lia. done.
Qed.

(** ** The writes of the packing tasks *)

Lemma pairwise_disjoint_app ops1 ops2 :
  pairwise_disjoint ops1 → pairwise_disjoint ops2 →
  Forall (λ a, Forall (disjoint_ops a) ops2) ops1 →
  pairwise_disjoint (ops1 ++ ops2).
Proof.
  induction ops1 as [|a ops1 IH]; [done|].
  intros [Ha H1] H2 [Ha2 H12]%Forall_cons. cbn [app pairwise_disjoint].
  split; [|by apply IH]. apply Forall_app. done.
Qed.

Lemma process_file_task_disjoint read_error idx e ss fso :
  0 < ss → pairwise_disjoint (process_file_task read_error idx e ss fso).1.
Proof.
  intros Hss. unfold process_file_task.
  destruct (read_error (path (pe_file e))); cbn [fst]; [done|].
  case_bool_decide; cbn [pairwise_disjoint]; [|done].
  split; [|done]. apply Forall_singleton. left. simpl. lia.
Qed.

Lemma tasks_ops_spec read_error ss fso ft :
  0 < ss →
  ∀ c idx,
    let ops := concat (fst <$> process_file_tasks read_error idx
                         (assign_sectors ft ss c).1 ss fso) in
    pairwise_disjoint ops ∧
    Forall (λ op, fso + c * ss ≤ op.1 ∧
                  op.1 + len op.2 ≤ fso + (assign_sectors ft ss c).2 * ss)
      ops.
Proof.
  intros Hss. induction ft as [|e ft IH]; intros c idx ops.
  { subst ops. simpl. split; [done | constructor]. }
  subst ops. cbn [assign_sectors fst snd process_file_tasks fmap list_fmap
                  concat].
  set (n := (size (pe_file e) + ss - 1) / ss).
  set (e' := {| pe_file_name_offset := pe_file_name_offset e;
                pe_dir_name_offset := pe_dir_name_offset e;
                pe_file := pe_file e; pe_start_sector := c |}).
  destruct (IH (c + n) (idx + 1)) as [IHd IHr].
  assert (is_ceil_div (size (pe_file e')) ss n) as Hn
    by (by apply ceil_div_formula).
  assert (0 ≤ n) as Hn0.
  { eapply is_ceil_div_nonneg; [done| |exact Hn].
    unfold size. apply len_nonneg. }
  assert (c + n ≤ (assign_sectors ft ss (c + n)).2) as Htot.
  { destruct (assign_sectors_spec ss ft (c + n)) as (_ & -> & _).
    pose proof (Zsum_nonneg _ (sectors_needed_nonneg ss ft Hss)). lia. }
  assert (Forall (λ op, fso + c * ss ≤ op.1 ∧
                        op.1 + len op.2 ≤ fso + (c + n) * ss)
            (process_file_task read_error idx e' ss fso).1) as Hhead.
  { apply Forall_forall. intros op Hop.
    destruct (process_file_task_within read_error idx e' ss fso n op Hss Hn Hop).
    cbn [pe_start_sector e'] in *. lia. }
  split.
  - apply pairwise_disjoint_app; [by apply process_file_task_disjoint|done|].
    eapply Forall_impl; [exact Hhead|]. intros a [Ha1 Ha2].
    eapply Forall_impl; [exact IHr|]. intros b [Hb1 Hb2]. left. lia.
  - apply Forall_app. split.
    + eapply Forall_impl; [exact Hhead|]. intros a [Ha1 Ha2]. split; [done|].
      assert ((c + n) * ss ≤ (assign_sectors ft ss (c + n)).2 * ss)
        by (apply Z.mul_le_mono_nonneg_r; lia). lia.
    + eapply Forall_impl; [exact IHr|]. intros b [Hb1 Hb2]. split; [|done].
      assert (c * ss ≤ (c + n) * ss)
        by (apply Z.mul_le_mono_nonneg_r; lia). lia.
Qed.

(** ** Paths *)

Lemma split_after_last_sep_none is_sep p :
  Forall (λ c, is_sep c = false) p →
  split_after_last_sep is_sep p = ([], p).
Proof.
  induction 1 as [|c p Hc _ IH]; [done|].
  cbn [split_after_last_sep]. by rewrite IH, Hc.
Qed.

Lemma replace_char_absent a b s :
  a ≠ b → Forall (λ c, bool_decide (c = a) = false) (replace_char a b s).
Proof.
  intros Hab. unfold replace_char. apply Forall_fmap, Forall_forall.
  intros c _. unfold compose.
  destruct (decide (c = a)) as [Heq|Hne];
    [rewrite (bool_decide_true (c = a)) by done
    |rewrite (bool_decide_false (c = a)) by done];
    apply bool_decide_eq_false; congruence.
Qed.

(** Once its slashes are backslashes, a path has nothing for
    [posixpath.split] to cut at. *)
Lemma posix_split_backslashed p :
  os_path_split Posix (replace_char slash backslash p)
  = ([], replace_char slash backslash p).
Proof.
  unfold os_path_split.
  rewrite split_after_last_sep_none; [done|].
  apply replace_char_absent. done.
Qed.

Lemma split_rel_path_posix w :
  split_rel_path Posix w
  = {| path := found_path w;
       dir_name := [];
       file_name := replace_char slash backslash (rel_path w);
       data := found_data w |}.
Proof. unfold split_rel_path. by rewrite posix_split_backslashed. Qed.

(** ** The interning loop of [pack_cdfs] *)

Lemma entry_at_app ents new s off :
  entry_at ents s off → entry_at (ents ++ new) s off.
Proof.
  intros (enc & i & Henc & Hi & ->). exists enc, i. split; [done|].
  rewrite !app_comm_cons. split; [by apply lookup_app_l_Some|].
  symmetry. apply offset_of_app. apply lookup_lt_Some in Hi. lia.
Qed.

Lemma entry_at_good st cache ents s off :
  table_inv st cache ents → entry_at ents s off → good_offset st s off.
Proof.
  intros Hinv (enc & i & Henc & Hi & ->). rewrite (inv_table _ _ _ Hinv).
  apply (entry_good_offset _ _ enc); [by eapply table_inv_nuls|done..].
Qed.

Lemma filter_eq_absent (l : list bytes) x :
  x ∉ l → filter (λ e, e = x) l = [].
Proof.
  induction l as [|y l IH]; [done|].
  intros [Hxy Hx]%not_elem_of_cons. rewrite filter_cons.
  rewrite decide_False by done. auto.
Qed.

Lemma NoDup_filter_eq (l : list bytes) x :
  NoDup l → x ∈ l → filter (λ e, e = x) l = [x].
Proof.
  induction 1 as [|y l Hy Hl IH]; [by rewrite elem_of_nil|].
  rewrite elem_of_cons, filter_cons. intros [->|Hx].
  - rewrite decide_True by done. f_equal. by apply filter_eq_absent.
  - rewrite decide_False by (intros ->; done). auto.
Qed.

Lemma entry_at_unique st cache ents s off :
  table_inv st cache ents → entry_at ents s off →
  ∃ enc, utf8_encode s = Some enc ∧
         filter (λ e, e = enc) (table_entries st) = [enc].
Proof.
  intros Hinv (enc & i & Henc & Hi & ->). exists enc. split; [done|].
  rewrite (inv_table _ _ _ Hinv).
  rewrite table_entries_flat by (by eapply table_inv_nuls).
  apply NoDup_filter_eq; [apply Hinv|]. by eapply list_elem_of_lookup_2.
Qed.

Section intern_files_facts.

Variable upper : str → str.

Lemma add_string_to_table_mono st cache ents s :
  table_inv st cache ents → 0 ∉ upper s →
  match add_string_to_table upper st cache s with
  | Return (st', cache', off) =>
      ∃ new, table_inv st' cache' (ents ++ new) ∧ cache ⊆ cache' ∧
             entry_at (ents ++ new) (upper s) off ∧
             cache' !! upper s = Some off
  | Raise e => e = UnicodeEncodeError ∧ utf8_encode (upper s) = None
  end.
Proof.
  intros Hinv Hnul.
  pose proof (add_string_to_table_spec upper st cache ents s Hinv Hnul) as H.
  destruct (add_string_to_table upper st cache s) as [[[st' cache'] off]|e]
    eqn:Hadd; [|done].
  destruct H as (enc & new & i & Henc & Hinv' & Hi & -> & Hc & Hother & _).
  exists new. split; [done|]. split; [|split; [by exists enc, i | done]].
  apply map_subseteq_spec. intros k v Hk.
  destruct (decide (k = upper s)) as [->|Hne].
  - unfold add_string_to_table in Hadd. rewrite Hk in Hadd. congruence.
  - by rewrite Hother.
Qed.

Lemma interned_mono ents cache new cache' f e :
  cache ⊆ cache' → interned upper ents cache f e →
  interned upper (ents ++ new) cache' f e.
Proof.
  intros Hsub (H1 & H2 & H3 & H4 & H5 & H6).
  rewrite map_subseteq_spec in Hsub.
  repeat split; auto using entry_at_app.
Qed.

Lemma intern_files_spec files :
  ∀ st cache ents n,
    table_inv st cache ents → Forall (names_nul_free upper) files →
    match intern_files upper files st cache n with
    | Return (ft, st', n') =>
        ∃ new cache',
          table_inv st' cache' (ents ++ new) ∧ cache ⊆ cache' ∧
          Forall2 (interned upper (ents ++ new) cache') files ft ∧
          n ≤ n' ≤ n + 2 * len files
    | Raise e =>
        e = UnicodeEncodeError ∧ Exists (λ f, ¬ names_encodable upper f) files
    end.
Proof.
  induction files as [|f files IH]; intros st cache ents n Hinv Hnul.
  { cbn [intern_files]. exists [], cache. rewrite app_nil_r.
    split; [done|]. split; [done|]. split; [constructor|].
    unfold len. simpl. lia. }
  apply Forall_cons in Hnul as [[Hd Hf] Hnul]. cbn [intern_files].
  pose proof (add_string_to_table_mono st cache ents (dir_name f) Hinv Hd)
    as H1.
  destruct (add_string_to_table upper st cache (dir_name f))
    as [[[st1 c1] doff]|e]; cbn [bind].
  2:{ destruct H1 as [-> Hn]. split; [done|]. left.
      intros [[? Hs] _]. congruence. }
  destruct H1 as (new1 & Hinv1 & Hsub1 & Hat1 & Hc1).
  pose proof (add_string_to_table_mono st1 c1 _ (file_name f) Hinv1 Hf)
    as H2.
  destruct (add_string_to_table upper st1 c1 (file_name f))
    as [[[st2 c2] foff]|e]; cbn [bind].
  2:{ destruct H2 as [-> Hn]. split; [done|]. left.
      intros [_ [? Hs]]. congruence. }
  destruct H2 as (new2 & Hinv2 & Hsub2 & Hat2 & Hc2).
  match goal with
  | |- context [intern_files upper files st2 c2 ?m] =>
      specialize (IH st2 c2 _ m Hinv2 Hnul);
      assert (n ≤ m ≤ n + 2) as Hm
        by (repeat (case_match; try lia));
      destruct (intern_files upper files st2 c2 m) as [[[ft st3] n3]|e];
      cbn [bind]
  end.
  2:{ destruct IH as [-> ?]. split; [done|]. by right. }
  destruct IH as (new3 & c3 & Hinv3 & Hsub3 & Hall & Hn3).
  exists (new1 ++ new2 ++ new3), c3. rewrite !app_assoc.
  split; [done|]. split; [by do 2 (etrans; [eassumption|])|].
  rewrite len_cons. split; [|lia]. constructor; [|done].
  apply (interned_mono _ c2); [done|].
  rewrite map_subseteq_spec in Hsub2.
  repeat split; auto using entry_at_app.
Qed.

End intern_files_facts.

Section intern_entries_facts.

Variable upper : str → str.

(** Every entry that the loop appends is the encoding of the upper-cased
    directory or name of one of the files. *)
Lemma intern_files_new_entries files :
  ∀ st cache ents n ft st' n',
    table_inv st cache ents → Forall (names_nul_free upper) files →
    intern_files upper files st cache n = Return (ft, st', n') →
    ∃ new cache',
      table_inv st' cache' (ents ++ new) ∧
      Forall (λ enc, ∃ f, f ∈ files ∧
                (utf8_encode (upper (dir_name f)) = Some enc ∨
                 utf8_encode (upper (file_name f)) = Some enc)) new.
Proof.
  induction files as [|f files IH]; intros st cache ents n ft st' n' Hinv Hnul;
    cbn [intern_files].
  { intros [= _ <- _]. exists [], cache. rewrite app_nil_r. by split. }
  apply Forall_cons in Hnul as [[Hd Hn] Hnul].
  pose proof (add_string_to_table_spec upper st cache ents (dir_name f)
                Hinv Hd) as H1.
  destruct (add_string_to_table upper st cache (dir_name f))
    as [[[st1 c1] doff]|]; cbn [bind]; [|done].
  destruct H1 as (enc1 & new1 & i1 & Henc1 & Hinv1 & _ & _ & _ & _ & Hnew1).
  pose proof (add_string_to_table_spec upper st1 c1 (ents ++ new1)
                (file_name f) Hinv1 Hn) as H2.
  destruct (add_string_to_table upper st1 c1 (file_name f))
    as [[[st2 c2] foff]|]; cbn [bind]; [|done].
  destruct H2 as (enc2 & new2 & i2 & Henc2 & Hinv2 & _ & _ & _ & _ & Hnew2).
  destruct (intern_files upper files st2 c2 _) as [[[ft3 st3] n3]|] eqn:H3;
    cbn [bind]; [|done].
  intros [= _ <- _].
  destruct (IH _ _ _ _ _ _ _ Hinv2 Hnul H3) as (new3 & c3 & Hinv3 & Hall3).
  exists (new1 ++ new2 ++ new3), c3. rewrite !app_assoc.
  rewrite <- !app_assoc in Hinv3. rewrite <- !app_assoc. split; [done|].
  apply Forall_app. split; [|apply Forall_app; split].
  - destruct Hnew1 as [->|[-> _]]; [constructor|].
    repeat constructor. exists f. split; [left|]. by left.
  - destruct Hnew2 as [->|[-> _]]; [constructor|].
    repeat constructor. exists f. split; [left|]. by right.
  - eapply Forall_impl; [exact Hall3|].
    intros enc (f' & Hf' & H). exists f'. split; [by right|done].
Qed.

(** The loop returns when the names can be encoded. *)
Lemma intern_files_returns files :
  Forall (names_nul_free upper) files →
  Forall (names_encodable upper) files →
  ∃ r, intern_files upper files [0] ∅ 1 = Return r.
Proof.
  intros Hnul Henc.
  pose proof (intern_files_spec upper files [0] ∅ [] 1 table_inv_init Hnul)
    as Hspec.
  destruct (intern_files upper files [0] ∅ 1) as [r|e]; [by eexists|].
  destruct Hspec as [_ Hex]. exfalso.
  apply Exists_exists in Hex as (f & Hf & Hn).
  rewrite Forall_forall in Henc. by apply Hn, Henc.
Qed.

(** The empty string is at offset 0 only. *)
Lemma entry_at_empty st cache ents off :
  table_inv st cache ents → entry_at ents [] off → off = 0.
Proof.
  intros Hinv (enc & i & Henc & Hi & ->).
  injection Henc as <-.
  assert (i = 0%nat) as ->; [|done].
  by eapply (NoDup_lookup _ _ _ _ (inv_nodup _ _ _ Hinv) Hi).
Qed.

End intern_entries_facts.

(** ** The archive [pack_cdfs] writes *)

Section pack_facts.

Variable upper : str → str.

Lemma pack_cdfs_inv files ss cs debug read_error wo co F log b :
  pack_cdfs upper files ss cs debug read_error wo co = Return (F, log, b) →
  ∃ ft0 st ste fso padding hdr ents_b,
    intern_files upper files [0] ∅ 1 = Return (ft0, st, ste) ∧
    align_first_sector (header_size + len ft0 * 16 + len st) ss
    = Return (fso, padding) ∧
    struct_pack [CDFS_MAGIC; CDFS_VERSION; ss; cs; fso;
                 (assign_sectors ft0 ss 0).2; len ft0 * 16;
                 len (assign_sectors ft0 ss 0).1; len st; ste]
    = Return hdr ∧
    pack_file_table (assign_sectors ft0 ss 0).1 = Return ents_b ∧
    F = apply_writes
          (wo (concat (fst <$> process_file_tasks read_error 0
                                 (assign_sectors ft0 ss 0).1 ss fso)))
          (write_at (preamble hdr ents_b st padding)
             (fso + (assign_sectors ft0 ss 0).2 * ss - 1) [0]) ∧
    report_results debug
      (foldr Z.add 0 ((λ e, size (pe_file e))
                      <$> (assign_sectors ft0 ss 0).1))
      (co (snd <$> process_file_tasks read_error 0 (assign_sectors ft0 ss 0).1 ss fso))
      0 0 = Return log ∧
    b = true.
Proof.
  unfold pack_cdfs. intros H.
  destruct (intern_files upper files [0] ∅ 1) as [[[ft0 st] ste]|] eqn:Hi;
    cbn [bind] in H; [|done].
  destruct (align_first_sector _ ss) as [[fso padding]|] eqn:Ha;
    cbn [bind] in H; [|done].
  destruct (assign_sectors ft0 ss 0) as [ft total] eqn:Hs.
  destruct (struct_pack _) as [hdr|] eqn:Hh; cbn [bind] in H; [|done].
  destruct (pack_file_table ft) as [ents_b|] eqn:He; cbn [bind] in H; [|done].
  destruct (report_results _ _ _ _ _) as [log'|] eqn:Hr; cbn [bind] in H;
    [|done].
  injection H as <- <- <-.
  exists ft0, st, ste, fso, padding, hdr, ents_b. rewrite Hs. cbn [fst snd].
  repeat split; done.
Qed.

End pack_facts.

Lemma pack_file_table_spec ft :
  ∀ b, pack_file_table ft = Return b →
       len b = 16 * len ft ∧
       Forall (λ e, 0 ≤ pe_start_sector e < 2 ^ 32 ∧
                    0 ≤ size (pe_file e) < 2 ^ 32) ft ∧
       ∀ pre post pos,
         len pre = pos →
         read_file_table (length ft) (pre ++ b ++ post) pos
         = Return (stored_entry <$> ft).
Proof.
  induction ft as [|e ft IH]; intros b; cbn [pack_file_table].
  { intros [= <-]. split; [done|]. split; [constructor|]. done. }
  destruct (struct_pack _) as [eb|] eqn:Heb; cbn [bind]; [|done].
  destruct (pack_file_table ft) as [rest|] eqn:Hrest; cbn [bind]; [|done].
  intros [= <-]. destruct (IH _ eq_refl) as (Hl & Hr & Hread).
  pose proof (struct_pack_spec _ _ Heb) as (Hv & Hlen & _).
  assert (len eb = 16) as Hleb by (unfold len; rewrite Hlen; simpl; lia).
  split; [rewrite len_app, len_cons; lia|]. split.
  { constructor; [|done].
    apply Forall_cons in Hv as [_ Hv]. apply Forall_cons in Hv as [_ Hv].
    apply Forall_cons in Hv as [? Hv]. apply Forall_cons in Hv as [? _].
    done. }
  intros pre post pos Hpos. cbn [length read_file_table].
  rewrite <- (app_assoc eb rest post).
  replace (pos + 16) with (pos + len eb) by lia.
  rewrite slice_app_mid_at by done.
  unfold unpack_entry.
  pose proof (struct_unpack_pack _ _ Heb) as Hu. cbn [length] in Hu.
  rewrite Hu. cbn [bind].
  rewrite (app_assoc pre eb (rest ++ post)).
  rewrite Hread by (rewrite len_app; lia). cbn [bind]. done.
Qed.

Lemma table_inv_last st cache ents :
  table_inv st cache ents → ∃ st', st = st' ++ [0].
Proof.
  intros Hinv. rewrite (inv_table _ _ _ Hinv).
  destruct ents as [|e ents _] using rev_ind.
  - by exists [].
  - rewrite app_comm_cons, flat_snoc.
    exists (flat ([] :: ents) ++ e). by rewrite <- app_assoc.
Qed.

Lemma zeros_snoc n : 0 ≤ n → zeros n ++ [0] = zeros (n + 1).
Proof.
  intros Hn. unfold zeros.
  replace (Z.to_nat (n + 1)) with (S (Z.to_nat n)) by lia.
  by rewrite replicate_S_end.
Qed.

(** The file once the preamble is written and extended: the preamble
    followed by zeros up to the planned size. *)
Lemma extended_file P fso T :
  len P = fso → 0 ≤ T → (T = 0 → ∃ P', P = P' ++ [0]) →
  write_at P (fso + T - 1) [0] = P ++ zeros T.
Proof.
  intros HP HT Hlast. destruct (decide (T = 0)) as [->|Hne].
  - destruct (Hlast eq_refl) as [P' ->].
    rewrite len_app, len_cons, len_nil in HP.
    pose proof (len_nonneg P').
    rewrite write_at_in_range
      by (rewrite ?len_app, ?len_cons, ?len_nil; lia).
    replace (Z.to_nat (fso + 0 - 1)) with (length P') by (unfold len in *; lia).
    rewrite take_app_length.
    rewrite drop_ge
      by (rewrite length_app; unfold len in *; simpl in *; lia).
    by rewrite !app_nil_r.
  - unfold write_at. rewrite drop_ge by (unfold len in *; simpl; lia).
    rewrite take_ge
      by (rewrite length_app; unfold zeros;
          rewrite length_replicate; unfold len in *; lia).
    rewrite app_nil_r, <- app_assoc. f_equal.
    replace (fso + T - 1 - len P) with (T - 1) by lia.
    rewrite zeros_snoc by lia. f_equal. lia.
Qed.

Section pack_layout_facts.

Variable upper : str → str.

Lemma add_string_to_table_last st cache s st' cache' off :
  (∃ x, st = x ++ [0]) →
  add_string_to_table upper st cache s = Return (st', cache', off) →
  ∃ x, st' = x ++ [0].
Proof.
  intros Hst. unfold add_string_to_table.
  destruct (cache !! upper s); [by intros [= <- _ _]|].
  destruct (utf8_encode (upper s)) as [enc|]; [|done].
  destruct (scan_table _ _ _ _ _).2; intros [= <- _ _]; [done|].
  exists (st ++ enc). by rewrite <- app_assoc.
Qed.

Lemma intern_files_last files :
  ∀ st cache n ft st' n',
    (∃ x, st = x ++ [0]) →
    intern_files upper files st cache n = Return (ft, st', n') →
    (∃ x, st' = x ++ [0]) ∧ length ft = length files.
Proof.
  induction files as [|f files IH]; intros st cache n ft st' n' Hst;
    cbn [intern_files].
  { intros [= <- <- _]. done. }
  destruct (add_string_to_table upper st cache (dir_name f))
    as [[[st1 c1] doff]|] eqn:H1; cbn [bind]; [|done].
  destruct (add_string_to_table upper st1 c1 (file_name f))
    as [[[st2 c2] foff]|] eqn:H2; cbn [bind]; [|done].
  destruct (intern_files upper files st2 c2 _) as [[[ft3 st3] n3]|] eqn:H3;
    cbn [bind]; [|done].
  intros [= <- <- _].
  apply add_string_to_table_last in H1; [|done].
  apply add_string_to_table_last in H2; [|done].
  destruct (IH _ _ _ _ _ _ H2 H3) as [? ?]. split; [done|]. simpl. lia.
Qed.

(** The layout of the file [pack_cdfs] returns, for any scheduling of the
    writes. *)
Lemma pack_cdfs_canonical files ss cs debug read_error wo co F log b :
  (∀ l, wo l ≡ₚ l) →
  pack_cdfs upper files ss cs debug read_error wo co = Return (F, log, b) →
  ∃ ft0 st ste fso padding hdr ents_b,
    intern_files upper files [0] ∅ 1 = Return (ft0, st, ste) ∧
    align_first_sector (header_size + len ft0 * 16 + len st) ss
    = Return (fso, padding) ∧
    struct_pack [CDFS_MAGIC; CDFS_VERSION; ss; cs; fso;
                 (assign_sectors ft0 ss 0).2; len ft0 * 16;
                 len (assign_sectors ft0 ss 0).1; len st; ste]
    = Return hdr ∧
    pack_file_table (assign_sectors ft0 ss 0).1 = Return ents_b ∧
    0 < ss ∧ 0 ≤ (assign_sectors ft0 ss 0).2 ∧ 40 ≤ fso ∧
    fso mod ss = 0 ∧
    len hdr = 40 ∧ len ents_b = 16 * len ft0 ∧
    len (preamble hdr ents_b st padding) = fso ∧
    Forall (in_range (fso + (assign_sectors ft0 ss 0).2 * ss))
      (concat (fst <$> process_file_tasks read_error 0 (assign_sectors ft0 ss 0).1
                         ss fso)) ∧
    Forall (λ op, fso ≤ op.1)
      (concat (fst <$> process_file_tasks read_error 0 (assign_sectors ft0 ss 0).1
                         ss fso)) ∧
    pairwise_disjoint
      (concat (fst <$> process_file_tasks read_error 0 (assign_sectors ft0 ss 0).1
                         ss fso)) ∧
    F = apply_writes
          (concat (fst <$> process_file_tasks read_error 0 (assign_sectors ft0 ss 0).1
                             ss fso))
          (preamble hdr ents_b st padding
           ++ zeros ((assign_sectors ft0 ss 0).2 * ss)) ∧
    report_results debug
      (foldr Z.add 0 ((λ e, size (pe_file e))
                      <$> (assign_sectors ft0 ss 0).1))
      (co (snd <$> process_file_tasks read_error 0 (assign_sectors ft0 ss 0).1 ss fso))
      0 0 = Return log ∧
    b = true.
Proof.
  intros Hwo Hpack.
  destruct (pack_cdfs_inv upper _ _ _ _ _ _ _ _ _ _ Hpack)
    as (ft0 & st & ste & fso & padding & hdr & ents_b
        & Hi & Ha & Hh & He & -> & Hr & ->).
  exists ft0, st, ste, fso, padding, hdr, ents_b.
  pose proof (struct_pack_spec _ _ Hh) as (Hv & Hlh & _).
  assert (0 < ss) as Hss.
  { apply Forall_cons in Hv as [_ Hv]. apply Forall_cons in Hv as [_ Hv].
    apply Forall_cons in Hv as [? _]. unfold align_first_sector in Ha.
    case_bool_decide; [done|]. lia. }
  destruct (align_first_sector_spec (header_size + len ft0 * 16 + len st) ss
              Hss) as (fso' & padding' & Ha' & Hmod & Hrange & Hpad).
  rewrite Ha in Ha'. injection Ha' as <- <-.
  destruct (assign_sectors_spec ss ft0 0) as (Hlen & Htot & _).
  pose proof (Zsum_nonneg _ (sectors_needed_nonneg ss ft0 Hss)) as Hsum.
  pose proof (pack_file_table_spec _ _ He) as (Hle & _ & _).
  assert (len (assign_sectors ft0 ss 0).1 = len ft0) as Hlen'
    by (unfold len; by rewrite Hlen).
  pose proof (len_nonneg ft0) as Hft0. pose proof (len_nonneg st) as Hst0.
  assert (len hdr = 40) as Hlhdr by (unfold len; rewrite Hlh; simpl; lia).
  assert (len (preamble hdr ents_b st padding) = fso) as HP.
  { unfold preamble. rewrite !len_app, Hlhdr, Hle, Hlen'.
    unfold header_size in *. case_bool_decide.
    - rewrite len_zeros by lia. lia.
    - rewrite len_nil. lia. }
  destruct (tasks_ops_spec read_error ss fso ft0 Hss 0 0) as [Hdis Hin].
  cbn zeta in Hdis, Hin. rewrite Z.mul_0_l, Z.add_0_r in Hin.
  set (ops := concat (fst <$> process_file_tasks read_error 0
                                (assign_sectors ft0 ss 0).1 ss fso)) in *.
  set (T := (assign_sectors ft0 ss 0).2) in *.
  assert (0 ≤ T) as HT by lia.
  assert (0 ≤ T * ss) as HTs by (apply Z.mul_nonneg_nonneg; lia).
  unfold header_size in *.
  assert (Forall (in_range (fso + T * ss)) ops) as Hinr.
  { eapply Forall_impl; [exact Hin|]. intros op [? ?]. split; lia. }
  assert (Forall (λ op, fso ≤ op.1) ops) as Hlo.
  { eapply Forall_impl; [exact Hin|]. by intros op [? ?]. }
  assert (apply_writes (wo ops)
            (write_at (preamble hdr ents_b st padding) (fso + T * ss - 1) [0])
          = apply_writes ops
              (preamble hdr ents_b st padding ++ zeros (T * ss))) as HF.
  { rewrite extended_file; [|done|done|].
    2:{ intros HT0. unfold preamble. case_bool_decide.
        - exists (hdr ++ ents_b ++ st ++ zeros (padding - 1)).
          rewrite <- !app_assoc, zeros_snoc by lia.
          do 4 f_equal. lia.
        - destruct (intern_files_last _ _ _ _ _ _ _
                      (ex_intro _ [] eq_refl) Hi) as [[x ->] _].
          exists (hdr ++ ents_b ++ x). by rewrite app_nil_r, <- !app_assoc. }
    symmetry. apply apply_writes_perm; [by symmetry|..].
    - rewrite len_app, HP, len_zeros by done. done.
    - done. }
  repeat match goal with |- _ ∧ _ => split end; try done; lia.
Qed.

End pack_layout_facts.

(** ** Scheduling *)

(** The completion loop of [pack_cdfs] raises only for the division by
    [total_size] in the progress line. *)
Lemma report_results_returns debug total rs :
  ∀ p c,
    (∃ log, report_results debug total rs p c = Return log) ↔
    (debug = false ∨ total ≠ 0 ∨ Forall (λ r, ∃ e, r.2 = inr e) rs).
Proof.
  induction rs as [|[[idx sz] [path|e]] rs IH]; intros p c;
    cbn [report_results].
  - split; [|by eexists]. intros _. right. right. constructor.
  - destruct debug.
    + case_bool_decide as Ht.
      * split; [by intros [? ?]|]. intros [?|[?|Hall]]; [done..|].
        apply Forall_cons in Hall as [[e ?] _]. done.
      * split; [auto|]. intros _.
        destruct (proj2 (IH (p + sz) (c + 1))) as [log ->]; [auto|].
        by eexists.
    + rewrite IH. split; auto.
  - split.
    + intros [log Hlog].
      destruct (report_results debug total rs p (c + 1)) as [log'|] eqn:Hr;
        [|done].
      destruct (proj1 (IH p (c + 1)) (ex_intro _ log' Hr)) as [?|[?|?]];
        [by left | by right; left |].
      right. right. constructor; [by eexists | done].
    + intros H. destruct (proj2 (IH p (c + 1))) as [log ->].
      * destruct H as [?|[?|[_ ?]%Forall_cons]]; auto.
      * by eexists.
Qed.

Lemma report_results_perm debug total rs rs' p c p' c' log :
  rs ≡ₚ rs' → report_results debug total rs p c = Return log →
  ∃ log', report_results debug total rs' p' c' = Return log'.
Proof.
  intros Hp Hr. apply report_results_returns.
  destruct (proj1 (report_results_returns debug total rs p c)) as [?|[?|?]];
    eauto. right. right. by rewrite <- Hp.
Qed.

Section pack_schedule_facts.

Variable upper : str → str.

Lemma pack_cdfs_intro files ss cs debug read_error wo co ft0 st ste fso padding hdr
    ents_b log :
  intern_files upper files [0] ∅ 1 = Return (ft0, st, ste) →
  align_first_sector (header_size + len ft0 * 16 + len st) ss
  = Return (fso, padding) →
  struct_pack [CDFS_MAGIC; CDFS_VERSION; ss; cs; fso;
               (assign_sectors ft0 ss 0).2; len ft0 * 16;
               len (assign_sectors ft0 ss 0).1; len st; ste]
  = Return hdr →
  pack_file_table (assign_sectors ft0 ss 0).1 = Return ents_b →
  report_results debug
    (foldr Z.add 0 ((λ e, size (pe_file e)) <$> (assign_sectors ft0 ss 0).1))
    (co (snd <$> process_file_tasks read_error 0 (assign_sectors ft0 ss 0).1 ss fso))
    0 0 = Return log →
  pack_cdfs upper files ss cs debug read_error wo co
  = Return (apply_writes
              (wo (concat (fst <$> process_file_tasks read_error 0
                                     (assign_sectors ft0 ss 0).1 ss fso)))
              (write_at (preamble hdr ents_b st padding)
                 (fso + (assign_sectors ft0 ss 0).2 * ss - 1) [0]),
            log, true).
Proof.
  intros Hi Ha Hh He Hr. unfold pack_cdfs. rewrite Hi. cbn [bind].
  rewrite Ha. cbn [bind].
  destruct (assign_sectors ft0 ss 0) as [ft total] eqn:Hs.
  cbn [fst snd] in *. rewrite Hh. cbn [bind]. rewrite He. cbn [bind].
  rewrite Hr. cbn [bind]. done.
Qed.

(** C9.  Packing the same files with the same sector size and cache-size
    hint gives the same archive, byte for byte, whatever the order in which
    the workers write and complete: if one scheduling returns an archive,
    every scheduling returns and gives that archive. *)
Theorem pack_deterministic (files : list file_info) (sector_size cache_size : Z)
    (debug_mode : bool) (read_error : string → option string)
    (write_order1 write_order2 : list write_op → list write_op)
    (completion_order1 completion_order2
       : list task_result → list task_result)
    (archive : bytes) (log : list report) (returned : bool) :
  (∀ l, write_order1 l ≡ₚ l) → (∀ l, completion_order1 l ≡ₚ l) →
  (∀ l, write_order2 l ≡ₚ l) → (∀ l, completion_order2 l ≡ₚ l) →
  pack_cdfs upper files sector_size cache_size debug_mode read_error
    write_order1 completion_order1 = Return (archive, log, returned) →
  ∃ log',
    pack_cdfs upper files sector_size cache_size debug_mode read_error
      write_order2 completion_order2 = Return (archive, log', returned).
Proof.
  intros Hw1 Hc1 Hw2 Hc2 Hpack.
  destruct (pack_cdfs_canonical upper _ _ _ _ _ _ _ _ _ _ Hw1 Hpack)
    as (ft0 & st & ste & fso & padding & hdr & ents_b
        & Hi & Ha & Hh & He & _ & _ & _ & _ & _ & _ & _ & _ & _ & _
        & -> & Hr & ->).
  assert (∃ log',
            report_results debug_mode
              (foldr Z.add 0 ((λ e, size (pe_file e))
                              <$> (assign_sectors ft0 sector_size 0).1))
              (completion_order2
                 (snd <$> process_file_tasks read_error 0
                            (assign_sectors ft0 sector_size 0).1
                            sector_size fso)) 0 0 = Return log')
    as [log' Hr'].
  { eapply report_results_perm; [|exact Hr]. by rewrite Hc1, Hc2. }
  exists log'.
  pose proof (pack_cdfs_intro files sector_size cache_size debug_mode
                read_error write_order2 completion_order2 _ _ _ _ _ _ _ _
                Hi Ha Hh He Hr') as Hpack2.
  destruct (pack_cdfs_canonical upper _ _ _ _ _ _ _ _ _ _ Hw2 Hpack2)
    as (ft0' & st' & ste' & fso' & padding' & hdr' & ents_b'
        & Hi' & Ha' & Hh' & He' & _ & _ & _ & _ & _ & _ & _ & _ & _ & _
        & HF & _ & _).
  rewrite Hi in Hi'. injection Hi' as <- <- <-.
  rewrite Ha in Ha'. injection Ha' as <- <-.
  rewrite Hh in Hh'. injection Hh' as <-.
  rewrite He in He'. injection He' as <-.
  rewrite Hpack2. by rewrite HF.
Qed.

End pack_schedule_facts.

(** ** Deduplication *)

Section dedup_claims.

Variable upper : str → str.

(** In the interning loop of a pack run (names whose upper-cased forms hold
    no NUL), which returns whenever the names can be encoded: the directory
    that [os.path.split] gave for a file has exactly one entry in the final
    string table, the file's entry references the offset of that entry, and
    every other file with the same directory references the same offset,
    however many such files there are. *)
Lemma directory_entry_shared (files : list file_info) :
  Forall (names_nul_free upper) files →
  (Forall (names_encodable upper) files →
   ∃ r, intern_files upper files [0] ∅ 1 = Return r) ∧
  ∀ file_table string_table n,
    intern_files upper files [0] ∅ 1 = Return (file_table, string_table, n) →
    length file_table = length files ∧
    ∀ i f e,
      files !! i = Some f → file_table !! i = Some e →
      ∃ enc,
        utf8_encode (upper (dir_name f)) = Some enc ∧
        filter (λ x, x = enc) (table_entries string_table) = [enc] ∧
        good_offset string_table (upper (dir_name f)) (pe_dir_name_offset e) ∧
        ∀ j f' e',
          files !! j = Some f' → file_table !! j = Some e' →
          dir_name f' = dir_name f →
          pe_dir_name_offset e' = pe_dir_name_offset e.
Proof.
  intros Hnul.
  pose proof (intern_files_spec upper files [0] ∅ [] 1 table_inv_init Hnul)
    as Hspec.
  split.
  - intros Henc.
    destruct (intern_files upper files [0] ∅ 1) as [r|e]; [by eexists|].
    destruct Hspec as [_ Hex]. exfalso.
    apply Exists_exists in Hex as (f & Hf & Hn).
    rewrite Forall_forall in Henc. by apply Hn, Henc.
  - intros ft st n Hrun. rewrite Hrun in Hspec.
    destruct Hspec as (new & cache & Hinv & _ & Hall & _).
    cbn [app] in Hinv, Hall.
    split; [symmetry; by eapply Forall2_length|].
    intros i f e Hf He.
    destruct (Forall2_lookup_lr _ _ _ _ _ _ Hall Hf He)
      as (_ & _ & Hat & Hc & _).
    destruct (entry_at_unique _ _ _ _ _ Hinv Hat) as (enc & Henc & Huniq).
    exists enc. split; [done|]. split; [done|].
    split; [by eapply entry_at_good|].
    intros j f' e' Hf' He' Hdir.
    destruct (Forall2_lookup_lr _ _ _ _ _ _ Hall Hf' He')
      as (_ & _ & _ & Hc' & _).
    rewrite Hdir, Hc in Hc'. congruence.
Qed.

End dedup_claims.

Section posix_claims.

Variable upper : str → str.

(** C8, the failing runs.  On a POSIX host the claim fails for every
    tree: [pack_cdfs] replaces the slashes of the relative path by
    backslashes before it calls [os.path.split], which then finds nothing to
    cut at.  In the interning loop of such a run (the upper-cased form of
    the empty string is empty, the upper-cased names hold no NUL), which
    returns whenever the names can be encoded: every file-table entry has 0
    as its directory offset, the offset of the pre-seeded empty string,
    whatever the directory of its file; its name offset is that of the
    whole upper-cased relative path, backslashes included; and the string
    table holds no entry but the empty one and these whole paths, so that
    no directory has an entry. *)
Theorem posix_directories_not_stored (file_paths : list found_file) :
  upper [] = [] →
  Forall (names_nul_free upper) (split_rel_path Posix <$> file_paths) →
  (Forall (names_encodable upper) (split_rel_path Posix <$> file_paths) →
   ∃ r, intern_files upper (split_rel_path Posix <$> file_paths) [0] ∅ 1
        = Return r) ∧
  ∀ file_table string_table n,
    intern_files upper (split_rel_path Posix <$> file_paths) [0] ∅ 1
    = Return (file_table, string_table, n) →
    length file_table = length file_paths ∧
    (∀ i found e,
       file_paths !! i = Some found → file_table !! i = Some e →
       pe_dir_name_offset e = 0 ∧
       good_offset string_table
         (upper (replace_char slash backslash (rel_path found)))
         (pe_file_name_offset e)) ∧
    (∀ enc,
       enc ∈ table_entries string_table →
       enc = [] ∨
       ∃ found, found ∈ file_paths ∧
         utf8_encode (upper (replace_char slash backslash (rel_path found)))
         = Some enc).
Proof.
  intros Hup Hnul. split; [by apply intern_files_returns|].
  intros ft st n Hrun.
  pose proof (intern_files_spec upper _ [0] ∅ [] 1 table_inv_init Hnul)
    as Hspec.
  rewrite Hrun in Hspec.
  destruct Hspec as (new & cache & Hinv & _ & Hall & _).
  cbn [app] in Hinv, Hall.
  split; [|split].
  - rewrite <- (Forall2_length _ _ _ Hall). by rewrite length_fmap.
  - intros i found e Hf He.
    assert ((split_rel_path Posix <$> file_paths) !! i
            = Some (split_rel_path Posix found)) as Hf'
      by (by rewrite list_lookup_fmap, Hf).
    destruct (Forall2_lookup_lr _ _ _ _ _ _ Hall Hf' He)
      as (_ & _ & Hatd & _ & Hatf & _).
    rewrite split_rel_path_posix in Hatd, Hatf.
    cbn [dir_name file_name] in Hatd, Hatf. rewrite Hup in Hatd.
    split; [by eapply entry_at_empty|by eapply entry_at_good].
  - destruct (intern_files_new_entries upper _ _ _ _ _ _ _ _
                table_inv_init Hnul Hrun) as (new' & cache' & Hinv' & Hnew).
    cbn [app] in Hinv'.
    rewrite (inv_table _ _ _ Hinv'),
      (table_entries_flat _ (table_inv_nuls _ _ _ Hinv')).
    intros enc [->|Henc]%elem_of_cons; [by left|].
    rewrite Forall_forall in Hnew.
    destruct (Hnew _ Henc) as (f & Hf & Hname).
    apply list_elem_of_fmap in Hf as (found & -> & Hfound).
    rewrite split_rel_path_posix in Hname. cbn [dir_name file_name] in Hname.
    rewrite Hup in Hname.
    destruct Hname as [[= <-]|Hname]; [by left|].
    right. by exists found.
Qed.

End posix_claims.

(** ** The verifier *)

Lemma unpack_I_nonneg b : Forall is_byte b → 0 ≤ unpack_I b.
Proof.
  unfold unpack_I, is_byte. induction 1 as [|x b Hx _ IH]; simpl; lia.
Qed.

Lemma unpack_words_nonneg count :
  ∀ data, Forall is_byte data → Forall (λ v, 0 ≤ v) (unpack_words count data).
Proof.
  induction count as [|count IH]; intros data Hd; cbn [unpack_words].
  - constructor.
  - constructor; [apply unpack_I_nonneg; by apply Forall_take|].
    apply IH. by apply Forall_drop.
Qed.

Lemma unpack_header_nonneg data h :
  Forall is_byte data → unpack_header data = Return h →
  0 ≤ h_file_table_entries h ∧ 0 ≤ h_string_table_length h.
Proof.
  intros Hd. unfold unpack_header, struct_unpack.
  case_bool_decide; cbn [bind]; [|done].
  pose proof (unpack_words_nonneg 10 data Hd) as Hv.
  destruct (unpack_words 10 data)
    as [|a [|b [|c [|d [|e [|f [|g [|i [|j [|k [|? ?]]]]]]]]]]]; try done.
  intros [= <-]. cbn. repeat (apply Forall_cons in Hv as [? Hv]). done.
Qed.

Lemma slice_full {A} (f : list A) a b :
  0 ≤ a → a < b → b - a ≤ len (slice f a b) → b ≤ len f.
Proof.
  intros Ha Hab. unfold slice, len.
  rewrite length_take, length_drop. lia.
Qed.

Lemma verify_read_file_table_spec count :
  ∀ f pos i file_table,
    0 ≤ pos →
    verify_read_file_table count f pos i = inl file_table →
    read_file_table count f pos = Return file_table ∧
    ((0 < count)%nat → pos + 16 * Z.of_nat count ≤ len f).
Proof.
  induction count as [|count IH]; intros f pos i ft Hpos;
    cbn [verify_read_file_table read_file_table].
  { intros [= <-]. split; [done | lia]. }
  case_bool_decide as Hlen; [done|].
  destruct (unpack_entry (slice f pos (pos + 16))) as [e|]; [|done].
  destruct (verify_read_file_table count f (pos + 16) (i + 1))
    as [ft'|] eqn:Hrest; [|done].
  intros [= <-]. destruct (IH f (pos + 16) (i + 1) ft' ltac:(lia) Hrest)
    as [-> Hle].
  cbn [bind]. split; [done|]. intros _.
  destruct count as [|count'].
  - apply (slice_full f pos (pos + 16)); lia.
  - lia.
Qed.

Lemma verify_entries_spec file_table :
  ∀ idx std fso ss stl fsz,
    verify_entries file_table idx std fso ss stl fsz = None →
    Forall (entry_checked std fso ss stl fsz) file_table.
Proof.
  induction file_table as [|e ft IH]; intros idx std fso ss stl fsz;
    cbn [verify_entries]; [constructor|].
  repeat (case_bool_decide; [done|]).
  destruct (unpack_string_from_table std (entry_file_name_offset e))
    as [s1|] eqn:Hs1; [|done].
  destruct (unpack_string_from_table std (entry_dir_name_offset e))
    as [s2|] eqn:Hs2; [|done].
  intros Hrest. constructor; [|by eapply IH].
  unfold entry_checked. repeat split; eauto; lia.
Qed.

(** C6 (as amended).  For every archive of bytes that [verify_cdfs]
    accepts: the header decodes and its magic matches;
    [first_sector_offset] does not exceed the archive size;
    [file_table_entries * 16] equals [file_table_length]; the file table and
    the string table lie wholly within the archive; and for every entry the
    byte range [first_sector_offset + start_sector * sector_size + length]
    stays within the archive, both string offsets are below
    [string_table_length], and both strings decode. *)
Theorem verify_accepts (input_file : bytes) (log : list report) :
  Forall is_byte input_file →
  verify_cdfs input_file = (log, true) →
  ∃ h file_table,
    unpack_header (slice input_file 0 40) = Return h ∧
    h_magic h = CDFS_MAGIC ∧
    h_first_sector_offset h ≤ len input_file ∧
    h_file_table_entries h * 16 = h_file_table_length h ∧
    read_file_table (Z.to_nat (h_file_table_entries h)) input_file 40
    = Return file_table ∧
    40 + 16 * h_file_table_entries h + h_string_table_length h
    ≤ len input_file ∧
    Forall (entry_checked
              (slice input_file (40 + 16 * h_file_table_entries h)
                 (40 + 16 * h_file_table_entries h
                  + h_string_table_length h))
              (h_first_sector_offset h) (h_sector_size h)
              (h_string_table_length h) (len input_file))
      file_table.
Proof.
  intros Hbytes. unfold verify_cdfs.
  case_bool_decide as H40; [done|].
  destruct (unpack_header (slice input_file 0 40)) as [h|] eqn:Hh; [|done].
  case_bool_decide as Hmagic; [done|].
  case_bool_decide as Hfso; [done|].
  case_bool_decide as Hftl; [done|].
  destruct (verify_read_file_table _ _ _ _) as [ft|] eqn:Hft; [|done].
  case_bool_decide as Hstl; [done|].
  destruct (verify_entries _ _ _ _ _ _ _) as [d|] eqn:Hent; [done|].
  intros _. exists h, ft.
  destruct (unpack_header_nonneg _ _
              (Forall_take _ _ _ (Forall_drop _ _ _ Hbytes)) Hh)
    as [Hn0 Hs0].
  destruct (verify_read_file_table_spec _ input_file 40 0 ft ltac:(lia) Hft)
    as [Hread Hpresent].
  assert (40 ≤ len input_file) as Hlen40.
  { destruct (decide (40 ≤ len input_file)); [done|]. exfalso.
    apply H40. unfold slice, len in *.
    rewrite length_take, length_drop. lia. }
  split; [done|]. split; [done|]. split; [lia|]. split; [done|].
  split; [done|]. split.
  - destruct (decide (0 < h_string_table_length h)).
    + apply (slice_full input_file (40 + 16 * h_file_table_entries h)); lia.
    + destruct (decide (0 < h_file_table_entries h)); lia.
  - by eapply verify_entries_spec.
Qed.

(** ** The verifier on examples *)

(** C6 as stated fails: [verify_cdfs] accepts a header whose
    [first_sector_offset] is not a multiple of [sector_size], is smaller
    than the preamble, and whose sectors do not fit in the archive. *)
Lemma verify_accepts_loose_header :
  Forall is_byte loose_archive ∧
  verify_cdfs loose_archive = ([VerificationSuccessful], true) ∧
  ∃ h, unpack_header (slice loose_archive 0 40) = Return h ∧
       h_first_sector_offset h mod h_sector_size h ≠ 0 ∧
       h_first_sector_offset h
       < header_size + h_file_table_length h + h_string_table_length h ∧
       len loose_archive
       < h_total_sectors h * h_sector_size h + h_first_sector_offset h.
Proof.
  split; [apply (bool_decide_unpack _); by vm_compute|].
  split; [by vm_compute|].
  eexists. split; [by vm_compute|]. by vm_compute.
Qed.

Lemma verify_accepts_witness :
  Forall is_byte example_archive ∧
  verify_cdfs example_archive = ([VerificationSuccessful], true) ∧
  ∃ h file_table,
    unpack_header (slice example_archive 0 40) = Return h ∧
    h_magic h = CDFS_MAGIC ∧
    h_first_sector_offset h ≤ len example_archive ∧
    h_file_table_entries h * 16 = h_file_table_length h ∧
    read_file_table (Z.to_nat (h_file_table_entries h)) example_archive 40
    = Return file_table ∧
    40 + 16 * h_file_table_entries h + h_string_table_length h
    ≤ len example_archive ∧
    Forall (entry_checked
              (slice example_archive (40 + 16 * h_file_table_entries h)
                 (40 + 16 * h_file_table_entries h
                  + h_string_table_length h))
              (h_first_sector_offset h) (h_sector_size h)
              (h_string_table_length h) (len example_archive))
      file_table.
Proof.
  assert (Forall is_byte example_archive) as Hb
    by (apply (bool_decide_unpack _); by vm_compute).
  assert (verify_cdfs example_archive = ([VerificationSuccessful], true))
    as Hv by (by vm_compute).
  split; [exact Hb|]. split; [exact Hv|].
  exact (verify_accepts example_archive _ Hb Hv).
Defined.

(** ** Bad magic *)

(** C4, the failing input: the magic of a file of [0xFF] bytes does not
    match, and [unpack_cdfs] raises [UnicodeDecodeError] while formatting
    it, before the check that prints the error and returns [False]. *)
Theorem unpack_cdfs_bad_magic_raises :
  (∃ h, unpack_header (slice ff_archive 0 40) = Return h ∧
        h_magic h ≠ CDFS_MAGIC) ∧
  ∀ dest_error debug_mode completion_order,
    unpack_cdfs ff_archive dest_error debug_mode completion_order
    = Raise UnicodeDecodeError.
Proof.
  split; [eexists; split; [by vm_compute | by vm_compute]|].
  intros. by vm_compute.
Qed.

(** [verify_cdfs] rejects every bad magic and checks nothing else. *)
Lemma verify_cdfs_bad_magic input_file h :
  40 ≤ len input_file →
  unpack_header (slice input_file 0 40) = Return h →
  h_magic h ≠ CDFS_MAGIC →
  verify_cdfs input_file = ([InvalidFormat (h_magic h)], false).
Proof.
  intros Hlen Hh Hm. unfold verify_cdfs.
  rewrite bool_decide_false.
  2:{ unfold slice, len in *. rewrite length_take, length_drop. lia. }
  rewrite Hh. by rewrite bool_decide_true.
Qed.

(** [unpack_cdfs] does so when the four bytes of the magic are ASCII. *)
Lemma unpack_cdfs_bad_magic_ascii input_file h magic_bytes dest_error
    debug_mode completion_order :
  unpack_header (slice input_file 0 40) = Return h →
  pack_I_be (h_magic h) = Return magic_bytes →
  Forall (λ b, 0 ≤ b < 0x80) magic_bytes →
  h_magic h ≠ CDFS_MAGIC →
  unpack_cdfs input_file dest_error debug_mode completion_order
  = Return (∅, [InvalidFormat (h_magic h)], false).
Proof.
  intros Hh Hb Hascii Hm. unfold unpack_cdfs. rewrite Hh. cbn [bind].
  rewrite Hb. cbn [bind]. unfold ascii_decode.
  replace (forallb _ magic_bytes) with true.
  2:{ symmetry. apply forallb_forall. intros b Hin.
      apply bool_decide_eq_true. rewrite Forall_forall in Hascii.
      apply Hascii. by apply list_elem_of_In. }
  cbn [bind]. by rewrite bool_decide_true.
Qed.

(** A version mismatch only adds a warning. *)
Lemma verify_cdfs_version_warning :
  verify_cdfs (<[4%nat := 2]> example_archive)
  = ([VersionMismatch 2; VerificationSuccessful], true).
Proof. by vm_compute. Qed.

(** ** Reading back what [pack_cdfs] wrote *)

Lemma unpack_header_pack values hdr :
  struct_pack values = Return hdr → length values = 10%nat →
  ∃ h, unpack_header hdr = Return h ∧ header_fields h = values.
Proof.
  intros Hp Hl. unfold unpack_header.
  pose proof (struct_unpack_pack _ _ Hp) as Hu. rewrite Hl in Hu.
  rewrite Hu. cbn [bind].
  destruct values
    as [|a [|b [|c [|d [|e [|f [|g [|i [|j [|k [|? ?]]]]]]]]]]]; try done.
  by eexists.
Qed.

Lemma task_write_present read_error ss fso ft :
  ∀ idx e,
    e ∈ ft → read_error (path (pe_file e)) = None →
    (fso + pe_start_sector e * ss, data (pe_file e))
    ∈ concat (fst <$> process_file_tasks read_error idx ft ss fso).
Proof.
  induction ft as [|e0 ft IH]; intros idx e; [by rewrite elem_of_nil|].
  rewrite elem_of_cons. cbn [process_file_tasks fmap list_fmap concat].
  rewrite elem_of_app. intros [->|He] Hok.
  - left. unfold process_file_task. rewrite Hok. cbn [fst]. left.
  - right. by apply IH.
Qed.

Section readback_facts.

Variable upper : str → str.

(** What [unpack_cdfs] finds in an archive that [pack_cdfs] returned. *)
Lemma pack_cdfs_readback files ss cs debug read_error wo co F log b :
  (∀ l, wo l ≡ₚ l) →
  pack_cdfs upper files ss cs debug read_error wo co = Return (F, log, b) →
  ∃ h ft0 st ste fso,
    intern_files upper files [0] ∅ 1 = Return (ft0, st, ste) ∧
    unpack_header (slice F 0 40) = Return h ∧
    h_magic h = CDFS_MAGIC ∧ h_sector_size h = ss ∧
    h_first_sector_offset h = fso ∧
    h_file_table_entries h = len (assign_sectors ft0 ss 0).1 ∧
    h_string_table_length h = len st ∧
    read_file_table (length (assign_sectors ft0 ss 0).1) F 40
    = Return (stored_entry <$> (assign_sectors ft0 ss 0).1) ∧
    slice F (40 + 16 * len (assign_sectors ft0 ss 0).1)
      (40 + 16 * len (assign_sectors ft0 ss 0).1 + len st) = st ∧
    0 ≤ fso ∧ 0 < ss ∧
    Forall (λ e, 0 ≤ pe_start_sector e) (assign_sectors ft0 ss 0).1 ∧
    ∀ e, e ∈ (assign_sectors ft0 ss 0).1 →
         read_error (path (pe_file e)) = None →
         slice F (fso + pe_start_sector e * ss)
           (fso + pe_start_sector e * ss + size (pe_file e))
         = data (pe_file e).
Proof.
  intros Hwo Hpack.
  destruct (pack_cdfs_canonical upper _ _ _ _ _ _ _ _ _ _ Hwo Hpack)
    as (ft0 & st & ste & fso & padding & hdr & ents_b
        & Hi & Ha & Hh & He & Hss & HT & Hfso & Hmod & Hlhdr & Hlents & HP
        & Hinr & Hlo & Hdis & HF & _ & _).
  set (ft := (assign_sectors ft0 ss 0).1) in *.
  set (T := (assign_sectors ft0 ss 0).2) in *.
  set (ops := concat (fst <$> process_file_tasks read_error 0 ft ss fso)) in *.
  assert (0 ≤ T * ss) as HTs by (apply Z.mul_nonneg_nonneg; lia).
  assert (len (preamble hdr ents_b st padding ++ zeros (T * ss))
          = fso + T * ss) as HlenB by (rewrite len_app, HP, len_zeros; done).
  assert (take (Z.to_nat fso) F = preamble hdr ents_b st padding) as Htake.
  { rewrite HF, apply_writes_take; [|by rewrite HlenB|done].
    apply take_app_length'. unfold len in HP. lia. }
  destruct (assign_sectors_spec ss ft0 0) as (Hlen & _ & Hassign).
  assert (len ft = len ft0) as Hlenft by (unfold len; f_equal; exact Hlen).
  assert (∃ R, F = hdr ++ ents_b ++ st ++ R) as [R HFR].
  { exists ((if bool_decide (padding > 0) then zeros padding else [])
            ++ drop (Z.to_nat fso) F).
    rewrite <- (take_drop (Z.to_nat fso) F) at 1. rewrite Htake.
    unfold preamble. by rewrite <- !app_assoc. }
  destruct (unpack_header_pack _ _ Hh eq_refl) as (h & Hhdr & Hfields).
  injection Hfields as Hm _ Hs _ Hf _ _ Hn Hl _.
  pose proof (pack_file_table_spec _ _ He) as (_ & Hfit & Hread).
  exists h, ft0, st, ste, fso. fold ft.
  split; [done|]. split.
  { rewrite HFR. rewrite <- Hlhdr.
    change (slice (hdr ++ ents_b ++ st ++ R) 0 (len hdr))
      with (slice ([] ++ hdr ++ ents_b ++ st ++ R) (len (@nil Z))
              (len (@nil Z) + len hdr)).
    by rewrite slice_app_mid. }
  split; [done|]. split; [done|]. split; [done|]. split; [done|].
  split; [done|]. split.
  { rewrite HFR. apply Hread. done. }
  split.
  { rewrite HFR, (app_assoc hdr ents_b).
    apply slice_app_mid_at. rewrite len_app. lia. }
  split; [lia|]. split; [done|]. split.
  { apply Forall_forall. intros e [i Hi']%list_elem_of_lookup_1.
    destruct (Hassign i e Hi') as (_ & _ & _ & _ & _ & ->).
    assert (Forall (λ x, 0 ≤ x) (take i (sectors_needed ss ft0))) as Hnn
      by (by apply Forall_take, sectors_needed_nonneg).
    pose proof (Zsum_nonneg _ Hnn). lia. }
  intros e Hin Hok.
  pose proof (task_write_present read_error ss fso ft 0 e Hin Hok) as Hop.
  rewrite HF.
  apply (apply_writes_slice ops _ (fso + pe_start_sector e * ss,
                                   data (pe_file e)));
    [by rewrite HlenB | done | done].
Qed.

Lemma intern_files_files files :
  ∀ st cache n ft st' n',
    intern_files upper files st cache n = Return (ft, st', n') →
    pe_file <$> ft = files.
Proof.
  induction files as [|f files IH]; intros st cache n ft st' n';
    cbn [intern_files].
  { by intros [= <- _ _]. }
  destruct (add_string_to_table upper st cache (dir_name f))
    as [[[st1 c1] doff]|]; cbn [bind]; [|done].
  destruct (add_string_to_table upper st1 c1 (file_name f))
    as [[[st2 c2] foff]|]; cbn [bind]; [|done].
  destruct (intern_files upper files st2 c2 _) as [[[ft3 st3] n3]|] eqn:H3;
    cbn [bind]; [|done].
  intros [= <- _ _]. rewrite fmap_cons. cbn [pe_file]. f_equal. by eapply IH.
Qed.

Lemma assign_sectors_files ss ft0 c :
  pe_file <$> (assign_sectors ft0 ss c).1 = pe_file <$> ft0.
Proof.
  revert c. induction ft0 as [|e ft0 IH]; intros c; [done|].
  cbn [assign_sectors fst]. rewrite !fmap_cons. cbn [pe_file]. by rewrite IH.
Qed.

(** The string offsets stored for each file, after the layout. *)
Lemma interned_offsets files ss ft0 st ste :
  Forall (names_nul_free upper) files →
  intern_files upper files [0] ∅ 1 = Return (ft0, st, ste) →
  Forall2 (λ f e, pe_file e = f ∧
                  good_offset st (upper (dir_name f))
                    (pe_dir_name_offset e) ∧
                  good_offset st (upper (file_name f))
                    (pe_file_name_offset e))
    files (assign_sectors ft0 ss 0).1.
Proof.
  intros Hnul Hi.
  pose proof (intern_files_spec upper files [0] ∅ [] 1 table_inv_init Hnul)
    as Hspec. rewrite Hi in Hspec.
  destruct Hspec as (new & cache & Hinv & _ & Hall & _).
  cbn [app] in Hinv, Hall.
  destruct (assign_sectors_spec ss ft0 0) as (Hlen & _ & Hassign).
  apply Forall2_same_length_lookup.
  split; [by rewrite (Forall2_length _ _ _ Hall)|].
  intros i f e Hf' He'. destruct (Hassign i e He')
    as (e0 & He0 & Hfile & Hfn & Hdn & _).
  destruct (Forall2_lookup_lr _ _ _ _ _ _ Hall Hf' He0)
    as (Hpf & _ & Hatd & _ & Hatf & _).
  rewrite Hfile, Hfn, Hdn. split; [done|].
  split; by eapply entry_at_good.
Qed.

(** The header and the file table of an archive that [pack_cdfs]
    returned. *)
Lemma pack_cdfs_header files ss cs debug read_error wo co F log b ft0 st ste :
  (∀ l, wo l ≡ₚ l) →
  pack_cdfs upper files ss cs debug read_error wo co = Return (F, log, b) →
  intern_files upper files [0] ∅ 1 = Return (ft0, st, ste) →
  ∃ h fso padding,
    align_first_sector (header_size + len ft0 * 16 + len st) ss
    = Return (fso, padding) ∧
    unpack_header (slice F 0 40) = Return h ∧
    header_fields h
    = [CDFS_MAGIC; CDFS_VERSION; ss; cs; fso; (assign_sectors ft0 ss 0).2;
       len ft0 * 16; len (assign_sectors ft0 ss 0).1; len st; ste] ∧
    read_file_table (length (assign_sectors ft0 ss 0).1) F 40
    = Return (stored_entry <$> (assign_sectors ft0 ss 0).1).
Proof.
  intros Hwo Hpack Hi0.
  destruct (pack_cdfs_canonical upper _ _ _ _ _ _ _ _ _ _ Hwo Hpack)
    as (ft0' & st' & ste' & fso & padding & hdr & ents_b
        & Hi & Ha & Hh & He & Hss & HT & Hfso & Hmod & Hlhdr & Hlents & HP
        & Hinr & Hlo & Hdis & HF & _ & _).
  rewrite Hi0 in Hi. injection Hi as <- <- <-.
  set (ft := (assign_sectors ft0 ss 0).1) in *.
  set (T := (assign_sectors ft0 ss 0).2) in *.
  set (ops := concat (fst <$> process_file_tasks read_error 0 ft ss fso)) in *.
  assert (0 ≤ T * ss) as HTs by (apply Z.mul_nonneg_nonneg; lia).
  assert (len (preamble hdr ents_b st padding ++ zeros (T * ss))
          = fso + T * ss) as HlenB by (rewrite len_app, HP, len_zeros; done).
  assert (take (Z.to_nat fso) F = preamble hdr ents_b st padding) as Htake.
  { rewrite HF, apply_writes_take; [|by rewrite HlenB|done].
    apply take_app_length'. unfold len in HP. lia. }
  assert (∃ R, F = hdr ++ ents_b ++ st ++ R) as [R HFR].
  { exists ((if bool_decide (padding > 0) then zeros padding else [])
            ++ drop (Z.to_nat fso) F).
    rewrite <- (take_drop (Z.to_nat fso) F) at 1. rewrite Htake.
    unfold preamble. by rewrite <- !app_assoc. }
  destruct (unpack_header_pack _ _ Hh eq_refl) as (h & Hhdr & Hfields).
  pose proof (pack_file_table_spec _ _ He) as (_ & _ & Hread).
  exists h, fso, padding. split; [done|]. split; [|split; [done|]].
  - rewrite HFR. rewrite <- Hlhdr.
    change (slice (hdr ++ ents_b ++ st ++ R) 0 (len hdr))
      with (slice ([] ++ hdr ++ ents_b ++ st ++ R) (len (@nil Z))
              (len (@nil Z) + len hdr)).
    by rewrite slice_app_mid.
  - rewrite HFR. by apply Hread.
Qed.

(** C2.  For every list of discovered files, in discovery order, and every
    positive [sector_size], once the names are interned:
    [first_sector_offset] is the preamble size (40 + 16 per entry + the
    string table's length) rounded up to the next multiple of
    [sector_size]; the entries keep their order; the i-th entry gets as
    start sector the sum of the sector counts of the entries before it (so
    the first gets 0), a sector count being the size divided by
    [sector_size], rounded up; the total is the sum over all entries; and
    every archive [pack_cdfs] returns holds that [first_sector_offset] and
    that total in its header, and those start sectors in its file table. *)
Theorem layout_plan (files : list file_info) (sector_size : Z)
    (file_table : list pack_entry) (string_table : bytes)
    (string_table_entries : Z) :
  0 < sector_size →
  intern_files upper files [0] ∅ 1
  = Return (file_table, string_table, string_table_entries) →
  let preamble := header_size + len file_table * 16 + len string_table in
  ∃ first_sector_offset padding counts,
    align_first_sector preamble sector_size
    = Return (first_sector_offset, padding) ∧
    first_sector_offset mod sector_size = 0 ∧
    preamble ≤ first_sector_offset < preamble + sector_size ∧
    Forall2 (λ f n, is_ceil_div (size f) sector_size n) files counts ∧
    pe_file <$> (assign_sectors file_table sector_size 0).1 = files ∧
    (∀ i e, (assign_sectors file_table sector_size 0).1 !! i = Some e →
            pe_start_sector e = Zsum (take i counts)) ∧
    (assign_sectors file_table sector_size 0).2 = Zsum counts ∧
    ∀ cache_size debug_mode read_error write_order completion_order
      archive log returned,
      (∀ l, write_order l ≡ₚ l) →
      pack_cdfs upper files sector_size cache_size debug_mode read_error
        write_order completion_order = Return (archive, log, returned) →
      ∃ h,
        unpack_header (slice archive 0 40) = Return h ∧
        h_first_sector_offset h = first_sector_offset ∧
        h_total_sectors h = Zsum counts ∧
        read_file_table (length files) archive 40
        = Return (stored_entry
                  <$> (assign_sectors file_table sector_size 0).1).
Proof.
  intros Hss Hi preamble.
  destruct (align_first_sector_spec preamble sector_size Hss)
    as (fso & padding & Ha & Hm & Hr & _).
  destruct (assign_sectors_spec sector_size file_table 0) as (H1 & H2 & H3).
  pose proof (intern_files_files _ _ _ _ _ _ _ Hi) as Hfiles.
  exists fso, padding, (sectors_needed sector_size file_table).
  split; [done|]. split; [done|]. split; [done|]. split; [|split; [|split; [|split]]].
  - rewrite <- Hfiles. apply Forall2_fmap_l.
    apply (sectors_needed_ceil sector_size file_table Hss).
  - by rewrite assign_sectors_files.
  - intros i e He. destruct (H3 i e He) as (e0 & _ & _ & _ & _ & ->). lia.
  - rewrite H2. lia.
  - intros cs debug read_error wo co archive log b Hwo Hpack.
    destruct (pack_cdfs_header _ _ _ _ _ _ _ _ _ _ _ _ _ Hwo Hpack Hi)
      as (h & fso' & padding' & Ha' & Hh & Hfields & Hread).
    fold preamble in Ha'. rewrite Ha in Ha'. injection Ha' as <- <-.
    injection Hfields as _ _ _ _ Hf Ht _ _ _ _.
    exists h. split; [done|]. split; [done|]. split; [by rewrite Ht, H2|].
    rewrite <- Hread. f_equal. rewrite H1, <- Hfiles. by rewrite length_fmap.
Qed.

End readback_facts.

(** ** When [pack_cdfs] returns *)

Lemma Zsum_lookup_le l i x :
  Forall (λ y, 0 ≤ y) l → l !! i = Some x →
  0 ≤ Zsum (take i l) ∧ Zsum (take i l) + x ≤ Zsum l.
Proof.
  intros Hl Hi. split.
  - apply Zsum_nonneg. by apply Forall_take.
  - pose proof (Zsum_take_lt l Hl i (length l) x
                  (lookup_lt_Some _ _ _ Hi) Hi) as H.
    by rewrite firstn_all in H.
Qed.


Section pack_returns_planned.

Variable upper : str → str.



End pack_returns_planned.

(** ** Unpacking a packed archive *)

Lemma collect_unpacked_other input dest_error debug tasks :
  ∀ completed out p,
    p ∉ ft_file_path <$> tasks →
    (collect_unpacked input dest_error debug tasks completed out).1 !! p
    = out !! p.
Proof.
  induction tasks as [|t tasks IH]; intros completed out p Hp; [done|].
  rewrite fmap_cons, not_elem_of_cons in Hp. destruct Hp as [Hne Hp].
  cbn [collect_unpacked].
  destruct (unpack_file_task input dest_error t) as [contents|e]; cbn [fst].
  - rewrite IH by done. by rewrite lookup_insert_ne.
  - by rewrite IH.
Qed.

Lemma collect_unpacked_written input dest_error debug tasks :
  NoDup (ft_file_path <$> tasks) →
  ∀ completed out t contents,
    t ∈ tasks → unpack_file_task input dest_error t = Return contents →
    (collect_unpacked input dest_error debug tasks completed out).1
    !! ft_file_path t = Some contents.
Proof.
  induction tasks as [|t0 tasks IH]; intros Hnd completed out t contents;
    [by rewrite elem_of_nil|].
  rewrite fmap_cons in Hnd. apply NoDup_cons in Hnd as [Hfresh Hnd].
  rewrite elem_of_cons. intros [->|Hin] Hok; cbn [collect_unpacked].
  - rewrite Hok. cbn [fst]. rewrite collect_unpacked_other by done.
    by rewrite lookup_insert_eq.
  - destruct (unpack_file_task input dest_error t0); cbn [fst];
      by apply IH.
Qed.

Lemma collect_unpacked_dom input dest_error debug tasks :
  ∀ completed out p,
    is_Some ((collect_unpacked input dest_error debug tasks completed out).1
             !! p) →
    is_Some (out !! p) ∨ p ∈ ft_file_path <$> tasks.
Proof.
  induction tasks as [|t tasks IH]; intros completed out p; [by left|].
  cbn [collect_unpacked]. rewrite fmap_cons, elem_of_cons.
  destruct (unpack_file_task input dest_error t) as [contents|e]; cbn [fst];
    intros [H|H]%IH; auto.
  apply lookup_insert_is_Some in H as [?|[? ?]]; auto.
Qed.

Section roundtrip.

Variable upper : str → str.

Lemma make_file_tasks_spec st fso ss files ft :
  Forall2 (λ f e, pe_file e = f ∧
                  good_offset st (upper (dir_name f)) (pe_dir_name_offset e) ∧
                  good_offset st (upper (file_name f))
                    (pe_file_name_offset e)) files ft →
  make_file_tasks (stored_entry <$> ft) st fso ss
  = Return (task_of upper fso ss <$> ft).
Proof.
  induction 1 as [|f e files ft (Hf & Hd & Hn) _ IH]; [done|].
  rewrite !fmap_cons. cbn [make_file_tasks stored_entry
    entry_file_name_offset entry_dir_name_offset entry_start_sector
    entry_length].
  destruct Hd as (_ & _ & _ & _ & _ & _ & ->).
  destruct Hn as (_ & _ & _ & _ & _ & _ & ->). cbn [bind].
  rewrite IH. cbn [bind]. f_equal. f_equal.
  unfold task_of, dest_of. rewrite Hf. f_equal.
  by destruct (upper (dir_name f)).
Qed.


(** The file of the host that a destination names: what the file system
    makes of the path that [os.path.join] builds from [output_dir], the
    directory and the name.  Tasks that write different files do not
    interfere. *)
Context {F : Type} (file_of : dest_path → F).


End roundtrip.

(** ** Failing tasks *)

Lemma report_results_errors debug total rs :
  ∀ p c log,
    report_results debug total rs p c = Return log →
    ∀ idx sz msg, (idx, sz, inr msg) ∈ rs → ErrorPacking idx msg ∈ log.
Proof.
  induction rs as [|[[idx0 sz0] [path0|e0]] rs IH]; intros p c log;
    cbn [report_results].
  - intros _ idx sz msg. by rewrite elem_of_nil.
  - intros Hlog idx sz msg [[=]|Hin]%elem_of_cons.
    destruct debug.
    + case_bool_decide; [done|].
      destruct (report_results true total rs _ _) as [log'|] eqn:Hr;
        cbn [bind] in Hlog; [|done].
      injection Hlog as <-. do 2 right. by eapply IH.
    + by eapply IH.
  - destruct (report_results debug total rs _ _) as [log'|] eqn:Hr;
      cbn [bind]; [|done].
    intros [= <-] idx sz msg [[= -> -> ->]|Hin]%elem_of_cons; [left|].
    right. by eapply IH.
Qed.

Lemma task_failure_result read_error ss fso ft :
  ∀ idx i e msg,
    ft !! i = Some e → read_error (path (pe_file e)) = Some msg →
    (idx + Z.of_nat i, 0, inr msg)
    ∈ snd <$> process_file_tasks read_error idx ft ss fso.
Proof.
  induction ft as [|e0 ft IH]; intros idx i e msg; [done|].
  cbn [process_file_tasks]. rewrite fmap_cons.
  destruct i as [|i]; cbn [lookup list_lookup].
  - intros [= ->] Hmsg. unfold process_file_task. rewrite Hmsg. cbn [snd].
    rewrite Z.add_0_r. left.
  - intros He Hmsg. right.
    replace (idx + Z.of_nat (S i)) with (idx + 1 + Z.of_nat i) by lia.
    by apply (IH (idx + 1) i e msg).
Qed.

Lemma tasks_without_failure ss fso ft :
  ∀ idx,
    Forall (λ r : task_result, ∃ e, r.2 = inr e)
      (snd <$> process_file_tasks (λ _, None) idx ft ss fso) →
    ft = [].
Proof.
  destruct ft as [|e ft]; intros idx; [done|].
  cbn [process_file_tasks]. rewrite fmap_cons.
  intros [[msg Hmsg] _]%Forall_cons. done.
Qed.

Lemma collect_unpacked_siblings input dest_error debug tasks :
  ∀ completed completed' out out',
    (∀ p, dest_error p = None → out !! p = out' !! p) →
    ∀ p, dest_error p = None →
         (collect_unpacked input dest_error debug tasks completed out).1 !! p
         = (collect_unpacked input (λ _, None) debug tasks completed'
              out').1 !! p.
Proof.
  induction tasks as [|t tasks IH]; intros completed completed' out out' Hout;
    [done|].
  intros p Hp. cbn [collect_unpacked]. unfold unpack_file_task.
  destruct (dest_error (ft_file_path t)) as [msg|] eqn:Ht; cbn [fst].
  - apply IH; [|done]. intros q Hq. rewrite lookup_insert_ne; [by apply Hout|].
    intros <-. congruence.
  - apply IH; [|done]. intros q Hq.
    destruct (decide (ft_file_path t = q)) as [->|Hne].
    + by rewrite !lookup_insert_eq.
    + rewrite !lookup_insert_ne by done. by apply Hout.
Qed.

Lemma collect_unpacked_failed input dest_error debug tasks :
  ∀ completed out p msg,
    dest_error p = Some msg →
    (collect_unpacked input dest_error debug tasks completed out).1 !! p
    = out !! p ∧
    (p ∈ ft_file_path <$> tasks →
     ErrorUnpacking p msg
     ∈ (collect_unpacked input dest_error debug tasks completed out).2).
Proof.
  induction tasks as [|t tasks IH]; intros completed out p msg Hp.
  { split; [done|]. by rewrite fmap_nil, elem_of_nil. }
  cbn [collect_unpacked]. unfold unpack_file_task. rewrite fmap_cons.
  destruct (dest_error (ft_file_path t)) as [msg'|] eqn:Ht; cbn [fst snd].
  - destruct (IH completed out p msg Hp) as [IH1 IH2]. split; [done|].
    intros [->|Hin]%elem_of_cons.
    + rewrite Hp in Ht. injection Ht as <-. left.
    + right. auto.
  - destruct (IH (completed + 1)
                (<[ft_file_path t := copy_chunks
                                       (Z.to_nat (ft_file_length t)) input
                                       (ft_file_offset t)
                                       (ft_file_length t)]> out) p msg Hp)
      as [IH1 IH2].
    split.
    + rewrite IH1. apply lookup_insert_ne. intros <-. congruence.
    + intros [->|Hin]%elem_of_cons; [congruence|].
      destruct debug; [right|]; auto.
Qed.

Section failure_claims.

Variable upper : str → str.

(** C7 (as amended).  Take a run of [pack_cdfs] and a run of [unpack_cdfs]
    in which no task fails.  With the same inputs and any task failures:
    [pack_cdfs] still returns [True]; for each file whose read fails it
    prints the line of [ErrorPacking], which holds the index of the file
    and the text of the exception; and the archive holds the payload of
    every file whose read did not fail.  [unpack_cdfs] returns what it
    returned without failures ([True] whenever a task ran); for each
    destination that fails it prints the line of [ErrorUnpacking], which
    holds the destination path and the text of the exception, and creates
    no file there; and every other destination gets the same file. *)
Theorem task_failures_contained (files : list file_info)
    (sector_size cache_size : Z) (debug_mode : bool)
    (read_error : string → option string)
    (write_order0 write_order : list write_op → list write_op)
    (completion_order0 completion_order
       : list task_result → list task_result)
    (archive0 : bytes) (log0 : list report) (returned0 : bool)
    (input_file : bytes) (dest_error : dest_path → option string)
    (debug_mode' : bool)
    (completion_order' : list file_task → list file_task)
    (out0 : gmap dest_path bytes) (ulog0 : list report)
    (ureturned0 : bool) :
  (∀ l, write_order0 l ≡ₚ l) → (∀ l, write_order l ≡ₚ l) →
  (∀ l, completion_order0 l ≡ₚ l) → (∀ l, completion_order l ≡ₚ l) →
  pack_cdfs upper files sector_size cache_size debug_mode (λ _, None)
    write_order0 completion_order0 = Return (archive0, log0, returned0) →
  unpack_cdfs input_file (λ _, None) debug_mode' completion_order'
  = Return (out0, ulog0, ureturned0) →
  (∃ archive log,
     pack_cdfs upper files sector_size cache_size debug_mode read_error
       write_order completion_order = Return (archive, log, true) ∧
     returned0 = true ∧
     (∀ i f msg,
        files !! i = Some f → read_error (path f) = Some msg →
        ErrorPacking (Z.of_nat i) msg ∈ log) ∧
     (∀ i f,
        files !! i = Some f → read_error (path f) = None →
        archive_payload archive i = Some (data f))) ∧
  (∃ out ulog,
     unpack_cdfs input_file dest_error debug_mode' completion_order'
     = Return (out, ulog, ureturned0) ∧
     (∀ p, is_Some (out0 !! p) → ureturned0 = true) ∧
     (∀ p msg,
        dest_error p = Some msg → is_Some (out0 !! p) →
        ErrorUnpacking p msg ∈ ulog ∧ out !! p = None) ∧
     (∀ p, dest_error p = None → out !! p = out0 !! p)).
Proof.
  intros Hwo0 Hwo Hco0 Hco Hpack0 Hunpack0. split.
  - destruct (pack_cdfs_canonical upper _ _ _ _ _ _ _ _ _ _ Hwo0 Hpack0)
      as (ft0 & st & ste & fso & padding & hdr & ents_b
          & Hi & Ha & Hh & He & _ & _ & _ & _ & _ & _ & _ & _ & _ & _
          & _ & Hr0 & ->).
    set (ft := (assign_sectors ft0 sector_size 0).1) in *.
    assert (∃ log,
              report_results debug_mode
                (foldr Z.add 0 ((λ e, size (pe_file e)) <$> ft))
                (completion_order
                   (snd <$> process_file_tasks read_error 0 ft
                              sector_size fso)) 0 0 = Return log)
      as [log Hr].
    { apply report_results_returns.
      destruct (proj1 (report_results_returns _ _ _ _ _)
                  (ex_intro _ log0 Hr0)) as [?|[?|Hall]]; [auto..|].
      right. right.
      assert (ft = []) as ->; [|by rewrite Hco].
      eapply (tasks_without_failure sector_size fso ft 0).
      eapply Forall_forall. intros r Hin. rewrite Forall_forall in Hall.
      apply Hall. by rewrite Hco0. }
    pose proof (pack_cdfs_intro upper files sector_size cache_size debug_mode
                  read_error write_order completion_order _ _ _ _ _ _ _ _
                  Hi Ha Hh He Hr) as Hpack.
    match type of Hpack with
    | _ = Return (?a, _, _) => generalize dependent a
    end.
    intros archive Hpack.
    exists archive, log. split; [exact Hpack|]. split; [done|].
    assert (pe_file <$> ft = files) as Hfiles.
    { subst ft. rewrite assign_sectors_files.
      by eapply intern_files_files. }
    split.
    + intros i f msg Hf Hmsg.
      eapply report_results_errors; [exact Hr|]. rewrite Hco.
      rewrite <- Hfiles, list_lookup_fmap in Hf.
      destruct (ft !! i) as [e|] eqn:Hei; [|done]. injection Hf as <-.
      apply (task_failure_result read_error sector_size fso ft 0 i e msg);
        done.
    + intros i f Hf Hok.
      destruct (pack_cdfs_readback upper _ _ _ _ _ _ _ _ _ _ Hwo Hpack)
        as (h & ft0' & st' & ste' & fso' & Hi' & Hhdr & _ & Hss & Hfso & Hn
            & _ & Hread & _ & _ & _ & _ & Hdata).
      rewrite Hi in Hi'. injection Hi' as <- <- <-. fold ft in Hn, Hread, Hdata.
      rewrite <- Hfiles, list_lookup_fmap in Hf.
      destruct (ft !! i) as [e|] eqn:Hei; [|done]. injection Hf as <-.
      unfold archive_payload. rewrite Hhdr, Hn, to_nat_len, Hread.
      rewrite list_lookup_fmap, Hei. cbn. rewrite Hss, Hfso. f_equal.
      apply Hdata; [by eapply list_elem_of_lookup_2 | done].
  - unfold unpack_cdfs in *.
    destruct (unpack_header (slice input_file 0 40)) as [h|];
      cbn [bind] in *; [|done].
    destruct (pack_I_be (h_magic h)) as [mb|]; cbn [bind] in *; [|done].
    destruct (ascii_decode mb) as [mt|]; cbn [bind] in *; [|done].
    case_bool_decide.
    { injection Hunpack0 as <- <- <-. eexists _, _. split; [done|].
      split; [|split].
      - intros p. rewrite lookup_empty. by intros [? ?].
      - intros p msg _. rewrite lookup_empty. by intros [? ?].
      - done. }
    destruct (read_file_table _ _ _) as [file_table|]; cbn [bind] in *;
      [|done].
    destruct (make_file_tasks _ _ _ _) as [tasks|]; cbn [bind] in *; [|done].
    injection Hunpack0 as <- <- <-. eexists _, _. split; [done|].
    split; [done|]. split.
    + intros p msg Hp Hsome.
      apply collect_unpacked_dom in Hsome as [Hsome|Hin].
      { rewrite lookup_empty in Hsome. by destruct Hsome. }
      destruct (collect_unpacked_failed input_file dest_error debug_mode'
                  (completion_order' tasks) 0 ∅ p msg Hp) as [H1 H2].
      split; [by apply H2|]. by rewrite H1, lookup_empty.
    + intros p Hp. by apply collect_unpacked_siblings.
Qed.

End failure_claims.

(** ** The claims on the examples *)

Lemma layout_plan_witness :
  0 < 8 ∧
  intern_files ascii_upper example_files [0] ∅ 1
  = Return (example_table, example_string_table, 4) ∧
  let preamble :=
    header_size + len example_table * 16 + len example_string_table in
  ∃ first_sector_offset padding counts,
    align_first_sector preamble 8 = Return (first_sector_offset, padding) ∧
    first_sector_offset mod 8 = 0 ∧
    preamble ≤ first_sector_offset < preamble + 8 ∧
    Forall2 (λ f n, is_ceil_div (size f) 8 n) example_files counts ∧
    pe_file <$> (assign_sectors example_table 8 0).1 = example_files ∧
    (∀ i e, (assign_sectors example_table 8 0).1 !! i = Some e →
            pe_start_sector e = Zsum (take i counts)) ∧
    (assign_sectors example_table 8 0).2 = Zsum counts ∧
    ∀ cache_size debug_mode read_error write_order completion_order
      archive log returned,
      (∀ l, write_order l ≡ₚ l) →
      pack_cdfs ascii_upper example_files 8 cache_size debug_mode read_error
        write_order completion_order = Return (archive, log, returned) →
      ∃ h,
        unpack_header (slice archive 0 40) = Return h ∧
        h_first_sector_offset h = first_sector_offset ∧
        h_total_sectors h = Zsum counts ∧
        read_file_table (length example_files) archive 40
        = Return (stored_entry <$> (assign_sectors example_table 8 0).1).
Proof.
  assert (0 < 8) as H1 by lia.
  assert (intern_files ascii_upper example_files [0] ∅ 1
          = Return (example_table, example_string_table, 4)) as H2
    by (vm_compute; reflexivity).
  split; [exact H1|]. split; [exact H2|].
  exact (layout_plan ascii_upper example_files 8 example_table
           example_string_table 4 H1 H2).
Defined.

Lemma planned_ranges_disjoint_witness :
  let ei := {| pe_file_name_offset := 5; pe_dir_name_offset := 1;
               pe_file := {| path := "in/sub/a.txt"; dir_name := py "sub";
                             file_name := py "a.txt";
                             data := [1; 2; 3; 4; 5] |};
               pe_start_sector := 0 |} in
  let ej := {| pe_file_name_offset := 11; pe_dir_name_offset := 1;
               pe_file := {| path := "in/sub/b.txt"; dir_name := py "sub";
                             file_name := py "b.txt";
                             data := [9; 8; 7; 6; 5; 4; 3; 2; 1] |};
               pe_start_sector := 1 |} in
  0 < 8 ∧ 0%nat ≠ 1%nat ∧
  (assign_sectors example_table 8 0).1 !! 0%nat = Some ei ∧
  (assign_sectors example_table 8 0).1 !! 1%nat = Some ej ∧
  is_ceil_div (size (pe_file ei)) 8 1 ∧
  is_ceil_div (size (pe_file ej)) 8 2 ∧
  let bi := 112 + pe_start_sector ei * 8 in
  let bj := 112 + pe_start_sector ej * 8 in
  (bi + 1 * 8 ≤ bj ∨ bj + 2 * 8 ≤ bi) ∧
  (∀ idx op,
     op ∈ (process_file_task (λ _, None) idx ei 8 112).1 →
     bi ≤ op.1 ∧ op.1 + len op.2 ≤ bi + 1 * 8).
Proof.
  intros ei ej.
  assert (0 < 8) as H1 by lia.
  assert (0%nat ≠ 1%nat) as H2 by lia.
  assert ((assign_sectors example_table 8 0).1 !! 0%nat = Some ei) as H3
    by reflexivity.
  assert ((assign_sectors example_table 8 0).1 !! 1%nat = Some ej) as H4
    by reflexivity.
  assert (is_ceil_div (size (pe_file ei)) 8 1) as H5
    by (unfold is_ceil_div; vm_compute; split; [done | discriminate]).
  assert (is_ceil_div (size (pe_file ej)) 8 2) as H6
    by (unfold is_ceil_div; vm_compute; split; [done | discriminate]).
  repeat (split; [assumption|]).
  exact (planned_ranges_disjoint example_table 8 112 (λ _, None) 0 1 ei ej
           1 2 H1 H2 H3 H4 H5 H6).
Defined.

Lemma posix_directories_not_stored_witness :
  ascii_upper [] = [] ∧
  Forall (names_nul_free ascii_upper) (split_rel_path Posix <$> posix_walk) ∧
  ((Forall (names_encodable ascii_upper)
      (split_rel_path Posix <$> posix_walk) →
    ∃ r, intern_files ascii_upper (split_rel_path Posix <$> posix_walk)
           [0] ∅ 1 = Return r) ∧
   (∀ file_table string_table n,
      intern_files ascii_upper (split_rel_path Posix <$> posix_walk) [0] ∅ 1
      = Return (file_table, string_table, n) →
      length file_table = length posix_walk ∧
      (∀ i found e,
         posix_walk !! i = Some found → file_table !! i = Some e →
         pe_dir_name_offset e = 0 ∧
         good_offset string_table
           (ascii_upper (replace_char slash backslash (rel_path found)))
           (pe_file_name_offset e)) ∧
      (∀ enc,
         enc ∈ table_entries string_table →
         enc = [] ∨
         ∃ found, found ∈ posix_walk ∧
           utf8_encode
             (ascii_upper (replace_char slash backslash (rel_path found)))
           = Some enc))) ∧
  intern_files ascii_upper (split_rel_path Posix <$> posix_walk) [0] ∅ 1
  = Return (posix_table, posix_string_table, 4) ∧
  pe_dir_name_offset <$> posix_table = [0; 0; 0] ∧
  pe_file_name_offset <$> posix_table = [1; 11; 21] ∧
  table_entries posix_string_table
  = [py ""; py "SUB\A.TXT"; py "SUB\B.TXT"; py "C"].
Proof.
  assert (ascii_upper [] = []) as H1 by reflexivity.
  assert (Forall (names_nul_free ascii_upper)
            (split_rel_path Posix <$> posix_walk)) as H2
    by (apply (bool_decide_unpack _); vm_compute; exact I).
  repeat (split; [assumption|]).
  split; [exact (posix_directories_not_stored ascii_upper posix_walk H1 H2)|].
  repeat split; vm_compute; reflexivity.
Defined.

Lemma pack_deterministic_witness :
  (∀ l : list write_op, id l ≡ₚ l) ∧
  (∀ l : list task_result, id l ≡ₚ l) ∧
  (∀ l : list write_op, reverse l ≡ₚ l) ∧
  (∀ l : list task_result, reverse l ≡ₚ l) ∧
  pack_cdfs ascii_upper example_files 8 131072 false (λ _, None) id id
  = Return (example_archive, [], true) ∧
  ∃ log',
    pack_cdfs ascii_upper example_files 8 131072 false (λ _, None)
      reverse reverse = Return (example_archive, log', true).
Proof.
  assert (∀ l : list write_op, id l ≡ₚ l) as H1 by (intros l; reflexivity).
  assert (∀ l : list task_result, id l ≡ₚ l) as H2
    by (intros l; reflexivity).
  assert (∀ l : list write_op, reverse l ≡ₚ l) as H3
    by (intros l; apply reverse_Permutation).
  assert (∀ l : list task_result, reverse l ≡ₚ l) as H4
    by (intros l; apply reverse_Permutation).
  assert (pack_cdfs ascii_upper example_files 8 131072 false (λ _, None)
            id id = Return (example_archive, [], true)) as H5
    by (vm_compute; reflexivity).
  repeat (split; [assumption|]).
  exact (pack_deterministic ascii_upper example_files 8 131072 false
           (λ _, None) id reverse id reverse example_archive [] true
           H1 H2 H3 H4 H5).
Defined.



(** In debug mode the progress line of [pack_cdfs] divides by the total
    size of the files: when every file is empty the division raises, with
    or without a failing task. *)
Lemma pack_cdfs_debug_empty_raises :
  let files := [ {| path := "in/e"; dir_name := [];
                    file_name := py "e"; data := [] |} ] in
  pack_cdfs ascii_upper files 8 131072 true (λ _, None) id id
  = Raise ZeroDivisionError ∧
  ∃ archive,
    pack_cdfs ascii_upper files 8 131072 false (λ _, None) id id
    = Return (archive, [], true).
Proof. split; [vm_compute; reflexivity|]. eexists. vm_compute. reflexivity. Qed.

(** C7 as stated fails: for a read that fails in a packing task, the only
    line printed holds the index of the file and the text of the
    exception; the path of the file is not in it. *)
Lemma pack_error_report_omits_path :
  let files := [ {| path := "in/a.bin"; dir_name := [];
                    file_name := py "a.bin"; data := [7; 7; 7] |} ] in
  let message := "[Errno 5] Input/output error"%string in
  ∃ archive,
    pack_cdfs ascii_upper files 8 131072 false (λ _, Some message) id id
    = Return (archive, [ErrorPacking 0 message], true) ∧
    String.index 0 "in/a.bin" message = None.
Proof. eexists. split; [vm_compute; reflexivity | reflexivity]. Qed.

Lemma task_failures_contained_witness :
  (∀ l : list write_op, id l ≡ₚ l) ∧
  (∀ l : list write_op, reverse l ≡ₚ l) ∧
  (∀ l : list task_result, id l ≡ₚ l) ∧
  (∀ l : list task_result, reverse l ≡ₚ l) ∧
  pack_cdfs ascii_upper example_files 8 131072 false (λ _, None) id id
  = Return (example_archive, [], true) ∧
  unpack_cdfs example_archive (λ _, None) false id
  = Return (example_unpacked.1.1, example_unpacked.1.2, example_unpacked.2) ∧
  (∃ archive log,
     pack_cdfs ascii_upper example_files 8 131072 false example_read_error
       reverse reverse = Return (archive, log, true) ∧
     true = true ∧
     (∀ i f msg,
        example_files !! i = Some f →
        example_read_error (path f) = Some msg →
        ErrorPacking (Z.of_nat i) msg ∈ log) ∧
     (∀ i f,
        example_files !! i = Some f → example_read_error (path f) = None →
        archive_payload archive i = Some (data f))) ∧
  (∃ out ulog,
     unpack_cdfs example_archive example_dest_error false id
     = Return (out, ulog, example_unpacked.2) ∧
     (∀ p, is_Some (example_unpacked.1.1 !! p) → example_unpacked.2 = true) ∧
     (∀ p msg,
        example_dest_error p = Some msg →
        is_Some (example_unpacked.1.1 !! p) →
        ErrorUnpacking p msg ∈ ulog ∧ out !! p = None) ∧
     (∀ p, example_dest_error p = None →
           out !! p = example_unpacked.1.1 !! p)).
Proof.
  assert (∀ l : list write_op, id l ≡ₚ l) as H1 by (intros l; reflexivity).
  assert (∀ l : list write_op, reverse l ≡ₚ l) as H2
    by (intros l; apply reverse_Permutation).
  assert (∀ l : list task_result, id l ≡ₚ l) as H3
    by (intros l; reflexivity).
  assert (∀ l : list task_result, reverse l ≡ₚ l) as H4
    by (intros l; apply reverse_Permutation).
  assert (pack_cdfs ascii_upper example_files 8 131072 false (λ _, None)
            id id = Return (example_archive, [], true)) as H5
    by (vm_compute; reflexivity).
  assert (unpack_cdfs example_archive (λ _, None) false id
          = Return (example_unpacked.1.1, example_unpacked.1.2,
                    example_unpacked.2)) as H6
    by (vm_compute; reflexivity).
  repeat (split; [assumption|]).
  exact (task_failures_contained ascii_upper example_files 8 131072 false
           example_read_error id reverse id reverse example_archive [] true
           example_archive example_dest_error false id
           example_unpacked.1.1 example_unpacked.1.2 example_unpacked.2
           H1 H2 H3 H4 H5 H6).
Defined.

(** * Further properties *)

(** ** The layout of the archive *)

Lemma zeros_app a b : 0 ≤ a → 0 ≤ b → zeros (a + b) = zeros a ++ zeros b.
Proof.
  intros. unfold zeros. rewrite Z2Nat.inj_add by lia.
  by rewrite replicate_add.
Qed.

Lemma write_at_app_mid (P X Y d : bytes) :
  len X = len d → write_at (P ++ X ++ Y) (len P) d = P ++ d ++ Y.
Proof.
  intros HX. pose proof (len_nonneg P). pose proof (len_nonneg Y).
  rewrite write_at_in_range by (rewrite ?len_app; lia).
  rewrite to_nat_len, take_app_length. f_equal. f_equal.
  replace (Z.to_nat (len P + len d)) with (length P + length X)%nat
    by (unfold len in *; lia).
  by rewrite drop_app_add, drop_app_length.
Qed.

(** The padding of a task brings the data to the sectors the planner
    counted. *)
Lemma sector_padding_formula a ss :
  0 < ss → 0 ≤ a →
  (ss - a mod ss) mod ss = (a + ss - 1) / ss * ss - a ∧
  0 ≤ (ss - a mod ss) mod ss < ss.
Proof.
  intros Hss Ha. pose proof (Z.mod_pos_bound a ss Hss) as Hr.
  pose proof (Z.div_mod a ss ltac:(lia)) as Hd.
  split; [|apply Z.mod_pos_bound; lia].
  destruct (decide (a mod ss = 0)) as [H0|Hne].
  - rewrite H0, Z.sub_0_r, Z.mod_same by lia.
    assert ((a + ss - 1) / ss = a / ss) as ->; [|lia].
    symmetry. apply (Z.div_unique _ _ _ (ss - 1)); lia.
  - rewrite Z.mod_small by lia.
    assert ((a + ss - 1) / ss = a / ss + 1) as ->; [|lia].
    symmetry. apply (Z.div_unique _ _ _ (a mod ss - 1)); lia.
Qed.

(** A task overwrites the sectors reserved for its entry, whatever they
    held, with the data of the file followed by zeros, and touches nothing
    else; a task whose read fails writes nothing. *)
Lemma process_file_task_apply read_error idx e ss fso (P X Y : bytes) :
  0 < ss →
  len P = fso + pe_start_sector e * ss →
  len X = (size (pe_file e) + ss - 1) / ss * ss →
  apply_writes (process_file_task read_error idx e ss fso).1 (P ++ X ++ Y)
  = P ++ match read_error (path (pe_file e)) with
         | Some _ => X
         | None => data (pe_file e)
                   ++ zeros ((size (pe_file e) + ss - 1) / ss * ss
                             - size (pe_file e))
         end ++ Y.
Proof.
  intros Hss HP HX. unfold process_file_task.
  destruct (read_error _); [done|].
  pose proof (len_nonneg (data (pe_file e))) as Hsz.
  destruct (sector_padding_formula (len (data (pe_file e))) ss Hss Hsz)
    as [Hpad Hpadr].
  fold (size (pe_file e)) in *. rewrite <- Hpad.
  set (pad := (ss - size (pe_file e) mod ss) mod ss) in *.
  cbn [fst]. rewrite apply_writes_cons. cbn [fst snd].
  rewrite <- (take_drop (Z.to_nat (size (pe_file e))) X), <- app_assoc.
  assert (len (take (Z.to_nat (size (pe_file e))) X) = size (pe_file e)) as H1.
  { unfold len in *. rewrite length_take. lia. }
  assert (len (drop (Z.to_nat (size (pe_file e))) X) = pad) as H2.
  { unfold len in *. rewrite length_drop. lia. }
  rewrite <- HP, write_at_app_mid by done.
  case_bool_decide.
  - rewrite apply_writes_cons. cbn [fst snd apply_writes foldl].
    rewrite (app_assoc P).
    replace (len P + size (pe_file e))
      with (len (P ++ data (pe_file e))) by (by rewrite len_app).
    rewrite write_at_app_mid by (by rewrite len_zeros by lia).
    by rewrite <- !app_assoc.
  - cbn [apply_writes foldl]. assert (pad = 0) as H0 by lia.
    rewrite H0 in *. change (zeros 0) with (@nil Z). rewrite app_nil_r.
    destruct (drop _ X); [done|].
    rewrite len_cons in H2. pose proof (len_nonneg l). lia.
Qed.

Lemma file_sectors_len read_error ss f :
  0 < ss → len (file_sectors read_error ss f) = (size f + ss - 1) / ss * ss.
Proof.
  intros Hss. unfold file_sectors.
  pose proof (len_nonneg (data f)) as Hsz. fold (size f) in Hsz.
  destruct (sector_padding_formula (size f) ss Hss Hsz) as [Hpad Hpadr].
  destruct (read_error _).
  - rewrite len_zeros; lia.
  - rewrite len_app, len_zeros; unfold size in *; lia.
Qed.

(** The tasks of a file table, run on a file that holds zeros where the
    sectors will be, leave the sectors of the files one after the other. *)
Lemma tasks_apply_layout read_error ss fso ft :
  0 < ss →
  ∀ c idx (P Y : bytes),
    len P = fso + c * ss →
    apply_writes
      (concat (fst <$> process_file_tasks read_error idx
                         (assign_sectors ft ss c).1 ss fso))
      (P ++ zeros (Zsum (sectors_needed ss ft) * ss) ++ Y)
    = P ++ concat (file_sectors read_error ss <$> (pe_file <$> ft)) ++ Y.
Proof.
  intros Hss. induction ft as [|e ft IH]; intros c idx P Y HP.
  { done. }
  cbn [assign_sectors fst snd process_file_tasks fmap list_fmap concat].
  rewrite apply_writes_app, sectors_needed_cons, Zsum_cons.
  pose proof (Zsum_nonneg _ (sectors_needed_nonneg ss ft Hss)) as HS.
  pose proof (sectors_needed_nonneg ss (e :: ft) Hss) as Hn.
  rewrite sectors_needed_cons in Hn. apply Forall_cons in Hn as [Hn _].
  set (n := (size (pe_file e) + ss - 1) / ss) in *.
  rewrite Z.mul_add_distr_r, zeros_app by (apply Z.mul_nonneg_nonneg; lia).
  rewrite <- app_assoc.
  rewrite process_file_task_apply; cbn [pe_file pe_start_sector];
    [|done|done|by rewrite len_zeros by (apply Z.mul_nonneg_nonneg; lia)].
  fold n.
  assert (match read_error (path (pe_file e)) with
          | Some _ => zeros (n * ss)
          | None => data (pe_file e) ++ zeros (n * ss - size (pe_file e))
          end = file_sectors read_error ss (pe_file e)) as -> by done.
  rewrite (app_assoc P). rewrite IH.
  - by rewrite <- !app_assoc.
  - rewrite len_app, file_sectors_len by done. fold n. lia.
Qed.

Lemma file_sectors_concat_len read_error ss files :
  0 < ss →
  len (concat (file_sectors read_error ss <$> files))
  = Zsum ((λ f, (size f + ss - 1) / ss) <$> files) * ss.
Proof.
  intros Hss. induction files as [|f fs IH]; [done|].
  rewrite !fmap_cons. cbn [concat].
  rewrite len_app, IH, Zsum_cons, file_sectors_len by done. lia.
Qed.

Section pack_layout.

Variable upper : str → str.

(** X1.  The archive [pack_cdfs] returns is the 40-byte header, 16 bytes per
    file, the string table, zeros up to the next multiple of the sector
    size, and then the sectors of the files in discovery order, whatever the
    scheduling and whichever reads failed. *)
Theorem pack_archive_layout (files : list file_info)
    (sector_size cache_size : Z) (debug_mode : bool)
    (read_error : string → option string)
    (write_order : list write_op → list write_op)
    (completion_order : list task_result → list task_result)
    (archive : bytes) (log : list report) (returned : bool) :
  (∀ l, write_order l ≡ₚ l) →
  pack_cdfs upper files sector_size cache_size debug_mode read_error
    write_order completion_order = Return (archive, log, returned) →
  ∃ file_table string_table string_table_entries hdr entries padding,
    intern_files upper files [0] ∅ 1
    = Return (file_table, string_table, string_table_entries) ∧
    struct_pack [CDFS_MAGIC; CDFS_VERSION; sector_size; cache_size;
                 40 + 16 * len files + len string_table + padding;
                 Zsum ((λ f, (size f + sector_size - 1) / sector_size)
                       <$> files);
                 16 * len files; len files; len string_table;
                 string_table_entries]
    = Return hdr ∧
    pack_file_table (assign_sectors file_table sector_size 0).1
    = Return entries ∧
    len hdr = 40 ∧ len entries = 16 * len files ∧
    0 ≤ padding < sector_size ∧
    (40 + 16 * len files + len string_table + padding) mod sector_size = 0 ∧
    archive = hdr ++ entries ++ string_table ++ zeros padding
              ++ concat (file_sectors read_error sector_size <$> files) ∧
    len archive
    = 40 + 16 * len files + len string_table + padding
      + Zsum ((λ f, (size f + sector_size - 1) / sector_size) <$> files)
        * sector_size.
Proof.
  intros Hwo Hpack.
  destruct (pack_cdfs_canonical upper _ _ _ _ _ _ _ _ _ _ Hwo Hpack)
    as (ft0 & st & ste & fso & padding & hdr & ents_b & Hi & Ha & Hh & He
        & Hss & HT & Hfso & Hmod & Hlh & Hle & HP & _ & _ & _ & HF & _ & _).
  destruct (align_first_sector_spec (header_size + len ft0 * 16 + len st)
              sector_size Hss) as (fso' & padding' & Ha' & _ & Hrange & Hpad).
  rewrite Ha in Ha'. injection Ha' as <- <-.
  pose proof (intern_files_files upper _ _ _ _ _ _ _ Hi) as Hfiles.
  assert (len ft0 = len files) as Hlen.
  { unfold len. by rewrite <- Hfiles, length_fmap. }
  destruct (assign_sectors_spec sector_size ft0 0) as (Hlft & Htot & _).
  rewrite Z.add_0_l in Htot. rewrite Htot in HF, Hh.
  rewrite <- (app_nil_r (zeros _)) in HF.
  rewrite tasks_apply_layout in HF by (rewrite ?Z.mul_0_l; lia).
  rewrite app_nil_r, Hfiles in HF. unfold header_size in *.
  assert (preamble hdr ents_b st padding
          = hdr ++ ents_b ++ st ++ zeros padding) as HPe.
  { unfold preamble. case_bool_decide; [done|].
    replace padding with 0 by lia. done. }
  assert (sectors_needed sector_size ft0
          = (λ f, (size f + sector_size - 1) / sector_size) <$> files) as Hsn.
  { unfold sectors_needed. by rewrite <- Hfiles, <- list_fmap_compose. }
  exists ft0, st, ste, hdr, ents_b, padding.
  split; [done|]. split.
  { rewrite <- Hh, Hsn.
    assert (len (assign_sectors ft0 sector_size 0).1 = len files) as ->
      by (unfold len in *; lia).
    replace (40 + 16 * len files + len st + padding) with fso by lia.
    by replace (16 * len files) with (len ft0 * 16) by lia. }
  split; [done|]. split; [done|]. split; [lia|].
  split; [lia|]. split.
  { replace (40 + 16 * len files + len st + padding) with fso by lia. done. }
  split.
  { rewrite HF, HPe. by rewrite <- !app_assoc. }
  rewrite HF, len_app, HP, file_sectors_concat_len by done. lia.
Qed.

End pack_layout.

(** ** The verifier accepts what passes its checks *)

Lemma unpack_entry_length entry_data e :
  unpack_entry entry_data = Return e → len entry_data = 16.
Proof.
  unfold unpack_entry, struct_unpack. case_bool_decide; [|done].
  intros _. unfold len. lia.
Qed.

Lemma unpack_header_length header_data h :
  unpack_header header_data = Return h → len header_data = 40.
Proof.
  unfold unpack_header, struct_unpack. case_bool_decide; [|done].
  intros _. unfold len. lia.
Qed.

Lemma verify_read_file_table_complete count :
  ∀ f pos i file_table,
    read_file_table count f pos = Return file_table →
    verify_read_file_table count f pos i = inl file_table.
Proof.
  induction count as [|count IH]; intros f pos i ft;
    cbn [verify_read_file_table read_file_table].
  { by intros [= <-]. }
  destruct (unpack_entry (slice f pos (pos + 16))) as [e|] eqn:He;
    cbn [bind]; [|done].
  destruct (read_file_table count f (pos + 16)) as [ft'|] eqn:Hrest;
    cbn [bind]; [|done].
  intros [= <-]. rewrite (unpack_entry_length _ _ He).
  case_bool_decide; [lia|]. by rewrite (IH _ _ (i + 1) _ Hrest).
Qed.

Lemma verify_entries_complete file_table :
  ∀ idx std fso ss stl fsz,
    Forall (entry_checked std fso ss stl fsz) file_table →
    verify_entries file_table idx std fso ss stl fsz = None.
Proof.
  induction file_table as [|e ft IH]; intros idx std fso ss stl fsz Hall;
    cbn [verify_entries]; [done|].
  apply Forall_cons in Hall as [(He & Hf & Hd & [s1 Hs1] & [s2 Hs2]) Hall].
  repeat (case_bool_decide; [lia|]).
  rewrite Hs1, Hs2. by apply IH.
Qed.

Lemma verify_cdfs_intro input_file h file_table :
  unpack_header (slice input_file 0 40) = Return h →
  h_magic h = CDFS_MAGIC →
  h_first_sector_offset h ≤ len input_file →
  h_file_table_entries h * 16 = h_file_table_length h →
  read_file_table (Z.to_nat (h_file_table_entries h)) input_file 40
  = Return file_table →
  0 ≤ h_file_table_entries h → 0 ≤ h_string_table_length h →
  40 + 16 * h_file_table_entries h + h_string_table_length h
  ≤ len input_file →
  Forall (entry_checked
            (slice input_file (40 + 16 * h_file_table_entries h)
               (40 + 16 * h_file_table_entries h + h_string_table_length h))
            (h_first_sector_offset h) (h_sector_size h)
            (h_string_table_length h) (len input_file))
    file_table →
  verify_cdfs input_file
  = ((if bool_decide (h_version h ≠ CDFS_VERSION)
      then [VersionMismatch (h_version h)] else [])
     ++ [VerificationSuccessful], true).
Proof.
  intros Hh Hmagic Hfso Hftl Hread Hn0 Hs0 Hlen Hall. unfold verify_cdfs.
  rewrite (unpack_header_length _ _ Hh), Hh.
  case_bool_decide; [lia|]. case_bool_decide; [done|].
  case_bool_decide; [lia|]. case_bool_decide; [done|].
  rewrite (verify_read_file_table_complete _ _ _ 0 _ Hread).
  rewrite slice_length by lia.
  case_bool_decide; [lia|].
  by rewrite (verify_entries_complete _ _ _ _ _ _ _ Hall).
Qed.

(** X2.  [verify_cdfs] accepts every archive of bytes that passes the checks
    it makes: it returns [True], prints no diagnostic, prints the version
    warning exactly when the version is not 1, and prints the line of
    success.  With the theorem of C6, it accepts exactly those archives. *)
Theorem verify_cdfs_complete (input_file : bytes) (h : header)
    (file_table : list entry) :
  Forall is_byte input_file →
  unpack_header (slice input_file 0 40) = Return h →
  h_magic h = CDFS_MAGIC →
  h_first_sector_offset h ≤ len input_file →
  h_file_table_entries h * 16 = h_file_table_length h →
  read_file_table (Z.to_nat (h_file_table_entries h)) input_file 40
  = Return file_table →
  40 + 16 * h_file_table_entries h + h_string_table_length h
  ≤ len input_file →
  Forall (entry_checked
            (slice input_file (40 + 16 * h_file_table_entries h)
               (40 + 16 * h_file_table_entries h + h_string_table_length h))
            (h_first_sector_offset h) (h_sector_size h)
            (h_string_table_length h) (len input_file))
    file_table →
  verify_cdfs input_file
  = ((if bool_decide (h_version h ≠ CDFS_VERSION)
      then [VersionMismatch (h_version h)] else [])
     ++ [VerificationSuccessful], true).
Proof.
  intros Hbytes Hh Hmagic Hfso Hftl Hread Hlen Hall.
  destruct (unpack_header_nonneg _ _
              (Forall_take _ _ _ (Forall_drop _ _ _ Hbytes)) Hh)
    as [Hn0 Hs0].
  by eapply verify_cdfs_intro.
Qed.

(** ** Verifying a packed archive *)

Section pack_verify.

Variable upper : str → str.

(** The entries of a packed archive end within the sectors planned. *)
Lemma assign_sectors_within ss ft i e :
  0 < ss →
  (assign_sectors ft ss 0).1 !! i = Some e →
  0 ≤ pe_start_sector e ∧
  pe_start_sector e * ss + size (pe_file e) ≤ (assign_sectors ft ss 0).2 * ss.
Proof.
  intros Hss He.
  destruct (assign_sectors_spec ss ft 0) as (_ & Htot & Hent).
  destruct (Hent _ _ He) as (e0 & He0 & Hf & _ & _ & Hstart).
  rewrite Htot, Hstart, !Z.add_0_l, Hf.
  assert (sectors_needed ss ft !! i
          = Some ((size (pe_file e0) + ss - 1) / ss)) as Hn.
  { unfold sectors_needed. by rewrite list_lookup_fmap, He0. }
  destruct (Zsum_lookup_le _ _ _ (sectors_needed_nonneg ss ft Hss) Hn)
    as [H0 Hle].
  split; [done|].
  pose proof (ceil_div_formula (size (pe_file e0)) ss Hss) as [_ Hc].
  nia.
Qed.

(** X3.  Every archive [pack_cdfs] returns for files with NUL-free names is
    accepted by [verify_cdfs], without a warning, whatever the scheduling
    and whichever reads failed. *)
Theorem pack_verify (files : list file_info) (sector_size cache_size : Z)
    (debug_mode : bool) (read_error : string → option string)
    (write_order : list write_op → list write_op)
    (completion_order : list task_result → list task_result)
    (archive : bytes) (log : list report) (returned : bool) :
  (∀ l, write_order l ≡ₚ l) →
  Forall (names_nul_free upper) files →
  pack_cdfs upper files sector_size cache_size debug_mode read_error
    write_order completion_order = Return (archive, log, returned) →
  verify_cdfs archive = ([VerificationSuccessful], true).
Proof.
  intros Hwo Hnul Hpack.
  destruct (pack_cdfs_canonical upper _ _ _ _ _ _ _ _ _ _ Hwo Hpack)
    as (ft0 & st & ste & fso & padding & hdr & ents_b & Hi & Ha & Hh & He
        & Hss & HT & Hfso & Hmod & Hlh & Hle & HP & Hin & _ & _ & HF & _ & _).
  destruct (pack_cdfs_header upper _ _ _ _ _ _ _ _ _ _ _ _ _ Hwo Hpack Hi)
    as (h & fso' & padding' & Ha' & Hu & Hfields & Hread).
  rewrite Ha in Ha'. injection Ha' as <- <-.
  pose proof (interned_offsets upper files sector_size ft0 st ste Hnul Hi)
    as Hall.
  destruct (pack_cdfs_readback upper _ _ _ _ _ _ _ _ _ _ Hwo Hpack)
    as (h' & ft0' & st' & ste' & fso2 & Hi' & Hu' & _ & _ & _ & _ & _ & _
        & Hst & _).
  rewrite Hi in Hi'. injection Hi' as <- <- <-. clear Hu'.
  set (ft := (assign_sectors ft0 sector_size 0).1) in *.
  set (T := (assign_sectors ft0 sector_size 0).2) in *.
  destruct h as [m v s c f t ftl fte stl n]. cbn in Hfields.
  injection Hfields as -> -> -> -> -> -> -> -> -> ->.
  assert (len archive = fso + T * sector_size) as Hlen.
  { rewrite HF, apply_writes_len.
    - rewrite len_app, HP, len_zeros; [done|].
      apply Z.mul_nonneg_nonneg; lia.
    - rewrite len_app, HP, len_zeros; [done|].
      apply Z.mul_nonneg_nonneg; lia. }
  assert (len ft = len ft0) as Hlft.
  { unfold len, ft. by destruct (assign_sectors_spec sector_size ft0 0)
      as (-> & _). }
  pose proof (len_nonneg ft0). pose proof (len_nonneg st).
  assert (0 ≤ T * sector_size) by (apply Z.mul_nonneg_nonneg; lia).
  destruct (align_first_sector_spec (header_size + len ft0 * 16 + len st)
              sector_size Hss) as (fso3 & padding3 & Ha3 & _ & Hrange & _).
  rewrite Ha in Ha3. injection Ha3 as <- <-. unfold header_size in *.
  rewrite (verify_cdfs_intro archive _ (stored_entry <$> ft) Hu);
    cbn [h_magic h_version h_first_sector_offset h_file_table_entries
         h_file_table_length h_string_table_length h_sector_size];
    try done; try lia.
  - rewrite <- Hread. f_equal. unfold len. lia.
  - rewrite Hst. apply Forall_fmap, Forall_lookup. intros i e Hie.
    destruct (Forall2_lookup_r _ _ _ _ _ Hall Hie)
      as (f & _ & _ & Hd & Hn).
    destruct (assign_sectors_within sector_size ft0 i e Hss Hie) as [? ?].
    unfold entry_checked. cbn.
    destruct Hd as (Hd1 & _ & _ & _ & _ & _ & Hd2).
    destruct Hn as (Hn1 & _ & _ & _ & _ & _ & Hn2).
    fold T in H3. repeat split; eauto; lia.
Qed.

End pack_verify.

(** ** Reading an archive that the verifier accepts *)

Lemma verify_cdfs_accepted input_file log :
  verify_cdfs input_file = (log, true) →
  ∃ h file_table,
    unpack_header (slice input_file 0 40) = Return h ∧
    h_magic h = CDFS_MAGIC ∧
    read_file_table (Z.to_nat (h_file_table_entries h)) input_file 40
    = Return file_table ∧
    Forall (entry_checked
              (slice input_file (40 + 16 * h_file_table_entries h)
                 (40 + 16 * h_file_table_entries h
                  + h_string_table_length h))
              (h_first_sector_offset h) (h_sector_size h)
              (h_string_table_length h) (len input_file))
      file_table.
Proof.
  unfold verify_cdfs.
  case_bool_decide as H40; [done|].
  destruct (unpack_header (slice input_file 0 40)) as [h|] eqn:Hh; [|done].
  case_bool_decide as Hmagic; [done|].
  case_bool_decide as Hfso; [done|].
  case_bool_decide as Hftl; [done|].
  destruct (verify_read_file_table _ _ _ _) as [ft|] eqn:Hft; [|done].
  case_bool_decide as Hstl; [done|].
  destruct (verify_entries _ _ _ _ _ _ _) as [d|] eqn:Hent; [done|].
  intros _. exists h, ft.
  destruct (verify_read_file_table_spec _ input_file 40 0 ft ltac:(lia) Hft)
    as [Hread _].
  split; [done|]. split; [lia|]. split; [done|].
  by eapply verify_entries_spec.
Qed.

Lemma read_file_table_length count :
  ∀ f pos file_table,
    read_file_table count f pos = Return file_table →
    length file_table = count.
Proof.
  induction count as [|count IH]; intros f pos ft; cbn [read_file_table].
  { by intros [= <-]. }
  destruct (unpack_entry _); cbn [bind]; [|done].
  destruct (read_file_table count f (pos + 16)) as [ft'|] eqn:Hrest;
    cbn [bind]; [|done].
  intros [= <-]. simpl. by rewrite (IH _ _ _ Hrest).
Qed.

Lemma list_rows_checked file_table :
  ∀ idx std fso ss stl fsz,
    Forall (entry_checked std fso ss stl fsz) file_table →
    ∃ rows, list_rows file_table idx std = (rows, None) ∧
            length rows = length file_table.
Proof.
  induction file_table as [|e ft IH]; intros idx std fso ss stl fsz Hall;
    cbn [list_rows]; [by exists []|].
  apply Forall_cons in Hall as [(_ & _ & _ & [s1 Hs1] & [s2 Hs2]) Hall].
  rewrite Hs1, Hs2.
  destruct (IH (idx + 1) _ _ _ _ _ Hall) as (rows & -> & Hlen).
  eexists. split; [done|]. simpl. by rewrite Hlen.
Qed.

Lemma make_file_tasks_checked file_table :
  ∀ std fso ss stl fsz,
    Forall (entry_checked std fso ss stl fsz) file_table →
    ∃ tasks, make_file_tasks file_table std fso ss = Return tasks ∧
             length tasks = length file_table.
Proof.
  induction file_table as [|e ft IH]; intros std fso ss stl fsz Hall;
    cbn [make_file_tasks]; [by exists []|].
  apply Forall_cons in Hall as [(_ & _ & _ & [s1 Hs1] & [s2 Hs2]) Hall].
  rewrite Hs1, Hs2. cbn [bind].
  destruct (IH _ _ _ _ _ Hall) as (tasks & -> & Hlen). cbn [bind].
  eexists. split; [done|]. simpl. by rewrite Hlen.
Qed.

(** X4.  On an archive that [verify_cdfs] accepts, [list_cdfs] and
    [unpack_cdfs] raise nothing and return [True]: the listing has one row
    per entry of the file table, and the unpacking reaches its end whichever
    destinations fail and in whatever order the tasks run. *)
Theorem verified_archive_readable (input_file : bytes) (log : list report) :
  verify_cdfs input_file = (log, true) →
  (∃ h rows,
     unpack_header (slice input_file 0 40) = Return h ∧
     list_cdfs input_file
     = (ListSummary (h_version h) (h_file_table_entries h) (h_sector_size h)
          (len input_file) (h_total_sectors h) :: rows, Return true) ∧
     length rows = Z.to_nat (h_file_table_entries h)) ∧
  ∀ dest_error debug_mode completion_order,
    ∃ out ulog,
      unpack_cdfs input_file dest_error debug_mode completion_order
      = Return (out, ulog, true).
Proof.
  intros Hv.
  destruct (verify_cdfs_accepted _ _ Hv) as (h & ft & Hh & Hmagic & Hread
                                              & Hall).
  split.
  - destruct (list_rows_checked ft 0 _ _ _ _ _ Hall) as (rows & Hrows & Hlen).
    exists h, rows. split; [done|]. unfold list_cdfs.
    rewrite Hh. case_bool_decide; [done|]. rewrite Hread. cbn zeta.
    rewrite Hrows. split; [done|].
    by rewrite Hlen, (read_file_table_length _ _ _ _ Hread).
  - intros dest_error debug_mode co. unfold unpack_cdfs.
    rewrite Hh. cbn [bind]. rewrite Hmagic.
    change (pack_I_be CDFS_MAGIC) with (Return [0x43; 0x44; 0x46; 0x53]).
    cbn [bind]. change (ascii_decode [0x43; 0x44; 0x46; 0x53])
      with (Return (A:=str) [0x43; 0x44; 0x46; 0x53]). cbn [bind].
    case_bool_decide; [done|]. rewrite Hread. cbn [bind].
    destruct (make_file_tasks_checked ft _ _ _ _ _ Hall) as (tasks & -> & _).
    cbn [bind]. eauto.
Qed.

(** ** Listing a packed archive *)

Section pack_list.

Variable upper : str → str.

Lemma list_rows_packed st files ft :
  Forall2 (λ f e, pe_file e = f ∧
                  good_offset st (upper (dir_name f)) (pe_dir_name_offset e) ∧
                  good_offset st (upper (file_name f))
                    (pe_file_name_offset e)) files ft →
  ∀ idx,
    list_rows (stored_entry <$> ft) idx st
    = (imap (λ i f, ListRow (idx + Z.of_nat i) (size f)
                      (listed_path upper f)) files, None).
Proof.
  induction 1 as [|f e files ft (Hf & Hd & Hn) _ IH]; intros idx; [done|].
  rewrite fmap_cons. cbn [list_rows stored_entry entry_file_name_offset
    entry_dir_name_offset entry_length].
  destruct Hd as (_ & _ & _ & _ & _ & _ & ->).
  destruct Hn as (_ & _ & _ & _ & _ & _ & ->).
  rewrite IH. cbn [fst snd imap]. f_equal. f_equal.
  - rewrite Hf, Z.add_0_r. unfold listed_path.
    by destruct (upper (dir_name f)).
  - apply imap_ext. intros i x _. cbn. f_equal. lia.
Qed.

(** X5.  [list_cdfs] on an archive [pack_cdfs] returned for files with
    NUL-free names returns [True] and shows, in discovery order, one row per
    file with its index, its size and its upper-cased path, whichever reads
    failed during packing. *)
Theorem pack_list (files : list file_info) (sector_size cache_size : Z)
    (debug_mode : bool) (read_error : string → option string)
    (write_order : list write_op → list write_op)
    (completion_order : list task_result → list task_result)
    (archive : bytes) (log : list report) (returned : bool) :
  (∀ l, write_order l ≡ₚ l) →
  Forall (names_nul_free upper) files →
  pack_cdfs upper files sector_size cache_size debug_mode read_error
    write_order completion_order = Return (archive, log, returned) →
  list_cdfs archive
  = (ListSummary CDFS_VERSION (len files) sector_size (len archive)
       (Zsum ((λ f, (size f + sector_size - 1) / sector_size) <$> files))
     :: imap (λ i f, ListRow (Z.of_nat i) (size f) (listed_path upper f))
          files,
     Return true).
Proof.
  intros Hwo Hnul Hpack.
  destruct (pack_cdfs_readback upper _ _ _ _ _ _ _ _ _ _ Hwo Hpack)
    as (h' & ft0 & st & ste & fso & Hi & Hu' & _ & _ & _ & _ & _ & _
        & Hst & Hfso0 & Hss & _).
  destruct (pack_cdfs_header upper _ _ _ _ _ _ _ _ _ _ _ _ _ Hwo Hpack Hi)
    as (h & fso' & padding' & Ha' & Hu & Hfields & Hread).
  pose proof (interned_offsets upper files sector_size ft0 st ste Hnul Hi)
    as Hall.
  pose proof (intern_files_files upper _ _ _ _ _ _ _ Hi) as Hfiles.
  destruct (assign_sectors_spec sector_size ft0 0) as (Hlen & Htot & _).
  set (ft := (assign_sectors ft0 sector_size 0).1) in *.
  destruct h as [m v s c f t ftl fte stl n]. cbn in Hfields.
  injection Hfields as -> -> -> -> -> -> -> -> -> ->.
  unfold list_cdfs. rewrite Hu.
  cbn [h_magic h_version h_first_sector_offset h_file_table_entries
       h_file_table_length h_string_table_length h_sector_size
       h_total_sectors].
  case_bool_decide; [done|].
  replace (Z.to_nat (len ft)) with (length ft) by (unfold len; lia).
  rewrite Hread. cbn zeta. rewrite Hst.
  rewrite (list_rows_packed st files ft Hall 0).
  cbn [fst snd]. f_equal. f_equal. f_equal.
  - unfold len. by rewrite Hlen, <- Hfiles, length_fmap.
  - rewrite Htot, Z.add_0_l. unfold sectors_needed.
    by rewrite <- Hfiles, <- list_fmap_compose.
Qed.

End pack_list.

(** ** Unpacking an archive packed with failures *)

Lemma file_sectors_payload read_error ss f :
  0 < ss →
  ∃ rest, file_sectors read_error ss f = stored_payload read_error f ++ rest ∧
          len (stored_payload read_error f) = size f.
Proof.
  intros Hss. unfold file_sectors, stored_payload.
  pose proof (len_nonneg (data f)) as Hsz. fold (size f) in Hsz.
  destruct (sector_padding_formula (size f) ss Hss Hsz) as [Hpad Hpadr].
  destruct (read_error _).
  - exists (zeros ((size f + ss - 1) / ss * ss - size f)).
    rewrite <- zeros_app, len_zeros by lia. split; [f_equal; lia | done].
  - eauto.
Qed.

Section pack_payload.

Variable upper : str → str.

(** The bytes a packed archive designates for each entry. *)
Lemma pack_cdfs_payload files ss cs debug read_error wo co F log b ft0 st ste
    fso padding i e :
  (∀ l, wo l ≡ₚ l) →
  pack_cdfs upper files ss cs debug read_error wo co = Return (F, log, b) →
  intern_files upper files [0] ∅ 1 = Return (ft0, st, ste) →
  align_first_sector (header_size + len ft0 * 16 + len st) ss
  = Return (fso, padding) →
  (assign_sectors ft0 ss 0).1 !! i = Some e →
  slice F (fso + pe_start_sector e * ss)
    (fso + pe_start_sector e * ss + size (pe_file e))
  = stored_payload read_error (pe_file e).
Proof.
  intros Hwo Hpack Hi Ha He.
  destruct (pack_cdfs_canonical upper _ _ _ _ _ _ _ _ _ _ Hwo Hpack)
    as (ft0' & st' & ste' & fso' & padding' & hdr & ents_b & Hi' & Ha' & _ & _
        & Hss & HT & Hfso & Hmod & Hlh & Hle & HP & _ & _ & _ & HF & _ & _).
  rewrite Hi in Hi'. injection Hi' as <- <- <-.
  rewrite Ha in Ha'. injection Ha' as <- <-.
  destruct (assign_sectors_spec ss ft0 0) as (_ & Htot & Hent).
  rewrite Z.add_0_l in Htot. rewrite Htot in HF.
  rewrite <- (app_nil_r (zeros _)) in HF.
  rewrite tasks_apply_layout in HF by (rewrite ?Z.mul_0_l; lia).
  rewrite app_nil_r in HF.
  destruct (Hent _ _ He) as (e0 & He0 & Hf & _ & _ & Hstart).
  rewrite Z.add_0_l in Hstart.
  assert ((pe_file <$> ft0) !! i = Some (pe_file e)) as Hfi
    by (by rewrite list_lookup_fmap, He0, Hf).
  rewrite <- (take_drop_middle _ _ _ Hfi), fmap_app, fmap_cons, concat_app
    in HF.
  cbn [concat] in HF.
  destruct (file_sectors_payload read_error ss (pe_file e) Hss)
    as (rest & Hfs & Hlen).
  rewrite Hfs, <- app_assoc, app_assoc in HF. rewrite HF, <- Hlen.
  apply slice_app_mid_at.
  rewrite len_app, HP, file_sectors_concat_len, Hstart by done.
  f_equal. f_equal. unfold sectors_needed.
  by rewrite <- !fmap_take, <- list_fmap_compose.
Qed.

End pack_payload.

Section roundtrip_failures.

Variable upper : str → str.

(** X6.  Packing with failing reads, then unpacking: [pack_cdfs] still
    stores an entry with the size of every file whose read failed, so
    [unpack_cdfs] creates it, filled with that many zeros; every other file
    is recreated with its data. *)
Theorem pack_unpack_with_failures (files : list file_info)
    (sector_size cache_size : Z) (debug_mode debug_mode' : bool)
    (read_error : string → option string)
    (write_order : list write_op → list write_op)
    (completion_order : list task_result → list task_result)
    (completion_order' : list file_task → list file_task)
    (archive : bytes) (log : list report) (returned : bool) :
  (∀ l, write_order l ≡ₚ l) → (∀ l, completion_order' l ≡ₚ l) →
  Forall (names_nul_free upper) files →
  NoDup (dest_of upper <$> files) →
  pack_cdfs upper files sector_size cache_size debug_mode read_error
    write_order completion_order = Return (archive, log, returned) →
  ∃ out log',
    unpack_cdfs archive (λ _, None) debug_mode' completion_order'
    = Return (out, log', true) ∧
    (∀ f, f ∈ files →
          out !! dest_of upper f = Some (stored_payload read_error f)) ∧
    (∀ f msg, f ∈ files → read_error (path f) = Some msg →
              out !! dest_of upper f = Some (zeros (size f))).
Proof.
  intros Hwo Hco Hnul Hnd Hpack.
  destruct (pack_cdfs_readback upper _ _ _ _ _ _ _ _ _ _ Hwo Hpack)
    as (h & ft0 & st & ste & fso & Hi & Hh & Hmagic & Hss & Hfso & Hn & Hl
        & Hread & Hst & Hfso0 & Hss0 & Hstart & _).
  destruct (pack_cdfs_header upper _ _ _ _ _ _ _ _ _ _ _ _ _ Hwo Hpack Hi)
    as (h' & fso' & padding & Ha & Hh' & Hfields & _).
  rewrite Hh in Hh'. injection Hh' as <-.
  assert (fso' = fso) as ->.
  { destruct h. cbn in *. by injection Hfields as _ _ _ _ -> _. }
  pose proof (interned_offsets upper files sector_size ft0 st ste Hnul Hi)
    as Hall.
  pose proof (intern_files_files upper _ _ _ _ _ _ _ Hi) as Hfiles.
  rewrite <- (assign_sectors_files sector_size ft0 0) in Hfiles.
  set (ft := (assign_sectors ft0 sector_size 0).1) in *.
  assert (ft_file_path <$> (task_of upper fso sector_size <$> ft)
          = dest_of upper <$> files) as Hpaths.
  { rewrite <- Hfiles, <- !list_fmap_compose. done. }
  set (tasks := completion_order' (task_of upper fso sector_size <$> ft)).
  set (r := collect_unpacked archive (λ _, None) debug_mode' tasks 0 ∅).
  assert (∀ e, e ∈ ft →
            unpack_file_task archive (λ _, None)
              (task_of upper fso sector_size e)
            = Return (stored_payload read_error (pe_file e))) as Htask.
  { intros e He. unfold unpack_file_task. f_equal.
    cbn [task_of ft_file_offset ft_file_length].
    rewrite Forall_forall in Hstart. specialize (Hstart e He).
    apply list_elem_of_lookup_1 in He as [i He].
    rewrite copy_chunks_slice.
    - by eapply pack_cdfs_payload.
    - apply Z.add_nonneg_nonneg; [lia|]. apply Z.mul_nonneg_nonneg; lia.
    - done. }
  assert (∀ f, f ∈ files →
            r.1 !! dest_of upper f = Some (stored_payload read_error f))
    as Hout.
  { intros f Hf. rewrite <- Hfiles in Hf.
    apply list_elem_of_fmap in Hf as (e & -> & He).
    change (dest_of upper (pe_file e))
      with (ft_file_path (task_of upper fso sector_size e)).
    apply collect_unpacked_written.
    + subst tasks. rewrite Hco, Hpaths. done.
    + subst tasks. rewrite Hco. apply list_elem_of_fmap. eauto.
    + by apply Htask. }
  exists r.1, r.2. split; [|split].
  - unfold unpack_cdfs. rewrite Hh. cbn [bind]. rewrite Hmagic.
    change (pack_I_be CDFS_MAGIC) with (Return [0x43; 0x44; 0x46; 0x53]).
    cbn [bind].
    change (ascii_decode [0x43; 0x44; 0x46; 0x53])
      with (Return [0x43; 0x44; 0x46; 0x53]).
    cbn [bind]. rewrite bool_decide_false by (intros Hne; by apply Hne).
    rewrite Hn, Hl, Hfso, Hss, to_nat_len, Hread. cbn [bind].
    rewrite Hst, (make_file_tasks_spec _ _ _ _ _ _ Hall). cbn [bind]. done.
  - done.
  - intros f msg Hf Hmsg. rewrite (Hout f Hf). unfold stored_payload.
    by rewrite Hmsg.
Qed.

End roundtrip_failures.

(** ** Unpacking any archive *)

Lemma slice_len {A} (l : list A) a b :
  0 ≤ a → len (slice l a b) = Z.max 0 (Z.min (b - a) (len l - a)).
Proof.
  intros Ha. unfold slice, len. rewrite length_take, length_drop. lia.
Qed.

(** X7.  The copy loop of [unpack_file_task] writes the bytes of the archive
    from [file_offset] on, [file_length] of them or as many as the archive
    has: an entry that runs past the end of the archive gives a shorter
    file, not an error. *)
Theorem unpack_file_task_contents (input_file : bytes)
    (dest_error : dest_path → option string) (task : file_task) :
  0 ≤ ft_file_offset task →
  unpack_file_task input_file dest_error task
  = match dest_error (ft_file_path task) with
    | Some e => Raise (OSError e)
    | None =>
        Return (slice input_file (ft_file_offset task)
                  (ft_file_offset task + ft_file_length task))
    end ∧
  len (slice input_file (ft_file_offset task)
         (ft_file_offset task + ft_file_length task))
  = Z.max 0 (Z.min (ft_file_length task)
               (len input_file - ft_file_offset task)).
Proof.
  intros Hoff. split.
  - unfold unpack_file_task. destruct (dest_error _); [done|].
    by rewrite copy_chunks_slice.
  - rewrite slice_len by done. f_equal. f_equal. lia.
Qed.

Lemma unpack_file_task_slice input dest_error task contents :
  0 ≤ ft_file_offset task →
  unpack_file_task input dest_error task = Return contents →
  dest_error (ft_file_path task) = None ∧
  contents = slice input (ft_file_offset task)
               (ft_file_offset task + ft_file_length task).
Proof.
  intros Hoff. unfold unpack_file_task. destruct (dest_error _); [done|].
  rewrite copy_chunks_slice by done. by intros [= <-].
Qed.

Lemma collect_unpacked_origin input dest_error debug tasks :
  ∀ completed out p contents,
    (collect_unpacked input dest_error debug tasks completed out).1 !! p
    = Some contents →
    out !! p = Some contents ∨
    ∃ t, t ∈ tasks ∧ ft_file_path t = p ∧
         unpack_file_task input dest_error t = Return contents.
Proof.
  induction tasks as [|t tasks IH]; intros completed out p c;
    cbn [collect_unpacked]; [by left|].
  destruct (unpack_file_task input dest_error t) as [c'|] eqn:Hc; cbn [fst];
    intros [Hp|(t' & Ht' & Hpt & Hct)]%IH.
  - destruct (decide (ft_file_path t = p)) as [<-|Hne].
    + rewrite lookup_insert_eq in Hp. injection Hp as <-.
      right. exists t. split; [left|]. done.
    + rewrite lookup_insert_ne in Hp by done. by left.
  - right. exists t'. split; [by right|]. done.
  - by left.
  - right. exists t'. split; [by right|]. done.
Qed.

Lemma slice_bytes (f : bytes) a b : Forall is_byte f → Forall is_byte (slice f a b).
Proof. intros. unfold slice. by apply Forall_take, Forall_drop. Qed.

Lemma unpack_header_fields_nonneg header_data h :
  Forall is_byte header_data → unpack_header header_data = Return h →
  Forall (λ v, 0 ≤ v) (header_fields h).
Proof.
  intros Hd. unfold unpack_header, struct_unpack.
  case_bool_decide; cbn [bind]; [|done].
  pose proof (unpack_words_nonneg 10 header_data Hd) as Hv.
  destruct (unpack_words 10 header_data)
    as [|a [|b [|c [|d [|e [|f [|g [|i [|j [|k [|? ?]]]]]]]]]]]; try done.
  by intros [= <-].
Qed.

Lemma unpack_entry_nonneg entry_data e :
  Forall is_byte entry_data → unpack_entry entry_data = Return e →
  0 ≤ entry_file_name_offset e ∧ 0 ≤ entry_dir_name_offset e ∧
  0 ≤ entry_start_sector e ∧ 0 ≤ entry_length e.
Proof.
  intros Hd. unfold unpack_entry, struct_unpack.
  case_bool_decide; cbn [bind]; [|done].
  pose proof (unpack_words_nonneg 4 entry_data Hd) as Hv.
  destruct (unpack_words 4 entry_data) as [|a [|b [|c [|d [|? ?]]]]];
    try done.
  intros [= <-]. cbn. repeat (apply Forall_cons in Hv as [? Hv]). done.
Qed.

Lemma read_file_table_nonneg count :
  ∀ f pos file_table,
    Forall is_byte f → read_file_table count f pos = Return file_table →
    Forall (λ e, 0 ≤ entry_start_sector e ∧ 0 ≤ entry_length e) file_table.
Proof.
  induction count as [|count IH]; intros f pos ft Hf; cbn [read_file_table].
  { intros [= <-]. constructor. }
  destruct (unpack_entry _) as [e|] eqn:He; cbn [bind]; [|done].
  destruct (read_file_table count f (pos + 16)) as [ft'|] eqn:Hrest;
    cbn [bind]; [|done].
  intros [= <-]. constructor; [|by eapply IH].
  destruct (unpack_entry_nonneg _ _ (slice_bytes f _ _ Hf) He)
    as (_ & _ & ? & ?). done.
Qed.

Lemma make_file_tasks_entries file_table :
  ∀ std fso ss tasks,
    make_file_tasks file_table std fso ss = Return tasks →
    Forall2 (λ e t, ft_file_offset t = fso + entry_start_sector e * ss ∧
                    ft_file_length t = entry_length e ∧
                    ∃ file_name dir_name,
                      unpack_string_from_table std (entry_file_name_offset e)
                      = Return file_name ∧
                      unpack_string_from_table std (entry_dir_name_offset e)
                      = Return dir_name ∧
                      ft_file_path t
                      = (replace_char backslash slash dir_name, file_name))
      file_table tasks.
Proof.
  induction file_table as [|e ft IH]; intros std fso ss tasks;
    cbn [make_file_tasks].
  { intros [= <-]. constructor. }
  destruct (unpack_string_from_table std (entry_file_name_offset e))
    as [fname|] eqn:Hn; cbn [bind]; [|done].
  destruct (unpack_string_from_table std (entry_dir_name_offset e))
    as [dname|] eqn:Hd; cbn [bind]; [|done].
  destruct (make_file_tasks ft std fso ss) as [tasks'|] eqn:Hrest;
    cbn [bind]; [|done].
  intros [= <-]. constructor; [|by eapply IH].
  cbn. split; [done|]. split; [done|]. exists fname, dname.
  split; [done|]. split; [done|]. by destruct dname.
Qed.

Lemma make_file_tasks_paths file_table std fso ss tasks :
  make_file_tasks file_table std fso ss = Return tasks →
  ft_file_path <$> tasks = omap (entry_dest std) file_table.
Proof.
  intros Hrel%make_file_tasks_entries.
  induction Hrel as [|e t ft tasks (_ & _ & fname & dname & Hn & Hd & Hp) _ IH];
    [done|].
  rewrite fmap_cons. cbn [omap list_omap]. fold (omap (entry_dest std) ft).
  unfold entry_dest at 1. by rewrite Hn, Hd, Hp, IH.
Qed.

Section unpack_files.

(** The file of the host that a destination names. *)
Context {F : Type} (file_of : dest_path → F).

(** X8.  On any archive of bytes whose entries have destinations that name
    pairwise distinct files, and on which [unpack_cdfs] returns [True]: the
    file at the destination of an entry, when it can be written, holds
    exactly the bytes the archive designates for that entry; [unpack_cdfs]
    creates no other file; and every destination that cannot be written is
    reported and left without a file. *)
Theorem unpack_cdfs_files (input_file : bytes)
    (dest_error : dest_path → option string) (debug_mode : bool)
    (completion_order : list file_task → list file_task)
    (out : gmap dest_path bytes) (ulog : list report)
    (h : header) (file_table : list entry) :
  let string_table_data :=
    slice input_file (40 + 16 * h_file_table_entries h)
      (40 + 16 * h_file_table_entries h + h_string_table_length h) in
  (∀ l, completion_order l ≡ₚ l) →
  Forall is_byte input_file →
  unpack_header (slice input_file 0 40) = Return h →
  read_file_table (Z.to_nat (h_file_table_entries h)) input_file 40
  = Return file_table →
  NoDup (file_of <$> omap (entry_dest string_table_data) file_table) →
  unpack_cdfs input_file dest_error debug_mode completion_order
  = Return (out, ulog, true) →
  (∀ i e p,
     file_table !! i = Some e → entry_dest string_table_data e = Some p →
     dest_error p = None →
     is_Some (out !! p) ∧ out !! p = archive_payload input_file i) ∧
  (∀ p, is_Some (out !! p) →
        dest_error p = None ∧
        ∃ e, e ∈ file_table ∧ entry_dest string_table_data e = Some p) ∧
  (∀ e p msg,
     e ∈ file_table → entry_dest string_table_data e = Some p →
     dest_error p = Some msg →
     out !! p = None ∧ ErrorUnpacking p msg ∈ ulog).
Proof.
  intros std Hco Hbytes Hh Hread Hnd. unfold unpack_cdfs.
  rewrite Hh. cbn [bind].
  destruct (pack_I_be (h_magic h)) as [mb|]; cbn [bind]; [|done].
  destruct (ascii_decode mb); cbn [bind]; [|done].
  case_bool_decide as Hmagic; [done|].
  rewrite Hread. cbn [bind]. fold std.
  destruct (make_file_tasks file_table std _ _) as [tasks|] eqn:Htasks;
    cbn [bind]; [|done].
  intros [= <- <-].
  pose proof (read_file_table_nonneg _ _ _ _ Hbytes Hread) as Hent.
  pose proof (make_file_tasks_entries _ _ _ _ _ Htasks) as Hrel.
  pose proof (make_file_tasks_paths _ _ _ _ _ Htasks) as Hpaths.
  pose proof (unpack_header_fields_nonneg _ _ (slice_bytes _ 0 40 Hbytes) Hh)
    as Hnn.
  unfold header_fields in Hnn.
  repeat (apply Forall_cons in Hnn as [? Hnn]).
  assert (NoDup (ft_file_path <$> completion_order tasks)) as Hnd'.
  { rewrite Hco, Hpaths. by apply (NoDup_fmap_1 file_of). }
  assert (∀ t, t ∈ tasks → 0 ≤ ft_file_offset t) as Hoff.
  { intros t [i Hi]%list_elem_of_lookup_1.
    destruct (Forall2_lookup_r _ _ _ _ _ Hrel Hi) as (e & He & -> & _).
    rewrite Forall_lookup in Hent. destruct (Hent _ _ He) as [? _].
    apply Z.add_nonneg_nonneg; [done|]. by apply Z.mul_nonneg_nonneg. }
  assert (∀ i e p, file_table !! i = Some e → entry_dest std e = Some p →
                   ∃ t, tasks !! i = Some t ∧ ft_file_path t = p ∧
                        ft_file_offset t
                        = h_first_sector_offset h
                          + entry_start_sector e * h_sector_size h ∧
                        ft_file_length t = entry_length e) as Hdest.
  { intros i e p Hi Hp.
    destruct (Forall2_lookup_l _ _ _ _ _ Hrel Hi)
      as (t & Ht & Ho & Hl & fname & dname & Hn & Hd & Hpath).
    unfold entry_dest in Hp. rewrite Hn, Hd in Hp. injection Hp as <-.
    by exists t. }
  split; [|split].
  - intros i e p Hi Hp Hde.
    destruct (Hdest i e p Hi Hp) as (t & Ht & <- & Ho & Hl).
    assert (t ∈ tasks) as Hin by (by eapply list_elem_of_lookup_2).
    assert (out_ok :
      (collect_unpacked input_file dest_error debug_mode
         (completion_order tasks) 0 ∅).1 !! ft_file_path t
      = archive_payload input_file i).
    { unfold archive_payload. rewrite Hh, Hread, Hi. cbn.
      rewrite <- Ho, <- Hl.
      apply collect_unpacked_written; [done|by rewrite Hco|].
      unfold unpack_file_task. rewrite Hde.
      by rewrite copy_chunks_slice by auto. }
    split; [|done]. rewrite out_ok.
    unfold archive_payload. rewrite Hh, Hread, Hi. cbn. eauto.
  - intros p [c Hc].
    apply collect_unpacked_origin in Hc as [Hp|(t & Ht & Hpt & Hc)];
      [by rewrite lookup_empty in Hp|].
    rewrite Hco in Ht.
    destruct (unpack_file_task_slice _ _ _ _ (Hoff t Ht) Hc) as [Hde _].
    rewrite Hpt in Hde. split; [done|].
    apply list_elem_of_lookup_1 in Ht as [i Hi].
    destruct (Forall2_lookup_r _ _ _ _ _ Hrel Hi)
      as (e & He & _ & _ & fname & dname & Hn & Hd & Hpath).
    exists e. split; [by eapply list_elem_of_lookup_2|].
    unfold entry_dest. by rewrite Hn, Hd, <- Hpt, Hpath.
  - intros e p msg [i Hi]%list_elem_of_lookup_1 Hp Hde.
    destruct (Hdest i e p Hi Hp) as (t & Ht & <- & _).
    destruct (collect_unpacked_failed input_file dest_error debug_mode
                (completion_order tasks) 0 ∅ _ _ Hde) as [Hnone Hlog].
    split; [by rewrite Hnone, lookup_empty|].
    apply Hlog. rewrite Hco. apply list_elem_of_fmap.
    exists t. split; [done|]. by eapply list_elem_of_lookup_2.
Qed.

End unpack_files.

(** ** The dedup scan and the cache *)

(** The comparison of the scan takes as many bytes as the string has
    characters: it never succeeds for a string whose encoding is longer. *)
Lemma scan_table_multibyte fuel st s enc :
  len s < len enc →
  ∀ index, (scan_table fuel st s enc index).2 = None.
Proof.
  intros Hlen. induction fuel as [|fuel IH]; intros index; [done|].
  rewrite scan_table_S. case_bool_decide; [|done].
  rewrite bool_decide_false; [cbn; apply IH|].
  intros Heq. apply (f_equal len) in Heq. pose proof (len_nonneg s).
  unfold slice, len in *. rewrite length_take in Heq. lia.
Qed.

(** Started at an entry, the scan finds the first entry equal to the
    encoded string, when the string has as many bytes as characters. *)
Lemma scan_table_finds s enc :
  len s = len enc → 0 ∉ enc →
  ∀ k fuel ents2 ents1,
    Forall (λ e, 0 ∉ e) ents2 →
    ents2 !! k = Some enc → enc ∉ take k ents2 → (k < fuel)%nat →
    (scan_table fuel (flat (ents1 ++ ents2)) s enc (len (flat ents1))).2
    = Some (offset_of (ents1 ++ ents2) (length ents1 + k)).
Proof.
  intros Hlen Henc. pose proof (len_nonneg s) as Hs0.
  induction k as [|k IH]; intros fuel ents2 ents1 Hnul Hk Hfirst Hfuel;
    (destruct fuel as [|fuel]; [lia|]);
    (destruct ents2 as [|e ents2]; [done|]);
    apply Forall_cons in Hnul as [He Hnul]; rewrite scan_table_S.
  - injection Hk as ->.
    rewrite flat_app, flat_cons, len_app, len_app, len_cons.
    pose proof (len_nonneg (flat ents2)).
    rewrite bool_decide_true by lia.
    rewrite Hlen.
    replace (enc ++ 0 :: flat ents2) with (enc ++ [0] ++ flat ents2) by done.
    rewrite slice_app_mid, bool_decide_true by done.
    rewrite lookup_app_r by (unfold len; lia).
    rewrite lookup_app_r by (unfold len; lia).
    replace (Z.to_nat (len (flat ents1) + len enc) - length (flat ents1)
             - length enc)%nat with 0%nat by (unfold len; lia).
    cbn. unfold offset_of. by rewrite Nat.add_0_r, take_app_length.
  - cbn [lookup list_lookup] in Hk. cbn [take] in Hfirst.
    apply not_elem_of_cons in Hfirst as [Hne Hfirst].
    pose proof (flat_split _ _ _ Hk) as Hsplit.
    assert (len (flat ents1) < len (flat (ents1 ++ e :: ents2)) - len s)
      as Hcond.
    { rewrite flat_app, flat_cons, !len_app, len_cons, Hsplit, !len_app,
        len_cons.
      pose proof (len_nonneg e). pose proof (len_nonneg (flat (take k ents2))).
      pose proof (len_nonneg (flat (drop (S k) ents2))). lia. }
    rewrite bool_decide_true by done.
    destruct (bool_decide (slice _ _ _ = enc) && _) eqn:Htest.
    { apply andb_prop in Htest
        as [H1%bool_decide_eq_true H2%bool_decide_eq_true].
      rewrite flat_app, flat_cons in H1, H2.
      apply entry_match in H1; [|lia|lia|done|done|done]. done. }
    cbn [snd].
    replace (len (flat ents1)
             + len (first_field (slice_from (flat (ents1 ++ e :: ents2))
                                   (len (flat ents1)))) + 1)
      with (len (flat (ents1 ++ [e]))).
    2:{ rewrite (flat_app ents1 (e :: ents2)), slice_from_app, flat_cons.
        rewrite first_field_app by done.
        rewrite flat_snoc, !len_app, len_cons, len_nil. lia. }
    specialize (IH fuel ents2 (ents1 ++ [e]) Hnul Hk Hfirst ltac:(lia)).
    rewrite <- (app_assoc ents1 [e] ents2) in IH. cbn [app] in IH.
    rewrite IH. f_equal. f_equal. rewrite length_app. simpl. lia.
Qed.

Section cache.

Variable upper : str → str.

(** X9.  For a string whose upper-cased form has as many UTF-8 bytes as
    characters, the cache changes nothing but the work done: on a table kept
    by [add_string_to_table], a call with an empty cache returns the same
    table and the same offset as the call with the cache. *)
Theorem string_cache_transparent (string_table : bytes)
    (string_cache : gmap str Z) (ents : list bytes) (string_value : str)
    (encoded : bytes) :
  table_inv string_table string_cache ents →
  0 ∉ upper string_value →
  utf8_encode (upper string_value) = Some encoded →
  len encoded = len (upper string_value) →
  ∃ string_table' cache1 cache2 offset,
    add_string_to_table upper string_table string_cache string_value
    = Return (string_table', cache1, offset) ∧
    add_string_to_table upper string_table ∅ string_value
    = Return (string_table', cache2, offset).
Proof.
  intros Hinv Hnul Henc Hlen. unfold add_string_to_table.
  rewrite lookup_empty, Henc.
  destruct (string_cache !! upper string_value) as [off|] eqn:Hc.
  - destruct (inv_cache _ _ _ Hinv _ _ Hc) as (e & i & He & Hi & ->).
    rewrite Henc in He. injection He as <-.
    pose proof (utf8_encode_nul _ _ Henc Hnul) as Hencnul.
    assert (Forall (λ e, 0 ∉ e) ([] :: ents)) as Hnuls.
    { apply Forall_cons. split; [apply not_elem_of_nil | apply Hinv]. }
    assert (encoded ∉ take i ([] :: ents)) as Hfirst.
    { intros [j Hj]%list_elem_of_lookup_1.
      pose proof (lookup_lt_Some _ _ _ Hj) as Hlt.
      rewrite length_take in Hlt.
      rewrite lookup_take_lt in Hj by lia.
      pose proof (NoDup_lookup _ _ _ _ (inv_nodup _ _ _ Hinv) Hi Hj). lia. }
    assert (i < length string_table)%nat as Hfuel.
    { rewrite (inv_table _ _ _ Hinv).
      pose proof (length_flat_ge ([] :: ents)).
      apply lookup_lt_Some in Hi. lia. }
    pose proof (scan_table_finds (upper string_value) encoded
                  (eq_sym Hlen) Hencnul i (length string_table) ([] :: ents)
                  [] Hnuls Hi Hfirst Hfuel) as Hscan.
    cbn [app length Nat.add] in Hscan. rewrite flat_nil, len_nil in Hscan.
    rewrite <- (inv_table _ _ _ Hinv) in Hscan. rewrite Hscan.
    by eexists _, _, _, _.
  - destruct (scan_table _ _ _ _ _).2; by eexists _, _, _, _.
Qed.

(** X10.  For a string whose upper-cased form has more UTF-8 bytes than
    characters, the scan finds nothing: unless the cache holds the string,
    [add_string_to_table] appends it, whether or not the table holds it
    already. *)
Theorem multibyte_string_appended (string_table : bytes)
    (string_cache : gmap str Z) (string_value : str) (encoded : bytes) :
  string_cache !! upper string_value = None →
  utf8_encode (upper string_value) = Some encoded →
  len (upper string_value) < len encoded →
  add_string_to_table upper string_table string_cache string_value
  = Return (string_table ++ encoded ++ [0],
            <[upper string_value := len string_table]> string_cache,
            len string_table).
Proof.
  intros Hc Henc Hlen. unfold add_string_to_table.
  by rewrite Hc, Henc, scan_table_multibyte.
Qed.

(** X11.  The empty string is the pre-seeded entry: interning it returns
    offset 0 and adds nothing to the table. *)
Theorem empty_string_offset (string_table : bytes)
    (string_cache : gmap str Z) (ents : list bytes) :
  table_inv string_table string_cache ents →
  upper [] = [] →
  ∃ cache',
    add_string_to_table upper string_table string_cache []
    = Return (string_table, cache', 0) ∧
    unpack_string_from_table string_table 0 = Return [].
Proof.
  intros Hinv Hup.
  pose proof (add_string_to_table_spec upper _ _ _ [] Hinv) as Hspec.
  rewrite Hup in Hspec. specialize (Hspec (not_elem_of_nil _)).
  destruct (add_string_to_table upper string_table string_cache [])
    as [[[st' cache'] off]|]; [|by destruct Hspec].
  destruct Hspec as (enc & new & i & Henc & Hinv' & Hi & -> & _ & _ & Hnew).
  injection Henc as <-.
  assert (new = []) as ->.
  { destruct Hnew as [?|[_ Hfresh]]; [done|].
    exfalso. apply Hfresh. left. }
  rewrite app_nil_r in *.
  assert (i = 0%nat) as ->.
  { by apply (NoDup_lookup _ _ _ _ (inv_nodup _ _ _ Hinv) Hi). }
  exists cache'. rewrite (inv_table _ _ _ Hinv'), (inv_table _ _ _ Hinv).
  split; [done|]. by rewrite flat_cons.
Qed.

End cache.

(** ** The header fields [unpack_cdfs] reads *)

Lemma slice_drop_eq {A} (l l' : list A) (k : nat) a b :
  drop k l = drop k l' → (k ≤ Z.to_nat a)%nat → slice l a b = slice l' a b.
Proof.
  intros Heq Hk. unfold slice.
  replace (Z.to_nat a) with (k + (Z.to_nat a - k))%nat by lia.
  by rewrite <- !drop_drop, Heq.
Qed.

Lemma read_file_table_ext count (f f' : bytes) :
  drop 40 f = drop 40 f' →
  ∀ pos, 40 ≤ pos → read_file_table count f pos = read_file_table count f' pos.
Proof.
  intros Heq. induction count as [|count IH]; intros pos Hpos; [done|].
  cbn [read_file_table].
  rewrite (slice_drop_eq f f' 40) by (done || lia).
  by rewrite IH by lia.
Qed.

Lemma collect_unpacked_ext input input' dest_error debug tasks :
  (∀ t, t ∈ tasks → unpack_file_task input dest_error t
                    = unpack_file_task input' dest_error t) →
  ∀ completed out,
    collect_unpacked input dest_error debug tasks completed out
    = collect_unpacked input' dest_error debug tasks completed out.
Proof.
  induction tasks as [|t tasks IH]; intros Hext completed out; [done|].
  cbn [collect_unpacked]. rewrite <- (Hext t) by left.
  destruct (unpack_file_task input dest_error t);
    rewrite IH; try done; intros; apply Hext; by right.
Qed.

(** X12.  [unpack_cdfs] reads the magic, the sector size, the first-sector
    offset, the number of entries and the length of the string table, and
    nothing else of the header: two archives of bytes that differ only in
    the other fields (version, recommended cache size, total sectors,
    file-table length, string-table entries), with the data area after the
    header, are unpacked to the same files with the same returned value. *)
Theorem unpack_cdfs_header_fields (input_file input_file' : bytes)
    (h h' : header) (dest_error : dest_path → option string)
    (debug_mode : bool)
    (completion_order : list file_task → list file_task) :
  Forall is_byte input_file →
  (∀ l, completion_order l ≡ₚ l) →
  unpack_header (slice input_file 0 40) = Return h →
  unpack_header (slice input_file' 0 40) = Return h' →
  drop 40 input_file = drop 40 input_file' →
  h_magic h' = h_magic h →
  h_sector_size h' = h_sector_size h →
  h_first_sector_offset h' = h_first_sector_offset h →
  h_file_table_entries h' = h_file_table_entries h →
  h_string_table_length h' = h_string_table_length h →
  40 ≤ h_first_sector_offset h →
  match unpack_cdfs input_file dest_error debug_mode completion_order,
        unpack_cdfs input_file' dest_error debug_mode completion_order with
  | Return (out, _, returned), Return (out', _, returned') =>
      out = out' ∧ returned = returned'
  | Raise e, Raise e' => e = e'
  | _, _ => False
  end.
Proof.
  intros Hbytes Hco Hh Hh' Hdrop Hm Hss Hfso Hn Hl H40. unfold unpack_cdfs.
  rewrite Hh, Hh'. cbn [bind]. rewrite Hm, Hss, Hfso, Hn, Hl.
  destruct (pack_I_be (h_magic h)) as [mb|]; cbn [bind]; [|done].
  destruct (ascii_decode mb); cbn [bind]; [|done].
  case_bool_decide; [done|].
  pose proof (unpack_header_fields_nonneg _ _ (slice_bytes _ 0 40 Hbytes) Hh)
    as Hnn.
  unfold header_fields in Hnn.
  repeat (apply Forall_cons in Hnn as [? Hnn]).
  rewrite <- (read_file_table_ext _ _ _ Hdrop 40) by lia.
  destruct (read_file_table _ input_file 40) as [ft|] eqn:Hread;
    cbn [bind]; [|done].
  rewrite <- (slice_drop_eq input_file input_file' 40) by (done || lia).
  destruct (make_file_tasks ft _ _ _) as [tasks|] eqn:Htasks; cbn [bind];
    [|done].
  rewrite (collect_unpacked_ext input_file input_file'); [done|].
  intros t Ht. rewrite Hco in Ht.
  pose proof (read_file_table_nonneg _ _ _ _ Hbytes Hread) as Hent.
  pose proof (make_file_tasks_entries _ _ _ _ _ Htasks) as Hrel.
  apply list_elem_of_lookup_1 in Ht as [i Hi].
  destruct (Forall2_lookup_r _ _ _ _ _ Hrel Hi) as (e & He & Hoff & _).
  rewrite Forall_lookup in Hent. destruct (Hent _ _ He) as [? _].
  assert (40 ≤ ft_file_offset t).
  { rewrite Hoff. pose proof (Z.mul_nonneg_nonneg (entry_start_sector e)
                                (h_sector_size h)). lia. }
  unfold unpack_file_task. destruct (dest_error _); [done|].
  rewrite !copy_chunks_slice by (done || lia).
  by rewrite (slice_drop_eq input_file input_file' 40) by (done || lia).
Qed.

(** ** What [pack_cdfs] needs to return *)

Lemma process_file_tasks_results read_error ss fso ft :
  ∀ idx,
    Forall (λ r : task_result, ∃ e, r.2 = inr e)
      (snd <$> process_file_tasks read_error idx ft ss fso) →
    Forall (λ e, is_Some (read_error (path (pe_file e)))) ft.
Proof.
  induction ft as [|e ft IH]; intros idx; [constructor|].
  cbn [process_file_tasks]. rewrite fmap_cons.
  intros [He Hrest]%Forall_cons. constructor; [|by eapply IH].
  unfold process_file_task in He.
  destruct (read_error _); [eauto|]. by destruct He.
Qed.

Section pack_requirements.

Variable upper : str → str.

(** X13.  [pack_cdfs] returns only when every number it stores fits in an
    unsigned 32-bit field and the sector size is positive, and, in debug
    mode, only when some file has a byte or every read failed: otherwise it
    raises. *)
Theorem pack_cdfs_requirements (files : list file_info)
    (sector_size cache_size : Z) (debug_mode : bool)
    (read_error : string → option string)
    (write_order : list write_op → list write_op)
    (completion_order : list task_result → list task_result)
    (archive : bytes) (log : list report) (returned : bool) :
  (∀ l, completion_order l ≡ₚ l) →
  pack_cdfs upper files sector_size cache_size debug_mode read_error
    write_order completion_order = Return (archive, log, returned) →
  0 < sector_size < 2 ^ 32 ∧ 0 ≤ cache_size < 2 ^ 32 ∧
  40 + 16 * len files < 2 ^ 32 ∧
  Forall (λ f, size f < 2 ^ 32) files ∧
  Zsum ((λ f, (size f + sector_size - 1) / sector_size) <$> files) < 2 ^ 32 ∧
  (debug_mode = true → Zsum (size <$> files) = 0 →
   Forall (λ f, is_Some (read_error (path f))) files).
Proof.
  intros Hco Hpack.
  destruct (pack_cdfs_inv upper _ _ _ _ _ _ _ _ _ _ Hpack)
    as (ft0 & st & ste & fso & padding & hdr & ents_b
        & Hi & Ha & Hh & He & _ & Hr & _).
  pose proof (struct_pack_spec _ _ Hh) as (Hv & _ & _).
  repeat (apply Forall_cons in Hv as [? Hv]).
  assert (0 < sector_size) as Hss.
  { unfold align_first_sector in Ha. case_bool_decide; [done|]. lia. }
  destruct (align_first_sector_spec (header_size + len ft0 * 16 + len st)
              sector_size Hss) as (fso' & padding' & Ha' & _ & Hrange & _).
  rewrite Ha in Ha'. injection Ha' as <- <-.
  pose proof (intern_files_files upper _ _ _ _ _ _ _ Hi) as Hfiles.
  pose proof (assign_sectors_files sector_size ft0 0) as Hfiles'.
  rewrite Hfiles in Hfiles'.
  destruct (assign_sectors_spec sector_size ft0 0) as (Hlen & Htot & _).
  pose proof (pack_file_table_spec _ _ He) as (_ & Hfit & _).
  set (ft := (assign_sectors ft0 sector_size 0).1) in *.
  assert (len ft0 = len files) as Hlf.
  { unfold len. by rewrite <- Hfiles, length_fmap. }
  pose proof (len_nonneg st). unfold header_size in *.
  split; [lia|]. split; [lia|]. split; [lia|]. split; [|split].
  - rewrite <- Hfiles'. apply Forall_fmap.
    eapply Forall_impl; [exact Hfit|]. intros e [_ ?]. cbn. lia.
  - rewrite Z.add_0_l in Htot.
    assert (sectors_needed sector_size ft0
            = (λ f, (size f + sector_size - 1) / sector_size) <$> files)
      as <-; [|lia].
    unfold sectors_needed. by rewrite <- Hfiles, <- list_fmap_compose.
  - intros -> Hzero.
    assert (foldr Z.add 0 ((λ e, size (pe_file e)) <$> ft) = 0) as Htotal.
    { etrans; [|exact Hzero]. by rewrite <- Hfiles', <- list_fmap_compose. }
    rewrite Htotal in Hr.
    destruct (proj1 (report_results_returns true 0 _ 0 0)
                (ex_intro _ log Hr)) as [?|[?|Hall]]; [done..|].
    rewrite Hco in Hall. apply process_file_tasks_results in Hall.
    rewrite <- Hfiles'. by apply Forall_fmap.
Qed.

End pack_requirements.

(** ** Inputs without a header *)

(** X14.  On an input shorter than the header, [list_cdfs] and [unpack_cdfs]
    raise [struct.error] before printing or creating anything, while
    [verify_cdfs] reports that the file is too small and returns [False]. *)
Theorem short_input (input_file : bytes)
    (dest_error : dest_path → option string) (debug_mode : bool)
    (completion_order : list file_task → list file_task) :
  len input_file < 40 →
  list_cdfs input_file = ([], Raise StructError) ∧
  unpack_cdfs input_file dest_error debug_mode completion_order
  = Raise StructError ∧
  verify_cdfs input_file = ([TooSmall], false).
Proof.
  intros Hlen.
  assert (len (slice input_file 0 40) < 40) as Hs.
  { rewrite slice_len by done. lia. }
  assert (unpack_header (slice input_file 0 40) = Raise StructError) as Hh.
  { unfold unpack_header, struct_unpack.
    rewrite bool_decide_false; [done|]. unfold len in Hs. lia. }
  unfold list_cdfs, unpack_cdfs, verify_cdfs. rewrite Hh.
  by rewrite bool_decide_true by done.
Qed.

(** X15.  [list_cdfs] takes the magic from the first four bytes, little end
    first, and on any other value than the CDFS magic prints the error line
    and returns [False] without reading further: it has no decoding step
    that could raise. *)
Theorem list_cdfs_bad_magic (input_file : bytes) :
  40 ≤ len input_file →
  unpack_I (take 4 input_file) ≠ CDFS_MAGIC →
  list_cdfs input_file
  = ([ListInvalidFormat (unpack_I (take 4 input_file))], Return false).
Proof.
  intros Hlen Hmagic. unfold list_cdfs, unpack_header, struct_unpack.
  rewrite bool_decide_true
    by (pose proof (slice_len input_file 0 40); unfold len in *; lia).
  cbn [bind unpack_words].
  assert (take 4 (slice input_file 0 40) = take 4 input_file) as ->.
  { unfold slice. cbn. by rewrite take_take. }
  cbn [h_magic]. by rewrite bool_decide_true.
Qed.

(** ** The lines [pack_cdfs] prints *)

Lemma report_results_lines debug total rs :
  ∀ p c log,
    report_results debug total rs p c = Return log →
    (∀ idx msg, ErrorPacking idx msg ∈ log → ∃ sz, (idx, sz, inr msg) ∈ rs) ∧
    (debug = false → Forall (λ r, ∃ idx msg, r = ErrorPacking idx msg) log).
Proof.
  induction rs as [|[[idx sz] [pth|e]] rs IH]; intros p c log;
    cbn [report_results].
  - intros [= <-]. split.
    + intros ?? H. by apply elem_of_nil in H.
    + intros _. constructor.
  - destruct debug.
    + case_bool_decide; [done|].
      destruct (report_results true total rs (p + sz) (c + 1)) as [log'|]
        eqn:Hrest; cbn [bind]; [|done].
      intros [= <-]. destruct (IH _ _ _ Hrest) as (H1 & _).
      split; [|done].
      intros i m [?|[?|Hin]%elem_of_cons]%elem_of_cons; [done..|].
      destruct (H1 _ _ Hin) as [sz' ?]. exists sz'. by right.
    + intros Hrest. destruct (IH _ _ _ Hrest) as (H1 & H2).
      split; [|done].
      intros i m Hin. destruct (H1 _ _ Hin) as [sz' ?]. exists sz'.
      by right.
  - destruct (report_results debug total rs p (c + 1)) as [log'|] eqn:Hrest;
      cbn [bind]; [|done].
    intros [= <-]. destruct (IH _ _ _ Hrest) as (H1 & H2).
    split.
    + intros i m [Heq|Hin]%elem_of_cons.
      * injection Heq as -> ->. exists sz. left.
      * destruct (H1 _ _ Hin) as [sz' ?]. exists sz'. by right.
    + intros Hd. constructor; eauto.
Qed.

Lemma task_results_failed read_error ss fso ft :
  ∀ idx idx' sz msg,
    (idx', sz, inr msg) ∈ snd <$> process_file_tasks read_error idx ft ss fso →
    ∃ i e, ft !! i = Some e ∧ idx' = idx + Z.of_nat i ∧
           read_error (path (pe_file e)) = Some msg.
Proof.
  induction ft as [|e ft IH]; intros idx idx' sz msg;
    cbn [process_file_tasks]; rewrite ?fmap_cons.
  { intros H. by apply elem_of_nil in H. }
  intros [Heq|Hin]%elem_of_cons.
  - unfold process_file_task in Heq.
    destruct (read_error (path (pe_file e))) as [m|] eqn:Hm; [|done].
    injection Heq as -> _ ->. exists 0%nat, e. split; [done|].
    split; [lia|done].
  - destruct (IH _ _ _ _ Hin) as (i & e' & Hi & -> & Hm).
    exists (S i), e'. split; [done|]. split; [lia|done].
Qed.

Section pack_log.

Variable upper : str → str.

(** X16.  [pack_cdfs] prints an error line for a file exactly when the read
    of that file failed, with the index of the file and the text of the
    exception; without debug mode it prints nothing else for the files, so a
    run without failures prints no line for any file. *)
Theorem pack_errors_exact (files : list file_info)
    (sector_size cache_size : Z) (debug_mode : bool)
    (read_error : string → option string)
    (write_order : list write_op → list write_op)
    (completion_order : list task_result → list task_result)
    (archive : bytes) (log : list report) (returned : bool) :
  (∀ l, completion_order l ≡ₚ l) →
  pack_cdfs upper files sector_size cache_size debug_mode read_error
    write_order completion_order = Return (archive, log, returned) →
  (∀ idx msg,
     ErrorPacking idx msg ∈ log ↔
     ∃ i f, idx = Z.of_nat i ∧ files !! i = Some f ∧
            read_error (path f) = Some msg) ∧
  (debug_mode = false →
   Forall (λ r, ∃ idx msg, r = ErrorPacking idx msg) log) ∧
  (debug_mode = false → (∀ f, f ∈ files → read_error (path f) = None) →
   log = []).
Proof.
  intros Hco Hpack.
  destruct (pack_cdfs_inv upper _ _ _ _ _ _ _ _ _ _ Hpack)
    as (ft0 & st & ste & fso & padding & hdr & ents_b
        & Hi & Ha & Hh & He & _ & Hr & _).
  pose proof (intern_files_files upper _ _ _ _ _ _ _ Hi) as Hfiles.
  pose proof (assign_sectors_files sector_size ft0 0) as Hfiles'.
  rewrite Hfiles in Hfiles'.
  set (ft := (assign_sectors ft0 sector_size 0).1) in *.
  destruct (report_results_lines _ _ _ _ _ _ Hr) as [Herr Hquiet].
  assert (∀ idx msg,
            ErrorPacking idx msg ∈ log ↔
            ∃ i f, idx = Z.of_nat i ∧ files !! i = Some f ∧
                   read_error (path f) = Some msg) as Hexact.
  { intros idx msg. split.
    - intros [sz Hin]%Herr. rewrite Hco in Hin.
      destruct (task_results_failed _ _ _ _ _ _ _ _ Hin)
        as (i & e & Hie & -> & Hm).
      exists i, (pe_file e). split; [lia|]. split; [|done].
      by rewrite <- Hfiles', list_lookup_fmap, Hie.
    - intros (i & f & -> & Hif & Hm).
      rewrite <- Hfiles', list_lookup_fmap in Hif.
      destruct (ft !! i) as [e|] eqn:Hie; [|done]. injection Hif as <-.
      eapply report_results_errors; [exact Hr|].
      rewrite Hco.
      apply (task_failure_result read_error sector_size fso ft 0 i e msg Hie
               Hm). }
  split; [done|]. split; [done|].
  intros Hd Hok. specialize (Hquiet Hd).
  destruct log as [|r log]; [done|].
  apply Forall_cons in Hquiet as [(idx & msg & ->) _].
  destruct (proj1 (Hexact idx msg) ltac:(left)) as (i & f & _ & Hif & Hm).
  rewrite (Hok f) in Hm; [done|]. by eapply list_elem_of_lookup_2.
Qed.

End pack_log.

(** ** The command line *)

Section command_line.

Variable lower : string → string.
Variable int : string → option Z.
Variable isdir isfile exists_ : string → bool.
Variable raises : action → option exn.

Lemma default_last_cons {A} (d x : A) l :
  default d (last (x :: l)) = default x (last l).
Proof. rewrite last_cons. by destruct (last l). Qed.

Lemma pack_options_app show opts tail :
  Forall (option_readable int show) opts → tail ≠ [] →
  ∀ sector_size cache_size dbg,
    pack_options int (concat (option_args show <$> opts) ++ tail)
      sector_size cache_size dbg
    = pack_options int tail
        (default sector_size (last (omap sector_size_of opts)))
        (default cache_size (last (omap cache_size_of opts)))
        (dbg || existsb is_debug opts).
Proof.
  intros Hall Htail. induction Hall as [|o opts Ho _ IH]; intros ss cs dbg.
  { cbn. by rewrite orb_false_r. }
  rewrite fmap_cons. cbn [concat]. rewrite <- app_assoc.
  destruct o as [n|n|]; cbn [option_args app pack_options] in *.
  - rewrite decide_True by done. rewrite Ho, IH.
    change (omap sector_size_of (SectorSize n :: opts))
      with (n :: omap sector_size_of opts).
    by rewrite default_last_cons.
  - rewrite decide_False, decide_True by done. rewrite Ho, IH.
    change (omap cache_size_of (CacheSize n :: opts))
      with (n :: omap cache_size_of opts).
    by rewrite default_last_cons.
  - assert (pack_options int (concat (option_args show <$> opts) ++ tail)
              ss cs true
            = pack_options int tail
                (default ss (last (omap sector_size_of (DebugFlag :: opts))))
                (default cs (last (omap cache_size_of (DebugFlag :: opts))))
                (dbg || existsb is_debug (DebugFlag :: opts))) as Hgoal.
    { rewrite IH. cbn. by rewrite orb_true_r. }
    destruct (concat _ ++ tail); by rewrite ?decide_False, ?decide_True by done.
Qed.

Lemma pack_options_spelled show opts :
  Forall (option_readable int show) opts →
  ∀ sector_size cache_size dbg,
    pack_options int (concat (option_args show <$> opts))
      sector_size cache_size dbg
    = inl (default sector_size (last (omap sector_size_of opts)),
           default cache_size (last (omap cache_size_of opts)),
           dbg || existsb is_debug opts).
Proof.
  induction 1 as [|o opts Ho _ IH]; intros ss cs dbg.
  { cbn. by rewrite orb_false_r. }
  rewrite fmap_cons. cbn [concat].
  destruct o as [n|n|]; cbn [option_args app pack_options] in *.
  - rewrite decide_True by done. rewrite Ho, IH.
    change (omap sector_size_of (SectorSize n :: opts))
      with (n :: omap sector_size_of opts).
    by rewrite default_last_cons.
  - rewrite decide_False, decide_True by done. rewrite Ho, IH.
    change (omap cache_size_of (CacheSize n :: opts))
      with (n :: omap cache_size_of opts).
    by rewrite default_last_cons.
  - assert (pack_options int (concat (option_args show <$> opts)) ss cs true
            = inl (default ss (last (omap sector_size_of (DebugFlag :: opts))),
                   default cs (last (omap cache_size_of (DebugFlag :: opts))),
                   dbg || existsb is_debug (DebugFlag :: opts))) as Hgoal.
    { rewrite IH. cbn. by rewrite orb_true_r. }
    destruct (concat _); by rewrite ?decide_False, ?decide_True by done.
Qed.

Lemma not_help_command (command : string) :
  command = "pack"%string ∨ command = "unpack"%string
  ∨ command = "list"%string ∨ command = "verify"%string →
  ¬ (command = "help"%string ∨ command = "--help"%string
     ∨ command = "-h"%string).
Proof. intros [-> | [-> | [-> | ->]]] [?|[?|?]]; done. Qed.

(** X17.  The [pack] command with well-spelled options, each any number of
    times and in any order, calls [pack_cdfs] once, with the last sector
    size and the last cache size given, 2048 and 131072 when none is, and
    with debug mode when [--debug] occurs; the command name is matched
    whatever its case. *)
Theorem main_pack_options (show : Z → string)
    (program command input_dir output_file : string)
    (opts : list pack_option) :
  lower command = "pack"%string →
  isdir input_dir = true →
  Forall (option_readable int show) opts →
  raises (CallPack input_dir output_file
            (default 2048 (last (omap sector_size_of opts)))
            (default 131072 (last (omap cache_size_of opts)))
            (existsb is_debug opts)) = None →
  main lower int isdir isfile exists_ raises
    (program :: command :: input_dir :: output_file
     :: concat (option_args show <$> opts))
  = (CallPack input_dir output_file
       (default 2048 (last (omap sector_size_of opts)))
       (default 131072 (last (omap cache_size_of opts)))
       (existsb is_debug opts)
     :: (if existsb is_debug opts then [PrintTimeTaken] else []),
     ReturnNone).
Proof.
  intros Hcmd Hdir Hall Hok. unfold main. rewrite Hcmd.
  change (128 * 1024) with 131072.
  rewrite bool_decide_false by (apply not_help_command; auto).
  rewrite decide_True by done. rewrite Hdir. cbn [negb].
  rewrite (pack_options_spelled show opts Hall). cbn [orb].
  unfold run. by rewrite Hok.
Qed.

(** X18.  The [pack] command makes no call when its options are not well
    spelled: after any well-spelled options, an argument that is no option
    is reported as unknown, as is [--sector-size] or [--cache-size] given
    last without a value, and a value that [int] does not read raises
    [ValueError]. *)
Theorem main_pack_rejects (show : Z → string)
    (program command input_dir output_file : string)
    (opts : list pack_option) (arg : string) (more : list string) :
  lower command = "pack"%string →
  isdir input_dir = true →
  Forall (option_readable int show) opts →
  let argv tail :=
    program :: command :: input_dir :: output_file
    :: concat (option_args show <$> opts) ++ tail in
  (arg ≠ "--sector-size"%string → arg ≠ "--cache-size"%string →
   arg ≠ "--debug"%string →
   main lower int isdir isfile exists_ raises (argv (arg :: more))
   = ([PrintUnknownOption arg], ReturnNone)) ∧
  (arg = "--sector-size"%string ∨ arg = "--cache-size"%string →
   main lower int isdir isfile exists_ raises (argv [arg])
   = ([PrintUnknownOption arg], ReturnNone)) ∧
  (∀ value,
     arg = "--sector-size"%string ∨ arg = "--cache-size"%string →
     int value = None →
     main lower int isdir isfile exists_ raises (argv (arg :: value :: more))
     = ([], ValueError value)).
Proof.
  intros Hcmd Hdir Hall argv.
  assert (∀ tail, tail ≠ [] →
            main lower int isdir isfile exists_ raises (argv tail)
            = match pack_options int tail
                      (default 2048 (last (omap sector_size_of opts)))
                      (default 131072 (last (omap cache_size_of opts)))
                      (existsb is_debug opts) with
              | inr left_ => left_
              | inl (sector_size, cache_size, dbg) =>
                  run raises
                    (CallPack input_dir output_file sector_size cache_size
                       dbg)
                    (if dbg then [PrintTimeTaken] else [], ReturnNone)
              end) as Hmain.
  { intros tail Htail. unfold argv, main. rewrite Hcmd.
    change (128 * 1024) with 131072.
    rewrite bool_decide_false by (apply not_help_command; auto).
    rewrite decide_True by done. rewrite Hdir. cbn [negb].
    by rewrite (pack_options_app show opts tail Hall Htail). }
  split; [|split].
  - intros H1 H2 H3. rewrite Hmain by done. cbn [pack_options].
    destruct more; by rewrite !decide_False by done.
  - intros [-> | ->]; by rewrite Hmain.
  - intros value [-> | ->] Hv; rewrite Hmain by done; cbn [pack_options].
    + by rewrite decide_True, Hv by done.
    + by rewrite decide_False, decide_True, Hv by done.
Qed.

Lemma pack_options_cons arg args' sector_size cache_size dbg :
  pack_options int (arg :: args') sector_size cache_size dbg
  = match args' with
    | value :: args'' =>
        if decide (arg = "--sector-size"%string) then
          match int value with
          | Some n => pack_options int args'' n cache_size dbg
          | None => inr ([], ValueError value)
          end
        else if decide (arg = "--cache-size"%string) then
          match int value with
          | Some n => pack_options int args'' sector_size n dbg
          | None => inr ([], ValueError value)
          end
        else if decide (arg = "--debug"%string) then
          pack_options int args' sector_size cache_size true
        else inr ([PrintUnknownOption arg], ReturnNone)
    | [] =>
        if decide (arg = "--debug"%string) then
          pack_options int args' sector_size cache_size true
        else inr ([PrintUnknownOption arg], ReturnNone)
    end.
Proof. done. Qed.

Lemma pack_options_left n :
  ∀ args sector_size cache_size dbg r,
    (length args ≤ n)%nat →
    pack_options int args sector_size cache_size dbg = inr r →
    r.1 = [] ∨ ∃ o, r.1 = [PrintUnknownOption o].
Proof.
  induction n as [|n IH]; intros args ss cs dbg r Hn.
  { destruct args; [done|]. cbn in Hn. lia. }
  destruct args as [|arg args']; [done|]. rewrite pack_options_cons.
  destruct args' as [|value args''].
  - destruct (decide _); [done|]. intros [= <-]. right. eauto.
  - cbn [length] in Hn.
    destruct (decide (arg = "--sector-size"%string)).
    { destruct (int value); [apply IH; lia|]. intros [= <-]. by left. }
    destruct (decide (arg = "--cache-size"%string)).
    { destruct (int value); [apply IH; lia|]. intros [= <-]. by left. }
    destruct (decide (arg = "--debug"%string)).
    { apply IH. cbn [length]. lia. }
    intros [= <-]. right. eauto.
Qed.

Lemma unpack_options_left args :
  ∀ dbg r, unpack_options args dbg = inr r →
           ∃ o, r.1 = [PrintUnknownOption o].
Proof.
  induction args as [|arg args IH]; intros dbg r; cbn [unpack_options];
    [done|].
  destruct (decide _); [apply IH|]. intros [= <-]. eauto.
Qed.

Ltac elems :=
  repeat match goal with
         | H : _ ∈ [] |- _ => by apply elem_of_nil in H
         | H : _ ∈ _ :: _ |- _ => apply elem_of_cons in H as [->|H]
         end.

Ltac leaf :=
  cbn [fst snd];
  split; [cbn; lia|];
  split; [intros a b Ha Hb Hr; elems; done | intros a Ha; elems; done].

(** X19.  [main] calls at most one of the four functions of the archive,
    none once it has printed a help text or an error, [pack_cdfs] only on an
    existing directory and the other three only on an existing file. *)
Theorem main_calls_guarded (argv : list string) :
  let acts := (main lower int isdir isfile exists_ raises argv).1 in
  (length (List.filter is_call acts) ≤ 1)%nat ∧
  (∀ a b, a ∈ acts → b ∈ acts → is_refusal a = true → is_call b = false) ∧
  (∀ a, a ∈ acts → call_checked isdir isfile a).
Proof.
  cbn zeta. unfold main.
  destruct argv as [|program [|arg1 args]]; [leaf..|].
  case_bool_decide.
  { destruct args; leaf. }
  destruct (decide (lower arg1 = "pack"%string)).
  { destruct args as [|input_dir [|output_file options]]; [leaf..|].
    destruct (isdir input_dir) eqn:Hdir; cbn [negb]; [|leaf].
    destruct (pack_options int options 2048 (128 * 1024) false)
      as [[[ss cs] dbg]|r] eqn:Hopt.
    - unfold run. destruct (raises _); destruct dbg; leaf.
    - destruct r as [acts outcome].
      destruct (pack_options_left _ _ _ _ _ _ (le_n _) Hopt) as [Ho|[o Ho]];
        cbn in Ho; subst acts; leaf. }
  destruct (decide (lower arg1 = "unpack"%string)).
  { destruct args as [|input_file [|output_dir options]]; [leaf..|].
    destruct (isfile input_file) eqn:Hfile; cbn [negb]; [|leaf].
    destruct (unpack_options options false) as [dbg|r] eqn:Hopt.
    - unfold run. destruct (exists_ output_dir); cbn [negb];
        repeat match goal with
               | |- context [raises ?a] => destruct (raises a)
               end; destruct dbg; leaf.
    - destruct (unpack_options_left _ _ _ Hopt) as [o Ho].
      destruct r as [acts outcome]. cbn in Ho. subst acts.
      unfold run. destruct (exists_ output_dir); cbn [negb];
        repeat match goal with
               | |- context [raises ?a] => destruct (raises a)
               end; leaf. }
  destruct (decide (lower arg1 = "list"%string)).
  { destruct args as [|input_file ?]; [leaf|].
    destruct (isfile input_file) eqn:Hfile; cbn [negb]; [|leaf].
    unfold run. destruct (raises _); leaf. }
  destruct (decide (lower arg1 = "verify"%string)).
  { destruct args as [|input_file ?]; [leaf|].
    destruct (isfile input_file) eqn:Hfile; cbn [negb]; [|leaf].
    unfold run. destruct (raises _); leaf. }
  leaf.
Qed.

(** X20.  The [unpack] command creates a missing output directory before it
    looks at the options: a command line it then rejects for an unknown
    option leaves the new directory behind, and nothing is unpacked. *)
Theorem main_unpack_rejected (program command input_file output_dir : string)
    (n : nat) (arg : string) (more : list string) :
  lower command = "unpack"%string →
  isfile input_file = true →
  exists_ output_dir = false →
  raises (MakeDirs output_dir) = None →
  arg ≠ "--debug"%string →
  main lower int isdir isfile exists_ raises
    (program :: command :: input_file :: output_dir
     :: replicate n "--debug"%string ++ arg :: more)
  = ([MakeDirs output_dir; PrintUnknownOption arg], ReturnNone).
Proof.
  intros Hcmd Hfile Hexists Hmk Harg. unfold main. rewrite Hcmd.
  rewrite bool_decide_false by (apply not_help_command; auto).
  rewrite decide_False, decide_True by done.
  rewrite Hfile, Hexists. cbn [negb]. unfold run. rewrite Hmk.
  assert (∀ dbg, unpack_options (replicate n "--debug"%string ++ arg :: more)
                   dbg = inr ([PrintUnknownOption arg], ReturnNone)) as ->;
    [|done].
  induction n as [|n IH]; intros dbg; cbn [replicate app unpack_options].
  - by rewrite decide_False.
  - by rewrite decide_True.
Qed.

End command_line.

(** ** The sectors of a task *)

(** X21.  A task whose read succeeds overwrites exactly the sectors the
    planner counted for its entry, whatever they held, with the data of the
    file followed by fewer zeros than a sector has, and returns the size it
    read; a task whose read fails changes nothing and returns size 0 with
    the text of the exception. *)
Theorem process_file_task_sectors (read_error : string → option string)
    (idx : Z) (file_info : pack_entry) (sector_size first_sector_offset n : Z)
    (before sectors after : bytes) :
  0 < sector_size →
  is_ceil_div (size (pe_file file_info)) sector_size n →
  len before = first_sector_offset + pe_start_sector file_info * sector_size →
  len sectors = n * sector_size →
  let task := process_file_task read_error idx file_info sector_size
                first_sector_offset in
  match read_error (path (pe_file file_info)) with
  | Some e =>
      apply_writes task.1 (before ++ sectors ++ after)
      = before ++ sectors ++ after ∧
      task.2 = (idx, 0, inr e)
  | None =>
      apply_writes task.1 (before ++ sectors ++ after)
      = before ++ (data (pe_file file_info)
                   ++ zeros (n * sector_size - size (pe_file file_info)))
        ++ after ∧
      0 ≤ n * sector_size - size (pe_file file_info) < sector_size ∧
      task.2 = (idx, size (pe_file file_info),
                inl (path (pe_file file_info)))
  end.
Proof.
  intros Hss Hn HP HX task.
  pose proof (ceil_div_formula (size (pe_file file_info)) sector_size Hss)
    as Hn'.
  pose proof (is_ceil_div_unique _ _ _ _ Hss Hn Hn'). subst n.
  pose proof (process_file_task_apply read_error idx file_info sector_size
                first_sector_offset before sectors after Hss HP HX) as Happ.
  fold task in Happ. subst task. unfold process_file_task in *.
  destruct (read_error _); [done|].
  split; [done|]. split; [|done].
  pose proof (len_nonneg (data (pe_file file_info))) as Hsz.
  destruct (sector_padding_formula _ sector_size Hss Hsz) as [Hpad Hpadr].
  unfold size. lia.
Qed.

(** ** Full payloads *)

(** X22.  In an archive of bytes that [verify_cdfs] accepts, every entry has
    all its bytes: the payload the archive designates for it has exactly the
    length the entry states, so [unpack_cdfs] creates no short file. *)
Theorem verified_payloads_full (input_file : bytes) (log : list report) :
  Forall is_byte input_file →
  verify_cdfs input_file = (log, true) →
  ∃ h file_table,
    unpack_header (slice input_file 0 40) = Return h ∧
    read_file_table (Z.to_nat (h_file_table_entries h)) input_file 40
    = Return file_table ∧
    ∀ i e, file_table !! i = Some e →
           ∃ contents, archive_payload input_file i = Some contents ∧
                       len contents = entry_length e.
Proof.
  intros Hbytes Hv.
  destruct (verify_cdfs_accepted _ _ Hv) as (h & ft & Hh & Hmagic & Hread
                                              & Hall).
  exists h, ft. split; [done|]. split; [done|]. intros i e He.
  unfold archive_payload. rewrite Hh, Hread, He. cbn. eexists.
  split; [done|].
  rewrite Forall_lookup in Hall. destruct (Hall _ _ He) as (Hend & _).
  pose proof (unpack_header_fields_nonneg _ _ (slice_bytes _ 0 40 Hbytes) Hh)
    as Hnn.
  unfold header_fields in Hnn.
  repeat (apply Forall_cons in Hnn as [? Hnn]).
  pose proof (read_file_table_nonneg _ _ _ _ Hbytes Hread) as Hent.
  rewrite Forall_lookup in Hent. destruct (Hent _ _ He) as [? ?].
  pose proof (Z.mul_nonneg_nonneg (entry_start_sector e) (h_sector_size h)).
  rewrite slice_length; lia.
Qed.

(** ** Lookups in a growing table *)

Lemma scan_to_nul_more rest more k :
  0 ∈ rest → scan_to_nul (rest ++ more) k = scan_to_nul rest k.
Proof.
  revert k. induction rest as [|b rest IH]; intros k Hin.
  { by apply elem_of_nil in Hin. }
  cbn [app scan_to_nul]. case_bool_decide as Hb; [|done].
  apply IH. apply elem_of_cons in Hin as [?|?]; [done|done].
Qed.

(** X23.  A lookup reads up to the terminator and no further: once the
    string at an offset is terminated, appending to the table does not
    change what the offset reads. *)
Theorem unpack_string_from_table_stable (string_table more : bytes)
    (offset : Z) :
  0 ≤ offset →
  0 ∈ slice_from string_table offset →
  unpack_string_from_table (string_table ++ more) offset
  = unpack_string_from_table string_table offset.
Proof.
  intros Hoff Hin. unfold unpack_string_from_table.
  assert (offset ≤ len string_table) as Hle.
  { destruct (decide (offset ≤ len string_table)); [done|].
    unfold slice_from in Hin. rewrite drop_ge in Hin
      by (unfold len in *; lia). by apply elem_of_nil in Hin. }
  assert (slice_from (string_table ++ more) offset
          = slice_from string_table offset ++ more) as ->.
  { unfold slice_from. rewrite drop_app_le; [done|]. unfold len in *. lia. }
  rewrite scan_to_nul_more by done.
  destruct (scan_to_nul_spec (slice_from string_table offset) offset)
    as (Hr & _ & _).
  assert (len (slice_from string_table offset) = len string_table - offset)
    as Hl.
  { unfold slice_from, len in *. rewrite length_drop. lia. }
  by rewrite slice_app_l by lia.
Qed.

(** ** One entry per name *)

Lemma offset_of_lt ents i j :
  (i < j)%nat → (j ≤ length ents)%nat → offset_of ents i < offset_of ents j.
Proof.
  intros Hij Hj. unfold offset_of.
  replace j with (i + (j - i))%nat by lia.
  rewrite <- take_take_drop.
  rewrite flat_app, len_app.
  pose proof (length_flat_ge (take (j - i) (drop i ents))) as Hge.
  rewrite length_take, length_drop in Hge. unfold len. lia.
Qed.

Lemma entry_at_same st cache ents s t off_s off_t :
  table_inv st cache ents →
  entry_at ents s off_s → entry_at ents t off_t →
  off_s = off_t ↔ s = t.
Proof.
  intros Hinv (es & i & Hes & Hi & ->) (et & j & Het & Hj & ->). split.
  - intros Hoff.
    assert (i = j) as ->.
    { pose proof (lookup_lt_Some _ _ _ Hi). pose proof (lookup_lt_Some _ _ _ Hj).
      destruct (Nat.lt_trichotomy i j) as [Hlt|[?|Hlt]]; [|done|].
      - pose proof (offset_of_lt ([] :: ents) i j Hlt ltac:(lia)). lia.
      - pose proof (offset_of_lt ([] :: ents) j i Hlt ltac:(lia)). lia. }
    rewrite Hi in Hj. injection Hj as <-.
    by eapply utf8_encode_inj.
  - intros <-. rewrite Hes in Het. injection Het as <-.
    by rewrite (NoDup_lookup _ _ _ _ (inv_nodup _ _ _ Hinv) Hi Hj).
Qed.

Section names.

Variable upper : str → str.

(** X24.  Across the whole file table, two names, of files or of
    directories, as [os.path.split] of the host gave them, are stored at
    the same offset exactly when their upper-cased forms are equal: every
    name has one entry, shared by all its uses, and no two names share
    one.  (On a POSIX host the directory that [os.path.split] gives is
    empty for every file, and the name is the whole relative path.) *)
Theorem names_share_entries (os : platform) (file_paths : list found_file)
    (file_table : list pack_entry) (string_table : bytes)
    (string_table_entries : Z) (i j : nat) (found_i found_j : found_file)
    (ei ej : pack_entry) :
  Forall (names_nul_free upper) (split_rel_path os <$> file_paths) →
  intern_files upper (split_rel_path os <$> file_paths) [0] ∅ 1
  = Return (file_table, string_table, string_table_entries) →
  file_paths !! i = Some found_i → file_paths !! j = Some found_j →
  file_table !! i = Some ei → file_table !! j = Some ej →
  let fi := split_rel_path os found_i in
  let fj := split_rel_path os found_j in
  (pe_file_name_offset ei = pe_file_name_offset ej
   ↔ upper (file_name fi) = upper (file_name fj)) ∧
  (pe_dir_name_offset ei = pe_dir_name_offset ej
   ↔ upper (dir_name fi) = upper (dir_name fj)) ∧
  (pe_file_name_offset ei = pe_dir_name_offset ej
   ↔ upper (file_name fi) = upper (dir_name fj)).
Proof.
  intros Hnul Hi Hfi Hfj Hei Hej fi fj.
  pose proof (intern_files_spec upper _ [0] ∅ [] 1 table_inv_init Hnul)
    as Hspec.
  rewrite Hi in Hspec.
  destruct Hspec as (new & cache' & Hinv & _ & Hall & _).
  cbn [app] in *.
  assert ((split_rel_path os <$> file_paths) !! i = Some fi) as Hfi'
    by (by rewrite list_lookup_fmap, Hfi).
  assert ((split_rel_path os <$> file_paths) !! j = Some fj) as Hfj'
    by (by rewrite list_lookup_fmap, Hfj).
  destruct (Forall2_lookup_lr _ _ _ _ _ _ Hall Hfi' Hei)
    as (_ & _ & Hdi & _ & Hni & _).
  destruct (Forall2_lookup_lr _ _ _ _ _ _ Hall Hfj' Hej)
    as (_ & _ & Hdj & _ & Hnj & _).
  split; [|split]; by eapply entry_at_same.
Qed.

End names.

(** ** One entry per directory on Windows *)

Section windows.

Variable upper : str → str.

(** X25.  On a Windows host, where [os.path.split] cuts at
    backslashes: in the interning loop of a pack run (names whose
    upper-cased forms hold no NUL), the directory that [os.path.split] gives
    for a file has exactly one entry in the final string table, the file's
    entry references the offset of that entry, and every other file for
    which [os.path.split] gives the same directory references the same
    offset, however many such files there are. *)
Theorem windows_directory_entry_shared (file_paths : list found_file)
    (file_table : list pack_entry) (string_table : bytes)
    (string_table_entries : Z) :
  Forall (names_nul_free upper) (split_rel_path Windows <$> file_paths) →
  intern_files upper (split_rel_path Windows <$> file_paths) [0] ∅ 1
  = Return (file_table, string_table, string_table_entries) →
  length file_table = length file_paths ∧
  ∀ i found e,
    file_paths !! i = Some found → file_table !! i = Some e →
    let directory :=
      (os_path_split Windows
         (replace_char slash backslash (rel_path found))).1 in
    ∃ enc,
      utf8_encode (upper directory) = Some enc ∧
      filter (λ x, x = enc) (table_entries string_table) = [enc] ∧
      good_offset string_table (upper directory) (pe_dir_name_offset e) ∧
      ∀ j found' e',
        file_paths !! j = Some found' → file_table !! j = Some e' →
        (os_path_split Windows
           (replace_char slash backslash (rel_path found'))).1 = directory →
        pe_dir_name_offset e' = pe_dir_name_offset e.
Proof.
  intros Hnul Hrun.
  assert (∀ found, dir_name (split_rel_path Windows found)
                   = (os_path_split Windows
                        (replace_char slash backslash (rel_path found))).1)
    as Hdir.
  { intros found. unfold split_rel_path. by destruct (os_path_split _ _). }
  destruct (proj2 (directory_entry_shared upper _ Hnul) _ _ _ Hrun)
    as [Hlen Hall].
  split; [by rewrite Hlen, length_fmap|].
  intros i found e Hf He directory.
  assert ((split_rel_path Windows <$> file_paths) !! i
          = Some (split_rel_path Windows found)) as Hf'
    by (by rewrite list_lookup_fmap, Hf).
  destruct (Hall i _ e Hf' He) as (enc & Henc & Hone & Hgood & Hshare).
  rewrite Hdir in Henc, Hgood. exists enc.
  split; [done|]. split; [done|]. split; [done|].
  intros j found' e' Hj He' Hsame. eapply Hshare; [|done|].
  - by rewrite list_lookup_fmap, Hj.
  - by rewrite !Hdir.
Qed.

End windows.

(** ** The further properties on the examples *)

Lemma pack_archive_layout_witness :
  (∀ l : list write_op, id l ≡ₚ l) ∧
  pack_cdfs ascii_upper example_files 8 131072 false (λ _, None) id id
  = Return (example_archive, [], true) ∧
  ∃ file_table string_table string_table_entries hdr entries padding,
    intern_files ascii_upper example_files [0] ∅ 1
    = Return (file_table, string_table, string_table_entries) ∧
    struct_pack [CDFS_MAGIC; CDFS_VERSION; 8; 131072;
                 40 + 16 * len example_files + len string_table + padding;
                 Zsum ((λ f, (size f + 8 - 1) / 8) <$> example_files);
                 16 * len example_files; len example_files;
                 len string_table; string_table_entries]
    = Return hdr ∧
    pack_file_table (assign_sectors file_table 8 0).1 = Return entries ∧
    len hdr = 40 ∧ len entries = 16 * len example_files ∧
    0 ≤ padding < 8 ∧
    (40 + 16 * len example_files + len string_table + padding) mod 8 = 0 ∧
    example_archive
    = hdr ++ entries ++ string_table ++ zeros padding
      ++ concat (file_sectors (λ _, None) 8 <$> example_files) ∧
    len example_archive
    = 40 + 16 * len example_files + len string_table + padding
      + Zsum ((λ f, (size f + 8 - 1) / 8) <$> example_files) * 8.
Proof.
  assert (∀ l : list write_op, id l ≡ₚ l) as H1 by (intros l; reflexivity).
  assert (pack_cdfs ascii_upper example_files 8 131072 false (λ _, None)
            id id = Return (example_archive, [], true)) as H2
    by (vm_compute; reflexivity).
  repeat (split; [assumption|]).
  exact (pack_archive_layout ascii_upper example_files 8 131072 false
           (λ _, None) id id example_archive [] true H1 H2).
Defined.

Lemma process_file_task_sectors_witness :
  let file_info :=
    {| pe_file_name_offset := 5; pe_dir_name_offset := 1;
       pe_file := {| path := "in/sub/a.txt"; dir_name := py "sub";
                     file_name := py "a.txt"; data := [1; 2; 3; 4; 5] |};
       pe_start_sector := 2 |} in
  let before := replicate 20 7 in
  let sectors := replicate 8 9 in
  let after := [6; 6] in
  0 < 8 ∧
  is_ceil_div (size (pe_file file_info)) 8 1 ∧
  len before = 4 + pe_start_sector file_info * 8 ∧
  len sectors = 1 * 8 ∧
  let task := process_file_task (λ _, None) 0 file_info 8 4 in
  match (λ _ : string, @None string) (path (pe_file file_info)) with
  | Some e =>
      apply_writes task.1 (before ++ sectors ++ after)
      = before ++ sectors ++ after ∧
      task.2 = (0, 0, inr e)
  | None =>
      apply_writes task.1 (before ++ sectors ++ after)
      = before ++ (data (pe_file file_info)
                   ++ zeros (1 * 8 - size (pe_file file_info)))
        ++ after ∧
      0 ≤ 1 * 8 - size (pe_file file_info) < 8 ∧
      task.2 = (0, size (pe_file file_info), inl (path (pe_file file_info)))
  end.
Proof.
  intros file_info before sectors after.
  assert (0 < 8) as H1 by lia.
  assert (is_ceil_div (size (pe_file file_info)) 8 1) as H2
    by (vm_compute; split; [reflexivity | discriminate]).
  assert (len before = 4 + pe_start_sector file_info * 8) as H3
    by reflexivity.
  assert (len sectors = 1 * 8) as H4 by reflexivity.
  repeat (split; [assumption|]).
  exact (process_file_task_sectors (λ _, None) 0 file_info 8 4 1 before
           sectors after H1 H2 H3 H4).
Defined.

Lemma verify_cdfs_complete_witness :
  Forall is_byte example_archive ∧
  unpack_header (slice example_archive 0 40) = Return example_header ∧
  h_magic example_header = CDFS_MAGIC ∧
  h_first_sector_offset example_header ≤ len example_archive ∧
  h_file_table_entries example_header * 16
  = h_file_table_length example_header ∧
  read_file_table (Z.to_nat (h_file_table_entries example_header))
    example_archive 40 = Return example_entries ∧
  40 + 16 * h_file_table_entries example_header
  + h_string_table_length example_header ≤ len example_archive ∧
  Forall (entry_checked
            (slice example_archive
               (40 + 16 * h_file_table_entries example_header)
               (40 + 16 * h_file_table_entries example_header
                + h_string_table_length example_header))
            (h_first_sector_offset example_header)
            (h_sector_size example_header)
            (h_string_table_length example_header) (len example_archive))
    example_entries ∧
  verify_cdfs example_archive
  = ((if bool_decide (h_version example_header ≠ CDFS_VERSION)
      then [VersionMismatch (h_version example_header)] else [])
     ++ [VerificationSuccessful], true).
Proof.
  assert (Forall is_byte example_archive) as H1
    by (apply (bool_decide_unpack _); vm_compute; exact I).
  assert (unpack_header (slice example_archive 0 40) = Return example_header)
    as H2 by (vm_compute; reflexivity).
  assert (h_magic example_header = CDFS_MAGIC) as H3 by reflexivity.
  assert (h_first_sector_offset example_header ≤ len example_archive) as H4
    by (vm_compute; discriminate).
  assert (h_file_table_entries example_header * 16
          = h_file_table_length example_header) as H5 by reflexivity.
  assert (read_file_table (Z.to_nat (h_file_table_entries example_header))
            example_archive 40 = Return example_entries) as H6
    by (vm_compute; reflexivity).
  assert (40 + 16 * h_file_table_entries example_header
          + h_string_table_length example_header ≤ len example_archive) as H7
    by (vm_compute; discriminate).
  assert (Forall (entry_checked
                    (slice example_archive
                       (40 + 16 * h_file_table_entries example_header)
                       (40 + 16 * h_file_table_entries example_header
                        + h_string_table_length example_header))
                    (h_first_sector_offset example_header)
                    (h_sector_size example_header)
                    (h_string_table_length example_header)
                    (len example_archive))
            example_entries) as H8.
  { repeat constructor; try (vm_compute; discriminate);
      try (vm_compute; reflexivity); eexists; vm_compute; reflexivity. }
  repeat (split; [assumption|]).
  exact (verify_cdfs_complete example_archive example_header example_entries
           H1 H2 H3 H4 H5 H6 H7 H8).
Defined.

Lemma pack_verify_witness :
  (∀ l : list write_op, id l ≡ₚ l) ∧
  Forall (names_nul_free ascii_upper) example_files ∧
  pack_cdfs ascii_upper example_files 8 131072 false example_read_error
    id id
  = Return (example_failed_archive,
            [ErrorPacking 0 "[Errno 5] Input/output error"], true) ∧
  verify_cdfs example_failed_archive = ([VerificationSuccessful], true).
Proof.
  assert (∀ l : list write_op, id l ≡ₚ l) as H1 by (intros l; reflexivity).
  assert (Forall (names_nul_free ascii_upper) example_files) as H2
    by (apply (bool_decide_unpack _); vm_compute; exact I).
  assert (pack_cdfs ascii_upper example_files 8 131072 false
            example_read_error id id
          = Return (example_failed_archive,
                    [ErrorPacking 0 "[Errno 5] Input/output error"], true))
    as H3 by (vm_compute; reflexivity).
  repeat (split; [assumption|]).
  exact (pack_verify ascii_upper example_files 8 131072 false
           example_read_error id id example_failed_archive _ true H1 H2 H3).
Defined.

Lemma verified_archive_readable_witness :
  verify_cdfs example_archive = ([VerificationSuccessful], true) ∧
  (∃ h rows,
     unpack_header (slice example_archive 0 40) = Return h ∧
     list_cdfs example_archive
     = (ListSummary (h_version h) (h_file_table_entries h) (h_sector_size h)
          (len example_archive) (h_total_sectors h) :: rows, Return true) ∧
     length rows = Z.to_nat (h_file_table_entries h)) ∧
  ∀ dest_error debug_mode completion_order,
    ∃ out ulog,
      unpack_cdfs example_archive dest_error debug_mode completion_order
      = Return (out, ulog, true).
Proof.
  assert (verify_cdfs example_archive = ([VerificationSuccessful], true))
    as H1 by (vm_compute; reflexivity).
  split; [assumption|].
  exact (verified_archive_readable example_archive _ H1).
Defined.

Lemma pack_list_witness :
  (∀ l : list write_op, id l ≡ₚ l) ∧
  Forall (names_nul_free ascii_upper) example_files ∧
  pack_cdfs ascii_upper example_files 8 131072 false example_read_error
    id id
  = Return (example_failed_archive,
            [ErrorPacking 0 "[Errno 5] Input/output error"], true) ∧
  list_cdfs example_failed_archive
  = (ListSummary CDFS_VERSION (len example_files) 8
       (len example_failed_archive)
       (Zsum ((λ f, (size f + 8 - 1) / 8) <$> example_files))
     :: imap (λ i f, ListRow (Z.of_nat i) (size f)
                       (listed_path ascii_upper f)) example_files,
     Return true).
Proof.
  assert (∀ l : list write_op, id l ≡ₚ l) as H1 by (intros l; reflexivity).
  assert (Forall (names_nul_free ascii_upper) example_files) as H2
    by (apply (bool_decide_unpack _); vm_compute; exact I).
  assert (pack_cdfs ascii_upper example_files 8 131072 false
            example_read_error id id
          = Return (example_failed_archive,
                    [ErrorPacking 0 "[Errno 5] Input/output error"], true))
    as H3 by (vm_compute; reflexivity).
  repeat (split; [assumption|]).
  exact (pack_list ascii_upper example_files 8 131072 false
           example_read_error id id example_failed_archive _ true H1 H2 H3).
Defined.

Lemma pack_unpack_with_failures_witness :
  (∀ l : list write_op, id l ≡ₚ l) ∧
  (∀ l : list file_task, reverse l ≡ₚ l) ∧
  Forall (names_nul_free ascii_upper) example_files ∧
  NoDup (dest_of ascii_upper <$> example_files) ∧
  pack_cdfs ascii_upper example_files 8 131072 false example_read_error
    id id
  = Return (example_failed_archive,
            [ErrorPacking 0 "[Errno 5] Input/output error"], true) ∧
  ∃ out log',
    unpack_cdfs example_failed_archive (λ _, None) true reverse
    = Return (out, log', true) ∧
    (∀ f, f ∈ example_files →
          out !! dest_of ascii_upper f
          = Some (stored_payload example_read_error f)) ∧
    (∀ f msg, f ∈ example_files → example_read_error (path f) = Some msg →
              out !! dest_of ascii_upper f = Some (zeros (size f))).
Proof.
  assert (∀ l : list write_op, id l ≡ₚ l) as H1 by (intros l; reflexivity).
  assert (∀ l : list file_task, reverse l ≡ₚ l) as H2
    by (intros l; apply reverse_Permutation).
  assert (Forall (names_nul_free ascii_upper) example_files) as H3
    by (apply (bool_decide_unpack _); vm_compute; exact I).
  assert (NoDup (dest_of ascii_upper <$> example_files)) as H4
    by (apply (bool_decide_unpack _); vm_compute; exact I).
  assert (pack_cdfs ascii_upper example_files 8 131072 false
            example_read_error id id
          = Return (example_failed_archive,
                    [ErrorPacking 0 "[Errno 5] Input/output error"], true))
    as H5 by (vm_compute; reflexivity).
  repeat (split; [assumption|]).
  exact (pack_unpack_with_failures ascii_upper example_files 8 131072 false
           true example_read_error id id reverse example_failed_archive _
           true H1 H2 H3 H4 H5).
Defined.

Lemma unpack_file_task_contents_witness :
  let task := {| ft_file_path := (py "SUB", py "B.TXT");
                 ft_file_offset := 120; ft_file_length := 100 |} in
  0 ≤ ft_file_offset task ∧
  unpack_file_task example_archive (λ _, None) task
  = match (λ _ : dest_path, @None string) (ft_file_path task) with
    | Some e => Raise (OSError e)
    | None =>
        Return (slice example_archive (ft_file_offset task)
                  (ft_file_offset task + ft_file_length task))
    end ∧
  len (slice example_archive (ft_file_offset task)
         (ft_file_offset task + ft_file_length task))
  = Z.max 0 (Z.min (ft_file_length task)
               (len example_archive - ft_file_offset task)).
Proof.
  intros task.
  assert (0 ≤ ft_file_offset task) as H1 by (vm_compute; discriminate).
  split; [assumption|].
  exact (unpack_file_task_contents example_archive (λ _, None) task H1).
Defined.

Lemma unpack_cdfs_files_witness :
  let string_table_data :=
    slice example_archive (40 + 16 * h_file_table_entries example_header)
      (40 + 16 * h_file_table_entries example_header
       + h_string_table_length example_header) in
  (∀ l : list file_task, id l ≡ₚ l) ∧
  Forall is_byte example_archive ∧
  unpack_header (slice example_archive 0 40) = Return example_header ∧
  read_file_table (Z.to_nat (h_file_table_entries example_header))
    example_archive 40 = Return example_entries ∧
  NoDup (id <$> omap (entry_dest string_table_data) example_entries) ∧
  unpack_cdfs example_archive example_dest_error false id
  = Return (example_unpacked_failing.1.1, example_unpacked_failing.1.2,
            true) ∧
  (∀ i e p,
     example_entries !! i = Some e →
     entry_dest string_table_data e = Some p →
     example_dest_error p = None →
     is_Some (example_unpacked_failing.1.1 !! p) ∧
     example_unpacked_failing.1.1 !! p = archive_payload example_archive i) ∧
  (∀ p, is_Some (example_unpacked_failing.1.1 !! p) →
        example_dest_error p = None ∧
        ∃ e, e ∈ example_entries ∧ entry_dest string_table_data e = Some p) ∧
  (∀ e p msg,
     e ∈ example_entries → entry_dest string_table_data e = Some p →
     example_dest_error p = Some msg →
     example_unpacked_failing.1.1 !! p = None ∧
     ErrorUnpacking p msg ∈ example_unpacked_failing.1.2).
Proof.
  intros string_table_data.
  assert (∀ l : list file_task, id l ≡ₚ l) as H1 by (intros l; reflexivity).
  assert (Forall is_byte example_archive) as H2
    by (apply (bool_decide_unpack _); vm_compute; exact I).
  assert (unpack_header (slice example_archive 0 40) = Return example_header)
    as H3 by (vm_compute; reflexivity).
  assert (read_file_table (Z.to_nat (h_file_table_entries example_header))
            example_archive 40 = Return example_entries) as H4
    by (vm_compute; reflexivity).
  assert (NoDup (id <$> omap (entry_dest string_table_data) example_entries))
    as H5 by (apply (bool_decide_unpack _); vm_compute; exact I).
  assert (unpack_cdfs example_archive example_dest_error false id
          = Return (example_unpacked_failing.1.1,
                    example_unpacked_failing.1.2, true)) as H6
    by (vm_compute; reflexivity).
  repeat (split; [assumption|]).
  exact (unpack_cdfs_files id example_archive example_dest_error false id
           example_unpacked_failing.1.1 example_unpacked_failing.1.2
           example_header example_entries H1 H2 H3 H4 H5 H6).
Defined.

Lemma string_cache_transparent_witness :
  table_inv [0; 83; 85; 66; 0] {[py "SUB" := 1]} [[83; 85; 66]] ∧
  (0 ∉ ascii_upper (py "sub")) ∧
  utf8_encode (ascii_upper (py "sub")) = Some [83; 85; 66] ∧
  len [83; 85; 66] = len (ascii_upper (py "sub")) ∧
  ∃ string_table' cache1 cache2 offset,
    add_string_to_table ascii_upper [0; 83; 85; 66; 0] {[py "SUB" := 1]}
      (py "sub") = Return (string_table', cache1, offset) ∧
    add_string_to_table ascii_upper [0; 83; 85; 66; 0] ∅ (py "sub")
    = Return (string_table', cache2, offset).
Proof.
  assert (table_inv [0; 83; 85; 66; 0] {[py "SUB" := 1]} [[83; 85; 66]])
    as H1.
  { split.
    - reflexivity.
    - apply (bool_decide_unpack _); vm_compute; exact I.
    - apply (bool_decide_unpack _); vm_compute; exact I.
    - intros k off [<- <-]%lookup_singleton_Some.
      exists [83; 85; 66], 1%nat. repeat split; reflexivity.
    - intros e ->%list_elem_of_singleton. exists (py "SUB").
      split; [reflexivity|]. rewrite lookup_singleton_eq. by eexists. }
  assert (0 ∉ ascii_upper (py "sub")) as H2
    by (apply (bool_decide_unpack _); vm_compute; exact I).
  assert (utf8_encode (ascii_upper (py "sub")) = Some [83; 85; 66]) as H3
    by reflexivity.
  assert (len [83; 85; 66] = len (ascii_upper (py "sub"))) as H4
    by reflexivity.
  repeat (split; [assumption|]).
  exact (string_cache_transparent ascii_upper _ _ _ _ _ H1 H2 H3 H4).
Defined.

Lemma multibyte_string_appended_witness :
  let string_cache : gmap str Z := ∅ in
  string_cache !! ascii_upper [0x20AC] = None ∧
  utf8_encode (ascii_upper [0x20AC]) = Some [0xE2; 0x82; 0xAC] ∧
  len (ascii_upper [0x20AC]) < len [0xE2; 0x82; 0xAC] ∧
  add_string_to_table ascii_upper [0; 0xE2; 0x82; 0xAC; 0] string_cache
    [0x20AC]
  = Return ([0; 0xE2; 0x82; 0xAC; 0] ++ [0xE2; 0x82; 0xAC] ++ [0],
            <[ascii_upper [0x20AC] := len [0; 0xE2; 0x82; 0xAC; 0]]>
              string_cache,
            len [0; 0xE2; 0x82; 0xAC; 0]).
Proof.
  intros string_cache.
  assert (string_cache !! ascii_upper [0x20AC] = None) as H1 by reflexivity.
  assert (utf8_encode (ascii_upper [0x20AC]) = Some [0xE2; 0x82; 0xAC]) as H2
    by reflexivity.
  assert (len (ascii_upper [0x20AC]) < len [0xE2; 0x82; 0xAC]) as H3
    by reflexivity.
  repeat (split; [assumption|]).
  exact (multibyte_string_appended ascii_upper [0; 0xE2; 0x82; 0xAC; 0]
           string_cache [0x20AC] _ H1 H2 H3).
Defined.

Lemma empty_string_offset_witness :
  table_inv [0; 83; 85; 66; 0] {[py "SUB" := 1]} [[83; 85; 66]] ∧
  ascii_upper [] = [] ∧
  ∃ cache',
    add_string_to_table ascii_upper [0; 83; 85; 66; 0] {[py "SUB" := 1]} []
    = Return ([0; 83; 85; 66; 0], cache', 0) ∧
    unpack_string_from_table [0; 83; 85; 66; 0] 0 = Return [].
Proof.
  assert (table_inv [0; 83; 85; 66; 0] {[py "SUB" := 1]} [[83; 85; 66]])
    as H1.
  { split.
    - reflexivity.
    - apply (bool_decide_unpack _); vm_compute; exact I.
    - apply (bool_decide_unpack _); vm_compute; exact I.
    - intros k off [<- <-]%lookup_singleton_Some.
      exists [83; 85; 66], 1%nat. repeat split; reflexivity.
    - intros e ->%list_elem_of_singleton. exists (py "SUB").
      split; [reflexivity|]. rewrite lookup_singleton_eq. by eexists. }
  assert (ascii_upper [] = []) as H2 by reflexivity.
  repeat (split; [assumption|]).
  exact (empty_string_offset ascii_upper _ _ _ H1 H2).
Defined.

Lemma unpack_cdfs_header_fields_witness :
  Forall is_byte example_archive ∧
  (∀ l : list file_task, id l ≡ₚ l) ∧
  unpack_header (slice example_archive 0 40) = Return example_header ∧
  unpack_header (slice example_archive_v2 0 40) = Return example_header_v2 ∧
  drop 40 example_archive = drop 40 example_archive_v2 ∧
  h_magic example_header_v2 = h_magic example_header ∧
  h_sector_size example_header_v2 = h_sector_size example_header ∧
  h_first_sector_offset example_header_v2
  = h_first_sector_offset example_header ∧
  h_file_table_entries example_header_v2
  = h_file_table_entries example_header ∧
  h_string_table_length example_header_v2
  = h_string_table_length example_header ∧
  40 ≤ h_first_sector_offset example_header ∧
  h_version example_header_v2 ≠ h_version example_header ∧
  match unpack_cdfs example_archive example_dest_error true id,
        unpack_cdfs example_archive_v2 example_dest_error true id with
  | Return (out, _, returned), Return (out', _, returned') =>
      out = out' ∧ returned = returned'
  | Raise e, Raise e' => e = e'
  | _, _ => False
  end.
Proof.
  assert (Forall is_byte example_archive) as H1
    by (apply (bool_decide_unpack _); vm_compute; exact I).
  assert (∀ l : list file_task, id l ≡ₚ l) as H2 by (intros l; reflexivity).
  assert (unpack_header (slice example_archive 0 40) = Return example_header)
    as H3 by (vm_compute; reflexivity).
  assert (unpack_header (slice example_archive_v2 0 40)
          = Return example_header_v2) as H4 by (vm_compute; reflexivity).
  assert (drop 40 example_archive = drop 40 example_archive_v2) as H5
    by (vm_compute; reflexivity).
  assert (h_magic example_header_v2 = h_magic example_header) as H6
    by reflexivity.
  assert (h_sector_size example_header_v2 = h_sector_size example_header)
    as H7 by reflexivity.
  assert (h_first_sector_offset example_header_v2
          = h_first_sector_offset example_header) as H8 by reflexivity.
  assert (h_file_table_entries example_header_v2
          = h_file_table_entries example_header) as H9 by reflexivity.
  assert (h_string_table_length example_header_v2
          = h_string_table_length example_header) as H10 by reflexivity.
  assert (40 ≤ h_first_sector_offset example_header) as H11
    by (vm_compute; discriminate).
  assert (h_version example_header_v2 ≠ h_version example_header) as H12
    by (vm_compute; discriminate).
  repeat (split; [assumption|]).
  exact (unpack_cdfs_header_fields example_archive example_archive_v2
           example_header example_header_v2 example_dest_error true id
           H1 H2 H3 H4 H5 H6 H7 H8 H9 H10 H11).
Defined.

Lemma pack_cdfs_requirements_witness :
  (∀ l : list task_result, id l ≡ₚ l) ∧
  pack_cdfs ascii_upper example_files 8 131072 false example_read_error
    id id
  = Return (example_failed_archive,
            [ErrorPacking 0 "[Errno 5] Input/output error"], true) ∧
  0 < 8 < 2 ^ 32 ∧ 0 ≤ 131072 < 2 ^ 32 ∧
  40 + 16 * len example_files < 2 ^ 32 ∧
  Forall (λ f, size f < 2 ^ 32) example_files ∧
  Zsum ((λ f, (size f + 8 - 1) / 8) <$> example_files) < 2 ^ 32 ∧
  (false = true → Zsum (size <$> example_files) = 0 →
   Forall (λ f, is_Some (example_read_error (path f))) example_files).
Proof.
  assert (∀ l : list task_result, id l ≡ₚ l) as H1
    by (intros l; reflexivity).
  assert (pack_cdfs ascii_upper example_files 8 131072 false
            example_read_error id id
          = Return (example_failed_archive,
                    [ErrorPacking 0 "[Errno 5] Input/output error"], true))
    as H2 by (vm_compute; reflexivity).
  repeat (split; [assumption|]).
  exact (pack_cdfs_requirements ascii_upper example_files 8 131072 false
           example_read_error id id example_failed_archive _ true H1 H2).
Defined.

Lemma short_input_witness :
  len [83; 70; 68; 67; 1; 0; 0; 0] < 40 ∧
  list_cdfs [83; 70; 68; 67; 1; 0; 0; 0] = ([], Raise StructError) ∧
  unpack_cdfs [83; 70; 68; 67; 1; 0; 0; 0] (λ _, None) false id
  = Raise StructError ∧
  verify_cdfs [83; 70; 68; 67; 1; 0; 0; 0] = ([TooSmall], false).
Proof.
  assert (len [83; 70; 68; 67; 1; 0; 0; 0] < 40) as H1 by reflexivity.
  split; [assumption|].
  exact (short_input [83; 70; 68; 67; 1; 0; 0; 0] (λ _, None) false id H1).
Defined.

Lemma list_cdfs_bad_magic_witness :
  40 ≤ len ff_archive ∧
  unpack_I (take 4 ff_archive) ≠ CDFS_MAGIC ∧
  list_cdfs ff_archive
  = ([ListInvalidFormat (unpack_I (take 4 ff_archive))], Return false).
Proof.
  assert (40 ≤ len ff_archive) as H1 by (vm_compute; discriminate).
  assert (unpack_I (take 4 ff_archive) ≠ CDFS_MAGIC) as H2
    by (vm_compute; discriminate).
  repeat (split; [assumption|]).
  exact (list_cdfs_bad_magic ff_archive H1 H2).
Defined.

Lemma pack_errors_exact_witness :
  (∀ l : list task_result, reverse l ≡ₚ l) ∧
  pack_cdfs ascii_upper example_files 8 131072 false example_read_error
    id reverse
  = Return (example_failed_archive,
            [ErrorPacking 0 "[Errno 5] Input/output error"], true) ∧
  (∀ idx msg,
     ErrorPacking idx msg ∈ [ErrorPacking 0 "[Errno 5] Input/output error"] ↔
     ∃ i f, idx = Z.of_nat i ∧ example_files !! i = Some f ∧
            example_read_error (path f) = Some msg) ∧
  (false = false →
   Forall (λ r, ∃ idx msg, r = ErrorPacking idx msg)
     [ErrorPacking 0 "[Errno 5] Input/output error"]) ∧
  (false = false →
   (∀ f, f ∈ example_files → example_read_error (path f) = None) →
   [ErrorPacking 0 "[Errno 5] Input/output error"] = []).
Proof.
  assert (∀ l : list task_result, reverse l ≡ₚ l) as H1
    by (intros l; apply reverse_Permutation).
  assert (pack_cdfs ascii_upper example_files 8 131072 false
            example_read_error id reverse
          = Return (example_failed_archive,
                    [ErrorPacking 0 "[Errno 5] Input/output error"], true))
    as H2 by (vm_compute; reflexivity).
  repeat (split; [assumption|]).
  exact (pack_errors_exact ascii_upper example_files 8 131072 false
           example_read_error id reverse example_failed_archive _ true
           H1 H2).
Defined.

Lemma verified_payloads_full_witness :
  Forall is_byte example_archive ∧
  verify_cdfs example_archive = ([VerificationSuccessful], true) ∧
  ∃ h file_table,
    unpack_header (slice example_archive 0 40) = Return h ∧
    read_file_table (Z.to_nat (h_file_table_entries h)) example_archive 40
    = Return file_table ∧
    ∀ i e, file_table !! i = Some e →
           ∃ contents, archive_payload example_archive i = Some contents ∧
                       len contents = entry_length e.
Proof.
  assert (Forall is_byte example_archive) as H1
    by (apply (bool_decide_unpack _); vm_compute; exact I).
  assert (verify_cdfs example_archive = ([VerificationSuccessful], true))
    as H2 by (vm_compute; reflexivity).
  repeat (split; [assumption|]).
  exact (verified_payloads_full example_archive _ H1 H2).
Defined.

Lemma unpack_string_from_table_stable_witness :
  0 ≤ 1 ∧
  (0 ∈ slice_from [0; 65; 0] 1) ∧
  unpack_string_from_table ([0; 65; 0] ++ [66; 67; 0]) 1
  = unpack_string_from_table [0; 65; 0] 1.
Proof.
  assert (0 ≤ 1) as H1 by lia.
  assert (0 ∈ slice_from [0; 65; 0] 1) as H2
    by (apply (bool_decide_unpack _); vm_compute; exact I).
  repeat (split; [assumption|]).
  exact (unpack_string_from_table_stable [0; 65; 0] [66; 67; 0] 1 H1 H2).
Defined.

Lemma main_pack_options_witness :
  let opts := [SectorSize 512; DebugFlag; CacheSize 65536; SectorSize 512] in
  ascii_lower "PACK" = "pack"%string ∧
  example_isdir "in" = true ∧
  Forall (option_readable decimal_int example_show) opts ∧
  (λ _ : action, @None exn)
    (CallPack "in" "out.dat"
       (default 2048 (last (omap sector_size_of opts)))
       (default 131072 (last (omap cache_size_of opts)))
       (existsb is_debug opts)) = None ∧
  main ascii_lower decimal_int example_isdir example_isfile example_exists
    (λ _, None)
    ("CDFSManager.py" :: "PACK" :: "in" :: "out.dat"
     :: concat (option_args example_show <$> opts))%string
  = (CallPack "in" "out.dat"
       (default 2048 (last (omap sector_size_of opts)))
       (default 131072 (last (omap cache_size_of opts)))
       (existsb is_debug opts)
     :: (if existsb is_debug opts then [PrintTimeTaken] else []),
     ReturnNone).
Proof.
  intros opts.
  assert (ascii_lower "PACK" = "pack"%string) as H1 by reflexivity.
  assert (example_isdir "in" = true) as H2 by reflexivity.
  assert (Forall (option_readable decimal_int example_show) opts) as H3
    by (repeat constructor).
  assert ((λ _ : action, @None exn)
            (CallPack "in" "out.dat"
               (default 2048 (last (omap sector_size_of opts)))
               (default 131072 (last (omap cache_size_of opts)))
               (existsb is_debug opts)) = None) as H4 by reflexivity.
  repeat (split; [assumption|]).
  exact (main_pack_options ascii_lower decimal_int example_isdir
           example_isfile example_exists (λ _, None) example_show
           "CDFSManager.py" "PACK" "in" "out.dat" opts H1 H2 H3 H4).
Defined.

Lemma main_pack_rejects_witness :
  let opts := [SectorSize 512; DebugFlag] in
  ascii_lower "pack" = "pack"%string ∧
  example_isdir "in" = true ∧
  Forall (option_readable decimal_int example_show) opts ∧
  let argv tail :=
    ("CDFSManager.py" :: "pack" :: "in" :: "out.dat"
     :: concat (option_args example_show <$> opts) ++ tail)%string in
  ("--cache-size" ≠ "--sector-size" → "--cache-size" ≠ "--cache-size" →
   "--cache-size" ≠ "--debug" →
   main ascii_lower decimal_int example_isdir example_isfile example_exists
     (λ _, None) (argv ["--cache-size"; "12a"])
   = ([PrintUnknownOption "--cache-size"], ReturnNone))%string ∧
  ("--cache-size" = "--sector-size" ∨ "--cache-size" = "--cache-size" →
   main ascii_lower decimal_int example_isdir example_isfile example_exists
     (λ _, None) (argv ["--cache-size"])
   = ([PrintUnknownOption "--cache-size"], ReturnNone))%string ∧
  (∀ value,
     "--cache-size" = "--sector-size" ∨ "--cache-size" = "--cache-size" →
     decimal_int value = None →
     main ascii_lower decimal_int example_isdir example_isfile example_exists
       (λ _, None) (argv ["--cache-size"; value; "12a"])
     = ([], ValueError value))%string.
Proof.
  intros opts.
  assert (ascii_lower "pack" = "pack"%string) as H1 by reflexivity.
  assert (example_isdir "in" = true) as H2 by reflexivity.
  assert (Forall (option_readable decimal_int example_show) opts) as H3
    by (repeat constructor).
  repeat (split; [assumption|]).
  exact (main_pack_rejects ascii_lower decimal_int example_isdir
           example_isfile example_exists (λ _, None) example_show
           "CDFSManager.py" "pack" "in" "out.dat" opts "--cache-size"
           ["12a"%string] H1 H2 H3).
Defined.

Lemma main_unpack_rejected_witness :
  ascii_lower "Unpack" = "unpack"%string ∧
  example_isfile "a.dat" = true ∧
  example_exists "out" = false ∧
  (λ _ : action, @None exn) (MakeDirs "out") = None ∧
  "--fast"%string ≠ "--debug"%string ∧
  main ascii_lower decimal_int example_isdir example_isfile example_exists
    (λ _, None)
    ("CDFSManager.py" :: "Unpack" :: "a.dat" :: "out"
     :: replicate 2 "--debug" ++ "--fast" :: ["--debug"])%string
  = ([MakeDirs "out"; PrintUnknownOption "--fast"], ReturnNone).
Proof.
  assert (ascii_lower "Unpack" = "unpack"%string) as H1 by reflexivity.
  assert (example_isfile "a.dat" = true) as H2 by reflexivity.
  assert (example_exists "out" = false) as H3 by reflexivity.
  assert ((λ _ : action, @None exn) (MakeDirs "out") = None) as H4
    by reflexivity.
  assert ("--fast"%string ≠ "--debug"%string) as H5 by discriminate.
  repeat (split; [assumption|]).
  exact (main_unpack_rejected ascii_lower decimal_int example_isdir
           example_isfile example_exists (λ _, None) "CDFSManager.py"
           "Unpack" "a.dat" "out" 2 "--fast" ["--debug"%string]
           H1 H2 H3 H4 H5).
Defined.

Lemma names_share_entries_witness :
  let found_i := {| found_path := "in\sub\a.txt"; rel_path := py "sub\a.txt";
                    found_data := [1; 2; 3; 4; 5] |} in
  let found_j := {| found_path := "in\sub\b.txt"; rel_path := py "sub\b.txt";
                    found_data := [9; 8; 7; 6; 5; 4; 3; 2; 1] |} in
  let fi := split_rel_path Windows found_i in
  let fj := split_rel_path Windows found_j in
  let ei := {| pe_file_name_offset := 5; pe_dir_name_offset := 1;
               pe_file := fi; pe_start_sector := 0 |} in
  let ej := {| pe_file_name_offset := 11; pe_dir_name_offset := 1;
               pe_file := fj; pe_start_sector := 0 |} in
  Forall (names_nul_free ascii_upper)
    (split_rel_path Windows <$> windows_walk) ∧
  intern_files ascii_upper (split_rel_path Windows <$> windows_walk) [0] ∅ 1
  = Return (windows_table, windows_string_table, 4) ∧
  windows_walk !! 0%nat = Some found_i ∧
  windows_walk !! 1%nat = Some found_j ∧
  windows_table !! 0%nat = Some ei ∧ windows_table !! 1%nat = Some ej ∧
  (pe_file_name_offset ei = pe_file_name_offset ej
   ↔ ascii_upper (file_name fi) = ascii_upper (file_name fj)) ∧
  (pe_dir_name_offset ei = pe_dir_name_offset ej
   ↔ ascii_upper (dir_name fi) = ascii_upper (dir_name fj)) ∧
  (pe_file_name_offset ei = pe_dir_name_offset ej
   ↔ ascii_upper (file_name fi) = ascii_upper (dir_name fj)).
Proof.
  intros found_i found_j fi fj ei ej.
  assert (Forall (names_nul_free ascii_upper)
            (split_rel_path Windows <$> windows_walk)) as H1
    by (apply (bool_decide_unpack _); vm_compute; exact I).
  assert (intern_files ascii_upper (split_rel_path Windows <$> windows_walk)
            [0] ∅ 1
          = Return (windows_table, windows_string_table, 4)) as H2
    by (vm_compute; reflexivity).
  assert (windows_walk !! 0%nat = Some found_i) as H3 by reflexivity.
  assert (windows_walk !! 1%nat = Some found_j) as H4 by reflexivity.
  assert (windows_table !! 0%nat = Some ei) as H5 by reflexivity.
  assert (windows_table !! 1%nat = Some ej) as H6 by reflexivity.
  repeat (split; [assumption|]).
  exact (names_share_entries ascii_upper Windows windows_walk windows_table
           windows_string_table 4 0 1 found_i found_j ei ej
           H1 H2 H3 H4 H5 H6).
Defined.

Lemma windows_directory_entry_shared_witness :
  Forall (names_nul_free ascii_upper)
    (split_rel_path Windows <$> windows_walk) ∧
  intern_files ascii_upper (split_rel_path Windows <$> windows_walk) [0] ∅ 1
  = Return (windows_table, windows_string_table, 4) ∧
  (length windows_table = length windows_walk ∧
   ∀ i found e,
     windows_walk !! i = Some found → windows_table !! i = Some e →
     let directory :=
       (os_path_split Windows
          (replace_char slash backslash (rel_path found))).1 in
     ∃ enc,
       utf8_encode (ascii_upper directory) = Some enc ∧
       filter (λ x, x = enc) (table_entries windows_string_table) = [enc] ∧
       good_offset windows_string_table (ascii_upper directory)
         (pe_dir_name_offset e) ∧
       ∀ j found' e',
         windows_walk !! j = Some found' → windows_table !! j = Some e' →
         (os_path_split Windows
            (replace_char slash backslash (rel_path found'))).1
         = directory →
         pe_dir_name_offset e' = pe_dir_name_offset e) ∧
  os_path_split Windows (py "sub\a.txt") = (py "sub", py "a.txt") ∧
  pe_dir_name_offset <$> windows_table = [1; 1; 0] ∧
  table_entries windows_string_table
  = [py ""; py "SUB"; py "A.TXT"; py "B.TXT"; py "C"].
Proof.
  assert (Forall (names_nul_free ascii_upper)
            (split_rel_path Windows <$> windows_walk)) as H1
    by (apply (bool_decide_unpack _); vm_compute; exact I).
  assert (intern_files ascii_upper (split_rel_path Windows <$> windows_walk)
            [0] ∅ 1
          = Return (windows_table, windows_string_table, 4)) as H2
    by (vm_compute; reflexivity).
  repeat (split; [assumption|]).
  split; [exact (windows_directory_entry_shared ascii_upper windows_walk
                   windows_table windows_string_table 4 H1 H2)|].
  repeat split; vm_compute; reflexivity.
Defined.
